(** * SES email forwarder ([index.mjs]): recipient resolution, header rewrite
      and the step pipeline, embedded in Rocq.

    Strings are JavaScript strings restricted to the code units 0..255
    ([Ascii.ascii]); the rule table is a finite map from pattern keys to
    destination lists; regular expressions are interpreted by a backtracking
    matcher that follows the ECMAScript pattern semantics (continuation
    passing, greedy and lazy quantifiers, capture groups, the empty-iteration
    check of quantifiers). *)

From Stdlib Require Import Ascii String ZArith Bool Lia.
From stdpp Require Import base option list gmap strings.

(* The source patterns quoted in the comments contain comment terminators. *)
Set Warnings "-comment-terminator-in-string".

(** ** JavaScript string primitives *)

Module Js.

Definition LF : ascii := "010"%char.
Definition CR : ascii := "013"%char.
Definition TAB : ascii := "009"%char.
Definition SP : ascii := " "%char.

Definition str (c : ascii) : string := String c EmptyString.
Definition CRLF : string := String CR (String LF EmptyString).

Definition code (c : ascii) : nat := nat_of_ascii c.

Definition between (lo hi : nat) (c : ascii) : bool :=
  (lo <=? code c)%nat && (code c <=? hi)%nat.

(** LineTerminator: LF and CR (U+2028 and U+2029 are outside the alphabet). *)
Definition isLineTerminator (c : ascii) : bool :=
  Ascii.eqb c LF || Ascii.eqb c CR.

(** WhiteSpace and LineTerminator, the set of [\s] and of [trim]:
    TAB, LF, VT, FF, CR, SP and NBSP. *)
Definition isSpace (c : ascii) : bool :=
  between 9 13 c || Ascii.eqb c SP || (code c =? 160)%nat.

(** [toLowerCase] on one code unit: A-Z and the Latin-1 capitals
    (U+00C0..U+00DE without the multiplication sign) move up by 32. *)
Definition lowerChar (c : ascii) : ascii :=
  if between 65 90 c || (between 192 222 c && negb (code c =? 215)%nat)
  then ascii_of_nat (code c + 32) else c.

(** Canonicalize of the pattern semantics (ignoreCase, no unicode flag):
    the upper-case mapping, kept only when it is a single code unit and does
    not send a non-ASCII unit to an ASCII one.  On 0..255 that moves a-z and
    the Latin-1 small letters down by 32; the micro sign and y-diaeresis map
    outside the alphabet to units nothing else maps to, and sharp s has a
    two-unit upper case, so all three stay as they are. *)
Definition canonicalize (c : ascii) : ascii :=
  if between 97 122 c || (between 224 254 c && negb (code c =? 247)%nat)
  then ascii_of_nat (code c - 32) else c.

Fixpoint toLowerCase (s : string) : string :=
  match s with
  | EmptyString => EmptyString
  | String c t => String (lowerChar c) (toLowerCase t)
  end.

Fixpoint lastIndexOfFrom (c : ascii) (s : string) (i : Z) (found : Z) : Z :=
  match s with
  | EmptyString => found
  | String a t => lastIndexOfFrom c t (i + 1) (if Ascii.eqb a c then i else found)
  end.

(** [s.lastIndexOf(c)] for a one-character search string: the index of the
    last occurrence, or -1. *)
Definition lastIndexOf (c : ascii) (s : string) : Z :=
  lastIndexOfFrom c s 0 (-1).

Fixpoint take (n : nat) (s : string) : string :=
  match n, s with
  | S n', String c t => String c (take n' t)
  | _, _ => EmptyString
  end.

Fixpoint drop (n : nat) (s : string) : string :=
  match n, s with
  | S n', String _ t => drop n' t
  | _, _ => s
  end.

(** Relative index of [slice]: negative counts from the end, then clamped. *)
Definition clampIndex (len : nat) (i : Z) : nat :=
  if (i <? 0)%Z then Z.to_nat (Z.max (Z.of_nat len + i) 0)
  else Nat.min (Z.to_nat i) len.

(** [s.slice(from, to)]; [to = None] is the one-argument call. *)
Definition slice (s : string) (from : Z) (to : option Z) : string :=
  let len := String.length s in
  let a := clampIndex len from in
  let b := match to with Some e => clampIndex len e | None => len end in
  take (b - a) (drop a s).

Fixpoint trimStart (s : string) : string :=
  match s with
  | String c t => if isSpace c then trimStart t else s
  | EmptyString => EmptyString
  end.

Fixpoint trimEnd (s : string) : string :=
  match s with
  | EmptyString => EmptyString
  | String c t =>
      match trimEnd t with
      | EmptyString => if isSpace c then EmptyString else str c
      | t' => String c t'
      end
  end.

Definition trim (s : string) : string := trimEnd (trimStart s).

(** [a.join(sep)] on an array of strings. *)
Fixpoint join (sep : string) (l : list string) : string :=
  match l with
  | [] => EmptyString
  | [x] => x
  | x :: t => x +:+ sep +:+ join sep t
  end.

(** Truthiness of a string-or-undefined value. *)
Definition truthy (v : option string) : bool :=
  match v with
  | Some (String _ _) => true
  | _ => false
  end.

(** A string-or-undefined value inside a concatenation. *)
Definition toString (v : option string) : string :=
  match v with
  | Some s => s
  | None => "undefined"
  end.

Fixpoint lastChar (s : string) : option ascii :=
  match s with
  | EmptyString => None
  | String c EmptyString => Some c
  | String _ t => lastChar t
  end.

Fixpoint isPrefix (p s : string) : bool :=
  match p, s with
  | EmptyString, _ => true
  | String a p', String b s' => Ascii.eqb a b && isPrefix p' s'
  | _, _ => false
  end.

End Js.

(** ** Regular expressions, after the ECMAScript pattern semantics *)

Module RegExp.
Import Js.

Inductive regex : Type :=
| Eps
| Chr (c : ascii)                      (* a pattern character *)
| Dot                                  (* [.] *)
| Space                                (* [\s] *)
| OneOf (l : list ascii)               (* a bracket class *)
| Bol                                  (* [^] *)
| Cat (r1 r2 : regex)
| Star (greedy : bool) (r : regex)     (* [r*] and [r*?] *)
| Plus (greedy : bool) (r : regex)     (* [r+] and [r+?] *)
| Opt (greedy : bool) (r : regex)      (* [r?] and [r??] *)
| Group (n : nat) (r : regex).         (* capturing parentheses number [n] *)

Record flags : Type := Flags {
  global : bool;
  ignoreCase : bool;
  multiline : bool
}.

(** The state of a match in progress: the character before the current
    position (for [^]), the input from the current position on, and the
    captures made so far. *)
Record state : Type := State {
  prev : option ascii;
  rest : string;
  caps : gmap nat string
}.

Definition cont : Type := state -> option state.
Definition matcher_t : Type := state -> cont -> option state.

(** A pattern for a literal run of characters. *)
Fixpoint lit (s : string) : regex :=
  match s with
  | EmptyString => Eps
  | String c EmptyString => Chr c
  | String c t => Cat (Chr c) (lit t)
  end.

Fixpoint groupsOf (r : regex) : list nat :=
  match r with
  | Cat r1 r2 => groupsOf r1 ++ groupsOf r2
  | Star _ r' | Plus _ r' | Opt _ r' => groupsOf r'
  | Group n r' => n :: groupsOf r'
  | _ => []
  end.

(** Every quantifier iteration starts with the captures of its body undefined. *)
Definition clear (l : list nat) (x : state) : state :=
  State (prev x) (rest x) (foldr delete (caps x) l).

Definition charEq (fl : flags) (a c : ascii) : bool :=
  if ignoreCase fl then Ascii.eqb (canonicalize a) (canonicalize c)
  else Ascii.eqb a c.

(** CharacterSetMatcher: one character of the input, if it is in the set. *)
Definition single (p : ascii -> bool) : matcher_t := fun x k =>
  match rest x with
  | String a t => if p a then k (State (Some a) t (caps x)) else None
  | EmptyString => None
  end.

Definition atLineStart (fl : flags) (x : state) : bool :=
  match prev x with
  | None => true
  | Some c => multiline fl && isLineTerminator c
  end.

(** The text between two positions of one match. *)
Definition consumed (x y : state) : string :=
  take (String.length (rest x) - String.length (rest y)) (rest x).

Definition advanced (x y : state) : bool :=
  (String.length (rest y) <? String.length (rest x))%nat.

(** RepeatMatcher with min = 0 and no upper bound.  An iteration that
    consumes nothing is rejected, so [fuel], the length of the remaining
    input, bounds the number of iterations. *)
Fixpoint repeat (greedy : bool) (inner : list nat) (m : matcher_t)
    (fuel : nat) (x : state) (k : cont) : option state :=
  match fuel with
  | O => k x
  | S fuel' =>
      if greedy then
        match m (clear inner x)
                (fun y => if advanced x y then repeat greedy inner m fuel' y k else None) with
        | Some z => Some z
        | None => k x
        end
      else
        match k x with
        | Some z => Some z
        | None =>
            m (clear inner x)
              (fun y => if advanced x y then repeat greedy inner m fuel' y k else None)
        end
  end.

Fixpoint matcher (fl : flags) (r : regex) : matcher_t :=
  match r with
  | Eps => fun x k => k x
  | Chr c => single (fun a => charEq fl a c)
  | Dot => single (fun a => negb (isLineTerminator a))
  | Space => single isSpace
  | OneOf l => single (fun a => existsb (charEq fl a) l)
  | Bol => fun x k => if atLineStart fl x then k x else None
  | Cat r1 r2 => fun x k => matcher fl r1 x (fun y => matcher fl r2 y k)
  | Star g r' => fun x k =>
      repeat g (groupsOf r') (matcher fl r') (String.length (rest x)) x k
  | Plus g r' => fun x k =>
      matcher fl r' (clear (groupsOf r') x)
        (fun y => repeat g (groupsOf r') (matcher fl r') (String.length (rest y)) y k)
  | Opt g r' => fun x k =>
      if g then
        match matcher fl r' (clear (groupsOf r') x)
                (fun y => if advanced x y then k y else None) with
        | Some z => Some z
        | None => k x
        end
      else
        match k x with
        | Some z => Some z
        | None =>
            matcher fl r' (clear (groupsOf r') x)
              (fun y => if advanced x y then k y else None)
        end
  | Group n r' => fun x k =>
      matcher fl r' x
        (fun y => k (State (prev y) (rest y) (<[n := consumed x y]> (caps y))))
  end.

(** A successful match: the matched text, the input after it, and the
    captures. *)
Record hit : Type := Hit {
  matched : string;
  after : string;
  captures : gmap nat string
}.

(** The pattern tried at one position; [p] is the character before it. *)
Definition matchAt (fl : flags) (r : regex) (p : option ascii) (s : string)
    : option hit :=
  let x := State p s ∅ in
  match matcher fl r x Some with
  | Some y => Some (Hit (consumed x y) (rest y) (caps y))
  | None => None
  end.

Definition skip (c : ascii) (found : string * hit) : string * hit :=
  (String c found.1, found.2).

(** RegExpBuiltinExec without the sticky flag: the first position, from the
    current one on, at which the pattern matches, as the input skipped on
    the way and the match. *)
Fixpoint search (fl : flags) (r : regex) (p : option ascii) (s : string)
    : option (string * hit) :=
  match matchAt fl r p s with
  | Some h => Some (EmptyString, h)
  | None =>
      match s with
      | EmptyString => None
      | String c t => skip c <$> search fl r (Some c) t
      end
  end.

(** [re.test(s)] and [s.match(re)] for a pattern without the global flag. *)
Definition exec (fl : flags) (r : regex) (s : string) : option (string * hit) :=
  search fl r None s.

Definition test (fl : flags) (r : regex) (s : string) : bool :=
  match exec fl r s with Some _ => true | None => false end.

(** [match[n]]: undefined when there is no match or the group took no part. *)
Definition group (n : nat) (m : option (string * hit)) : option string :=
  found ← m; captures found.2 !! n.

(** A replacement: from the input before the match and the match. *)
Definition replacer : Type := string -> hit -> string.

(** One round per match; a match of the empty string moves the scan one
    character on.  Every round shortens the input left to scan, so
    [S (length s)] rounds are enough. *)
Fixpoint replaceLoop (fl : flags) (r : regex) (f : replacer) (fuel : nat)
    (before s : string) : string :=
  match fuel with
  | O => s
  | S fuel' =>
      match search fl r (lastChar before) s with
      | None => s
      | Some (skipped, h) =>
          let pre := before +:+ skipped in
          skipped +:+ f pre h +:+
          match matched h with
          | EmptyString =>
              match after h with
              | EmptyString => EmptyString
              | String c t => String c (replaceLoop fl r f fuel' (pre +:+ str c) t)
              end
          | _ => replaceLoop fl r f fuel' (pre +:+ matched h) (after h)
          end
      end
  end.

(** [s.replace(re, f)]: every match with the global flag, else the first. *)
Definition replace (fl : flags) (r : regex) (f : replacer) (s : string) : string :=
  if global fl then replaceLoop fl r f (S (String.length s)) EmptyString s
  else
    match exec fl r s with
    | None => s
    | Some (skipped, h) => skipped +:+ f skipped h +:+ after h
    end.

Definition isDigit (c : ascii) : bool := between 48 57 c.
Definition digit (c : ascii) : nat := code c - 48.

Definition capture (n ncaps : nat) (h : hit) (ref : string) : string :=
  if (1 <=? n)%nat && (n <=? ncaps)%nat
  then default EmptyString (captures h !! n)
  else ref.

(** GetSubstitution for a pattern with [ncaps] groups, none of them named. *)
Fixpoint getSubstitution (ncaps : nat) (template : string) (pre : string)
    (h : hit) : string :=
  match template with
  | EmptyString => EmptyString
  | String "$"%char (String "$"%char t) =>
      String "$"%char (getSubstitution ncaps t pre h)
  | String "$"%char (String "&"%char t) =>
      matched h +:+ getSubstitution ncaps t pre h
  | String "$"%char (String "`"%char t) =>
      pre +:+ getSubstitution ncaps t pre h
  | String "$"%char (String "'"%char t) =>
      after h +:+ getSubstitution ncaps t pre h
  | String "$"%char (String d1 t1 as t0) =>
      if isDigit d1 then
        match t1 with
        | String d2 t2 =>
            if isDigit d2 && (10 * digit d1 + digit d2 <=? ncaps)%nat then
              capture (10 * digit d1 + digit d2) ncaps h
                      (String "$"%char (String d1 (String d2 EmptyString)))
                +:+ getSubstitution ncaps t2 pre h
            else
              capture (digit d1) ncaps h (String "$"%char (String d1 EmptyString))
                +:+ getSubstitution ncaps t1 pre h
        | EmptyString =>
            capture (digit d1) ncaps h (String "$"%char (String d1 EmptyString))
        end
      else String "$"%char (getSubstitution ncaps t0 pre h)
  | String c t => String c (getSubstitution ncaps t pre h)
  end.

(** [s.replace(pattern, template)] with a string pattern: the first
    occurrence of [pattern]. *)
Fixpoint replaceString (pattern template : string) (before s : string) : string :=
  if isPrefix pattern s then
    getSubstitution 0 template before
      (Hit pattern (drop (String.length pattern) s) ∅)
      +:+ drop (String.length pattern) s
  else
    match s with
    | EmptyString => EmptyString
    | String c t => String c (replaceString pattern template (before +:+ str c) t)
    end.

End RegExp.

(** ** The forwarder *)

Import Js RegExp.

(** *** Data *)

Record Config : Type := {
  fromEmail : option string;
  subjectPrefix : option string;
  toEmail : option string;
  emailBucket : string;
  emailKeyPrefix : string;
  allowPlusSign : bool;
  forwardMapping : gmap string (list string)
}.

Definition defaultConfig : Config := {|
  fromEmail := Some "info@partypunchband.com";
  subjectPrefix := Some EmptyString;
  toEmail := None;
  emailBucket := "partypunchband-email";
  emailKeyPrefix := EmptyString;
  allowPlusSign := true;
  forwardMapping :=
    <["info@partypunchband.com" :=
        ["chad.kouse@gmail.com"; "bryanshutts@icloud.com";
         "haley.voelkl@gmail.com"; "myk.miller67@gmail.com"]]>
    (<["abuse@example.com" := ["example.jim@example.com"]]>
    (<["@" := ["chad.kouse@gmail.com"; "bryanshutts@icloud.com";
               "haley.voelkl@gmail.com"]]>
    (<["mike@partypunchband.com" := ["myk.miller67@gmail.com"]]>
    (<["chad@partypunchband.com" := ["chad.kouse@gmail.com"]]> ∅))))
|}.

(** The SES event, with every property the code reads optional. *)
Record Mail : Type := { messageId : string }.
Record Receipt : Type := { receiptRecipients : option (list string) }.
Record Ses : Type := { mail : option Mail; receipt : option Receipt }.
Record SesRecord : Type := {
  eventSource : option string;
  eventVersion : option string;
  ses : option Ses
}.
Record Event : Type := { Records : option (list SesRecord) }.

(** The data bundle the steps share.  Its [callback], [log], [ses] and [s3]
    members are the collaborators below; no step assigns them. *)
Record Data : Type := {
  event : option Event;
  config : Config;
  email : option Mail;
  recipients : option (list string);
  originalRecipients : option (list string);
  originalRecipient : option string;
  emailData : option string
}.

Inductive error : Type :=
| Error (message : string)
| TypeError (message : string).

Definition errorMessage (e : error) : string :=
  match e with Error m | TypeError m => m end.

(** What a run does to the outside: log records, completion callbacks and
    the commands sent to the store and to the mailer. *)
Inductive effect : Type :=
| Log (level message : string)
| Callback (err : option error)
| CopyObject (bucket copySource key : string)
| GetObject (bucket key : string)
| SendRawEmail (destinations : list string) (source : option string) (raw : string).

(** The answers of the store and of the mailer. *)
Record Services : Type := {
  copyObject : string -> string -> string -> bool;
  getObject : string -> string -> option string;
  sendRawEmail : list string -> option string -> string -> bool
}.

(** The value a step receives and resolves with: the data bundle, or
    [undefined], which is what the Lambda completion callback returns. *)
Inductive value : Type :=
| Undefined
| Context (d : Data).

Inductive settled : Type :=
| Resolved (v : value)
| Rejected (e : error).

(** A promise, run to its end: the effects on the way and the outcome. *)
Definition promise : Type := list effect * settled.

Definition step : Type := value -> promise.

Definition resolve (v : value) : promise := ([], Resolved v).
Definition reject (e : error) : promise := ([], Rejected e).

(** [p.then(f)]. *)
Definition andThen (p : promise) (f : value -> promise) : promise :=
  match p with
  | (tr, Resolved v) => let (tr', out) := f v in (tr ++ tr', out)
  | (tr, Rejected e) => (tr, Rejected e)
  end.

(** [p.catch(g)]. *)
Definition orCatch (p : promise) (g : error -> promise) : promise :=
  match p with
  | (tr, Rejected e) => let (tr', out) := g e in (tr ++ tr', out)
  | (tr, Resolved v) => (tr, Resolved v)
  end.

Definition emit (tr : list effect) (p : promise) : promise :=
  (tr ++ p.1, p.2).

(** Reading a property of [undefined]. *)
Definition readOfUndefined (property : string) : error :=
  TypeError ("Cannot read properties of undefined (reading '" +:+ property +:+ "')").

(** *** parseEvent *)

Definition validRecords (ev : option Event) : option SesRecord :=
  match ev with
  | Some {| Records := Some [r] |} =>
      if bool_decide (eventSource r = Some "aws:ses") &&
         bool_decide (eventVersion r = Some "1.0")
      then Some r else None
  | _ => None
  end.

Definition parseEvent : step := fun v =>
  match v with
  | Undefined => reject (readOfUndefined "event")
  | Context data =>
      match validRecords (event data) with
      | None =>
          ([Log "error" "parseEvent() received invalid SES message:"],
           Rejected (Error "Error: Received invalid SES message."))
      | Some r =>
          match ses r with
          | None => reject (readOfUndefined "mail")
          | Some s =>
              match receipt s with
              | None => reject (readOfUndefined "recipients")
              | Some rc =>
                  resolve (Context {|
                    event := event data;
                    config := config data;
                    email := mail s;
                    recipients := receiptRecipients rc;
                    originalRecipients := originalRecipients data;
                    originalRecipient := originalRecipient data;
                    emailData := emailData data |})
              end
          end
      end
  end.

(** *** transformRecipients *)

(** "/\+.*?@/" *)
Definition plusSignRe : regex :=
  Cat (Chr "+") (Cat (Star false Dot) (Chr "@")).
Definition noFlags : flags := Flags false false false.

Definition origEmailKey (cfg : Config) (origEmail : string) : string :=
  let key := toLowerCase origEmail in
  if allowPlusSign cfg
  then RegExp.replace noFlags plusSignRe (fun _ _ => "@") key
  else key.

(** What the loop body updates: [newRecipients] and [data.originalRecipient]. *)
Record Forwarding : Type := {
  newRecipients : list string;
  chosen : option string
}.

Definition forward (acc : Forwarding) (origEmail : string) (dests : list string)
    : Forwarding :=
  {| newRecipients := newRecipients acc ++ dests; chosen := Some origEmail |}.

(** The rule table is the object [data.config.forwardMapping] as the map of
    its own properties, and [fm !! k] is [fm.hasOwnProperty(k)] with [fm[k]]
    after it.  The code calls the method on the table itself, so this holds
    for a table that has no own property named [hasOwnProperty]: with one,
    the call is a call of a list of addresses and throws.  Such a table is
    not a table of rules and is left out here; the statements that let a
    key vary say so in a hypothesis. *)

(** [k && fm.hasOwnProperty(k)], and then [fm[k]]. *)
Definition ownProperty (fm : gmap string (list string)) (k : option string)
    : option (list string) :=
  match k with
  | Some (String _ _ as key) => fm !! key
  | _ => None
  end.

(** The body of the [forEach] over the original recipients. *)
Definition forwardOne (cfg : Config) (acc : Forwarding) (origEmail : string)
    : Forwarding :=
  let fm := forwardMapping cfg in
  let key := origEmailKey cfg origEmail in
  match fm !! key with
  | Some dests => forward acc origEmail dests
  | None =>
      let pos := lastIndexOf "@" key in
      let origEmailDomain :=
        if (pos =? -1)%Z then None else Some (slice key pos None) in
      let origEmailUser :=
        if (pos =? -1)%Z then key else slice key 0 (Some pos) in
      match ownProperty fm origEmailDomain with
      | Some dests => forward acc origEmail dests
      | None =>
          match ownProperty fm (Some origEmailUser) with
          | Some dests => forward acc origEmail dests
          | None =>
              match fm !! "@" with
              | Some dests => forward acc origEmail dests
              | None => acc
              end
          end
      end
  end.

Definition forwardAll (cfg : Config) (origEmails : list string) : Forwarding :=
  foldl (forwardOne cfg) {| newRecipients := []; chosen := None |} origEmails.

Definition withForwarding (data : Data) (rs : list string) (f : Forwarding)
    (newRs : list string) : Data :=
  {| event := event data;
     config := config data;
     email := email data;
     recipients := Some newRs;
     originalRecipients := Some rs;
     originalRecipient :=
       match chosen f with
       | Some r => Some r
       | None => originalRecipient data
       end;
     emailData := emailData data |}.

Definition transformRecipients : step := fun v =>
  match v with
  | Undefined => reject (readOfUndefined "recipients")
  | Context data =>
      match recipients data with
      | None => reject (readOfUndefined "forEach")
      | Some rs =>
          let f := forwardAll (config data) rs in
          match newRecipients f with
          | [] =>
              ([Log "info"
                  ("Finishing process. No new recipients found for " +:+
                   "original destinations: " +:+ join ", " rs);
                Callback None],
               Resolved Undefined)
          | newRs => resolve (Context (withForwarding data rs f newRs))
          end
      end
  end.

(** *** fetchMessage *)

Definition withEmailData (data : Data) (text : string) : Data :=
  {| event := event data;
     config := config data;
     email := email data;
     recipients := recipients data;
     originalRecipients := originalRecipients data;
     originalRecipient := originalRecipient data;
     emailData := Some text |}.

Definition fetchMessage (svc : Services) : step := fun v =>
  match v with
  | Undefined => reject (readOfUndefined "log")
  | Context data =>
      match email data with
      | None => reject (readOfUndefined "messageId")
      | Some m =>
          let cfg := config data in
          let key := emailKeyPrefix cfg +:+ messageId m in
          let copySource := emailBucket cfg +:+ "/" +:+ key in
          emit [Log "info" ("Fetching email at s3://" +:+ copySource);
                CopyObject (emailBucket cfg) copySource key]
            (if copyObject svc (emailBucket cfg) copySource key then
               emit [GetObject (emailBucket cfg) key]
                 match getObject svc (emailBucket cfg) key with
                 | Some text => resolve (Context (withEmailData data text))
                 | None =>
                     ([Log "error" "getObject() returned error:"],
                      Rejected (Error "Error: Failed to load message body from S3."))
                 end
             else
               ([Log "error" "copyObject() returned error:"],
                Rejected (Error "Error: Could not make readable copy of email.")))
      end
  end.

(** *** processMessage *)

Fixpoint seq (l : list regex) : regex :=
  match l with
  | [] => Eps
  | [r] => r
  | r :: t => Cat r (seq t)
  end.

Definition mFlags : flags := Flags false false true.
Definition imFlags : flags := Flags false true true.
Definition gimFlags : flags := Flags true true true.

Definition eol : list regex := [Opt true (Chr CR); Chr LF].
Definition tabOrSpace : regex := Opt true (OneOf [TAB; SP]).

(** "/^((?:.+\r?\n)*)(\r?\n(?:.*\s+)*)/m" *)
Definition splitRe : regex :=
  seq [Bol;
       Group 1 (Star true (seq (Plus true Dot :: eol)));
       Group 2 (seq (eol ++ [Star true (seq [Star true Dot; Plus true Space])]))].

(** "/^reply-to:[\t ]?/im" *)
Definition replyToRe : regex := seq [Bol; lit "reply-to:"; tabOrSpace].

(** "(?:\r?\n\s+.*)*", the folded continuation lines of a header. *)
Definition folded : regex :=
  Star true (seq (eol ++ [Plus true Space; Star true Dot])).

(** "/^from:[\t ]?(.*(?:\r?\n\s+.*)*\r?\n)/im" *)
Definition fromLineRe : regex :=
  seq [Bol; lit "from:"; tabOrSpace;
       Group 1 (seq ([Star true Dot; folded] ++ eol))].

(** "/^from:[\t ]?(.*(?:\r?\n\s+.*)*)/gim" *)
Definition fromRe : regex :=
  seq [Bol; lit "from:"; tabOrSpace; Group 1 (seq [Star true Dot; folded])].

(** "/<(.*)>/" *)
Definition angleRe : regex := seq [Chr "<"; Group 1 (Star true Dot); Chr ">"].

(** "/^subject:[\t ]?(.*)/gim" *)
Definition subjectRe : regex :=
  seq [Bol; lit "subject:"; tabOrSpace; Group 1 (Star true Dot)].

(** "/^to:[\t ]?(.*)/gim" *)
Definition toRe : regex :=
  seq [Bol; lit "to:"; tabOrSpace; Group 1 (Star true Dot)].

(** "/^NAME:[\t ]?(.*)\r?\n/gim" for the three one-line removals. *)
Definition lineRe (name : string) : regex :=
  seq ([Bol; lit name; tabOrSpace; Group 1 (Star true Dot)] ++ eol).

(** "/^dkim-signature:[\t ]?.*\r?\n(\s+.*\r?\n)*/gim" *)
Definition dkimRe : regex :=
  seq ([Bol; lit "dkim-signature:"; tabOrSpace; Star true Dot] ++ eol ++
       [Star true (Group 1 (seq ([Plus true Space; Star true Dot] ++ eol)))]).

(** A capture handed to a replacement function. *)
Definition arg (n : nat) (h : hit) : string := default EmptyString (captures h !! n).

(** The header block and the body of the message. *)
Definition splitHeader (emailData : string) : string :=
  let m := exec mFlags splitRe emailData in
  if truthy (group 1 m) then toString (group 1 m) else emailData.

Definition splitBody (emailData : string) : string :=
  let m := exec mFlags splitRe emailData in
  if truthy (group 2 m) then toString (group 2 m) else EmptyString.

(** The value of the first From header, with its line end. *)
Definition fromValue (header : string) : string :=
  let m := exec imFlags fromLineRe header in
  if truthy (group 1 m) then toString (group 1 m) else EmptyString.

(** Add Reply-To with the From address if it does not already exist. *)
Definition addReplyTo (header : string) : list effect * string :=
  if negb (test imFlags replyToRe header) then
    let from := fromValue header in
    if truthy (Some from) then
      ([Log "info" ("Added Reply-To address of: " +:+ from)],
       header +:+ "Reply-To: " +:+ from)
    else
      ([Log "info" ("Reply-To address not added because From address was not " +:+
                    "properly extracted.")],
       header)
  else ([], header).

(** The replacement of one From header. *)
Definition fromText (cfg : Config) (originalRecipient : option string)
    (from : string) : string :=
  if truthy (fromEmail cfg) then
    "From: " +:+
    trim (RegExp.replace noFlags angleRe (fun _ _ => EmptyString) from) +:+
    " <" +:+ toString (fromEmail cfg) +:+ ">"
  else
    "From: " +:+
    replaceString ">" EmptyString EmptyString
      (replaceString "<" "at " EmptyString from) +:+
    " <" +:+ toString originalRecipient +:+ ">".

Definition replaceFrom (cfg : Config) (originalRecipient : option string)
    (header : string) : string :=
  RegExp.replace gimFlags fromRe
    (fun _ h => fromText cfg originalRecipient (arg 1 h)) header.

(** Add a prefix to the Subject. *)
Definition prefixSubject (cfg : Config) (header : string) : string :=
  if truthy (subjectPrefix cfg) then
    RegExp.replace gimFlags subjectRe
      (fun _ h => "Subject: " +:+ toString (subjectPrefix cfg) +:+ arg 1 h) header
  else header.

(** Replace the original To header with a manually defined one. *)
Definition replaceTo (cfg : Config) (header : string) : string :=
  if truthy (toEmail cfg) then
    RegExp.replace gimFlags toRe
      (getSubstitution 1 ("To: " +:+ toString (toEmail cfg))) header
  else header.

Definition remove (r : regex) (header : string) : string :=
  RegExp.replace gimFlags r (fun _ _ => EmptyString) header.

(** Remove the Return-Path, Sender, Message-ID and DKIM-Signature headers. *)
Definition stripHeaders (header : string) : string :=
  remove dkimRe
    (remove (lineRe "message-id:")
       (remove (lineRe "sender:")
          (remove (lineRe "return-path:") header))).

(** The header block after all rewrites, with the log records made. *)
Definition rewriteHeader (cfg : Config) (originalRecipient : option string)
    (header : string) : list effect * string :=
  let (logs, header) := addReplyTo header in
  (logs,
   stripHeaders (replaceTo cfg (prefixSubject cfg
     (replaceFrom cfg originalRecipient header)))).

(** The new [data.emailData]. *)
Definition rewriteMessage (cfg : Config) (originalRecipient : option string)
    (emailData : string) : list effect * string :=
  let header := splitHeader emailData in
  let body := splitBody emailData in
  let (logs, header) := rewriteHeader cfg originalRecipient header in
  (logs, header +:+ body).

Definition processMessage : step := fun v =>
  match v with
  | Undefined => reject (readOfUndefined "emailData")
  | Context data =>
      match emailData data with
      | None => reject (readOfUndefined "match")
      | Some text =>
          let (logs, text') :=
            rewriteMessage (config data) (originalRecipient data) text in
          (logs, Resolved (Context (withEmailData data text')))
      end
  end.

(** *** sendMessage *)

Definition sendMessage (svc : Services) : step := fun v =>
  match v with
  | Undefined => reject (readOfUndefined "recipients")
  | Context data =>
      match emailData data, originalRecipients data, recipients data with
      | None, _, _ =>
          reject (TypeError
            ("The first argument must be of type string or an instance of " +:+
             "Buffer, ArrayBuffer, or Array or an Array-like Object. " +:+
             "Received undefined"))
      | Some _, None, _ | Some _, Some _, None =>
          reject (readOfUndefined "join")
      | Some raw, Some origs, Some dests =>
          emit [Log "info"
                  ("sendMessage: Sending email via SES. Original recipients: " +:+
                   join ", " origs +:+ ". Transformed recipients: " +:+
                   join ", " dests +:+ ".");
                SendRawEmail dests (originalRecipient data) raw]
            (if sendRawEmail svc dests (originalRecipient data) raw then
               ([Log "info" "sendRawEmail() successful."], Resolved (Context data))
             else
               ([Log "error" "sendRawEmail() returned error."],
                Rejected (Error "Error: Email sending failed.")))
      end
  end.

(** *** Promise.series and handler *)

(** What [+] makes of a value put after a string: a text, or the error
    that the conversion throws.  A number, a string, [null], [undefined] or
    a plain object gives a text; a Symbol throws the TypeError below. *)
Inductive conversion : Type :=
| Text (s : string)
| Throws (e : error).

Definition symbolConversion : conversion :=
  Throws (TypeError "Cannot convert a Symbol value to a string").

(** An entry of the step list: a function, or anything else.  Of an entry
    that is not a function the series uses its conversion to a string and
    nothing more. *)
Inductive item : Type :=
| Fn (f : step)
| NotFn (shown : conversion).

Definition series (promises : list item) (initValue : value) : promise :=
  foldl (fun chain p =>
           match p with
           | NotFn shown =>
               andThen chain (fun _ =>
                 match shown with
                 | Text s => reject (Error ("Error: Invalid promise item: " +:+ s))
                 | Throws e => reject e
                 end)
           | Fn f => andThen chain f
           end)
        (resolve initValue) promises.

Definition defaultSteps (svc : Services) : list item :=
  [Fn parseEvent; Fn transformRecipients; Fn (fetchMessage svc);
   Fn processMessage; Fn (sendMessage svc)].

Definition initialData (cfg : Config) (ev : option Event) : Data :=
  {| event := ev; config := cfg; email := None; recipients := None;
     originalRecipients := None; originalRecipient := None; emailData := None |}.

Definition handlerWith (steps : list item) (cfg : Config) (ev : option Event)
    : promise :=
  orCatch
    (andThen (series steps (Context (initialData cfg ev)))
       (fun v =>
          match v with
          | Undefined => reject (readOfUndefined "log")
          | Context _ =>
              ([Log "info" "Process finished successfully."; Callback None],
               Resolved Undefined)
          end))
    (fun err =>
       ([Log "error" ("Step returned error: " +:+ errorMessage err);
         Callback (Some (Error "Error: Step returned error."))],
        Resolved Undefined)).

(** The effects of one invocation with the default steps. *)
Definition handler (svc : Services) (cfg : Config) (ev : option Event)
    : list effect :=
  (handlerWith (defaultSteps svc) cfg ev).1.

(** ** Notions the statements below are phrased in *)

(** *** Recipient resolution *)

Definition blank : Forwarding := {| newRecipients := []; chosen := None |}.

(** [r] produces a rule match: the loop body records it. *)
Definition recorded (cfg : Config) (r : string) : bool :=
  match chosen (forwardOne cfg blank r) with
  | Some _ => true
  | None => false
  end.

(** The local part and the domain suffix of an address, cut at its last
    at-sign. *)
Fixpoint splitLast (s : string) : option (string * string) :=
  match s with
  | EmptyString => None
  | String c t =>
      match splitLast t with
      | Some (u, d) => Some (String c u, d)
      | None => if Ascii.eqb c "@" then Some (EmptyString, s) else None
      end
  end.

Definition nonEmpty (s : string) : list string :=
  match s with
  | EmptyString => []
  | _ => [s]
  end.

(** The keys tried for a normalised address, in order: the full address,
    the domain suffix when there is an at-sign, the local part when there
    is one, the catch-all. *)
Definition lookupOrder (key : string) : list string :=
  key ::
  match splitLast key with
  | Some (u, d) => d :: nonEmpty u
  | None => nonEmpty key
  end ++ ["@"].

(** The destinations of the first key of the list that has a rule. *)
Fixpoint firstRule (fm : gmap string (list string)) (keys : list string)
    : option (list string) :=
  match keys with
  | [] => None
  | k :: t =>
      match fm !! k with
      | Some dests => Some dests
      | None => firstRule fm t
      end
  end.

(** Every character of [s] satisfies [p]. *)
Fixpoint allChars (p : ascii -> bool) (s : string) : bool :=
  match s with
  | EmptyString => true
  | String c t => p c && allChars p t
  end.

Definition isNot (c a : ascii) : bool := negb (Ascii.eqb a c).

(** The characters [.] matches. *)
Definition plain (a : ascii) : bool := negb (isLineTerminator a).

(** The characters of a plus tag: none ends it or breaks the line. *)
Definition tagChar (a : ascii) : bool := isNot "@" a && plain a.

(** The destinations one recipient resolves to. *)
Definition destinations (cfg : Config) (origEmail : string) : list string :=
  default [] (firstRule (forwardMapping cfg) (lookupOrder (origEmailKey cfg origEmail))).

(** *** The event *)

(** One record with the SES source tag and version 1.0. *)
Definition wellShaped (ev : option Event) : Prop :=
  exists r, ev = Some {| Records := Some [r] |} /\
            eventSource r = Some "aws:ses" /\ eventVersion r = Some "1.0".

Definition invalidEvent : error := Error "Error: Received invalid SES message.".
Definition stepError : error := Error "Error: Step returned error.".

(** The completion callbacks of a run, in order, each with its error. *)
Definition callbacks (tr : list effect) : list (option error) :=
  omap (fun e => match e with Callback err => Some err | _ => None end) tr.

(** The event passes [parseEvent] with the recipients [rs], none of which
    resolves. *)
Definition leavesEarly (cfg : Config) (ev : option Event) : Prop :=
  exists r s rc rs,
    validRecords ev = Some r /\ ses r = Some s /\ receipt s = Some rc /\
    receiptRecipients rc = Some rs /\ newRecipients (forwardAll cfg rs) = [].

(** *** Header lines *)

(** Two characters the ignoreCase comparison takes for the same. *)
Definition sameLetter (a c : ascii) : bool :=
  Ascii.eqb (canonicalize a) (canonicalize c).

(** [s] begins with [name], compared without regard to case. *)
Fixpoint startsWith (name s : string) : bool :=
  match name, s with
  | EmptyString, _ => true
  | String c name', String a s' => sameLetter a c && startsWith name' s'
  | String _ _, EmptyString => false
  end.

(** Some line of [s] begins with [name]; [lineStart] tells whether [s]
    itself begins a line. *)
Fixpoint hasHeaderFrom (name : string) (lineStart : bool) (s : string) : bool :=
  (lineStart && startsWith name s) ||
  match s with
  | EmptyString => false
  | String a t => hasHeaderFrom name (isLineTerminator a) t
  end.

Definition hasHeader (name s : string) : bool := hasHeaderFrom name true s.

Definition isBlank (a : ascii) : bool := Ascii.eqb a TAB || Ascii.eqb a SP.

Definition dropBlank (s : string) : string :=
  match s with
  | String a t => if isBlank a then t else s
  | EmptyString => EmptyString
  end.

(** The value on a header line: what follows the name and one optional
    tab or space. *)
Definition headerValue (name line : string) : string :=
  dropBlank (drop (String.length name) line).

(** A text as its lines, each with the line terminator that ends it, and
    the unterminated rest. *)
Fixpoint unlines (l : list (string * ascii)) (last : string) : string :=
  match l with
  | [] => last
  | (c, t) :: l' => c +:+ String t (unlines l' last)
  end.

Definition lineOk (l : string * ascii) : bool :=
  allChars plain l.1 && isLineTerminator l.2.

(** The lines of a text: every line terminator ends one. *)
Fixpoint toLines (s : string) : list (string * ascii) * string :=
  match s with
  | EmptyString => ([], EmptyString)
  | String a t =>
      let (l, last) := toLines t in
      if isLineTerminator a then ((EmptyString, a) :: l, last)
      else
        match l with
        | [] => ([], String a last)
        | (c, t') :: l' => ((String a c, t') :: l', last)
        end
  end.

(** A text with [f] applied to each of its lines. *)
Definition mapLines (f : string -> string) (s : string) : string :=
  unlines (map (fun ln => (f ln.1, ln.2)) (toLines s).1) (f (toLines s).2).

(** No line of [l] begins with [name]. *)
Definition noLine (name : string) (l : list (string * ascii)) : bool :=
  forallb (fun ln => negb (startsWith name ln.1)) l.

(** A Subject line with the prefix before its value. *)
Definition prefixLine (p line : string) : string :=
  if startsWith "subject:" line
  then "Subject: " +:+ p +:+ headerValue "subject:" line
  else line.

(** A line with the prefix put before its Subject value, if it has one. *)
Definition prefixed (p : string) (l : string * ascii) : string * ascii :=
  (prefixLine p l.1, l.2).

(** The text at which a run of [.] or of a line's characters ends: the end
    of the input or a line terminator. *)
Definition atLineEnd (s : string) : bool :=
  match s with
  | EmptyString => true
  | String a _ => isLineTerminator a
  end.

(** A folded continuation line: its line end, its indentation and its
    text, which begins with a character that is not white space. *)
Record Fold : Type := {
  foldEol : string;
  foldIndent : string;
  foldText : string
}.

Definition isEol (e : string) : bool :=
  String.eqb e (str LF) || String.eqb e CRLF.

Definition indentChar (a : ascii) : bool := isSpace a && plain a.

Definition foldOk (f : Fold) : bool :=
  isEol (foldEol f) &&
  match foldIndent f with
  | EmptyString => false
  | w => allChars indentChar w
  end &&
  match foldText f with
  | EmptyString => false
  | String a v => negb (isSpace a) && allChars plain (String a v)
  end.

Definition foldString (f : Fold) : string :=
  foldEol f +:+ foldIndent f +:+ foldText f.

Fixpoint foldsString (l : list Fold) : string :=
  match l with
  | [] => EmptyString
  | f :: l' => foldString f +:+ foldsString l'
  end.

(** What may follow a folded header: nothing, or a line that does not begin
    with white space. *)
Definition endsFolding (post : string) : bool :=
  match post with
  | EmptyString => true
  | String a _ => negb (isSpace a)
  end.

(** *** The header patterns in parts *)

(** A header pattern: [^], the name, and the rest. *)
Definition headerRe (name : string) (tail : regex) : regex :=
  Cat Bol (Cat (lit name) tail).

(** No character of a header name is taken for a line terminator. *)
Definition nameChar (c : ascii) : bool :=
  negb (sameLetter LF c) && negb (sameLetter CR c).

(** The character before a position that begins a line. *)
Definition startsLine (p : option ascii) : bool :=
  match p with
  | None => true
  | Some t => isLineTerminator t
  end.

(** The tail of the Subject and To patterns: the optional blank and the
    captured rest of the line. *)
Definition valueTail : regex := Cat tabOrSpace (Group 1 (Star true Dot)).

(** The replacement of a Subject line. *)
Definition subjectText (p : string) : replacer :=
  fun _ h => "Subject: " +:+ p +:+ arg 1 h.

(** The parts of the From patterns: a line end, one folded continuation
    line, and the captured value with its line end. *)
Definition optCR : regex := Opt true (Chr CR).

Definition foldBody : regex :=
  Cat optCR (Cat (Chr LF) (Cat (Plus true Space) (Star true Dot))).

Definition fromBody : regex :=
  Cat (Star true Dot) (Cat (Star true foldBody) (Cat optCR (Chr LF))).

(** *** Matches in progress *)

(** The character before the position reached after reading [v]. *)
Definition prevAfter (q : option ascii) (v : string) : option ascii :=
  match lastChar v with
  | Some c => Some c
  | None => q
  end.

(** A match that ends with [r] left to read and the captures [cs]. *)
Definition yields (o : option state) (r : string) (cs : gmap nat string) : Prop :=
  exists q, o = Some (State q r cs).

Definition prepend (pfx : string) (found : string * hit) : string * hit :=
  (pfx +:+ found.1, found.2).

(** The length of the input left to read. *)
Definition len (x : state) : nat := String.length (rest x).

(** A matcher only answers through its continuation, at a position not
    before the one it started from. *)
Definition forward_only (m : matcher_t) : Prop :=
  forall x k z, m x k = Some z -> exists y, k y = Some z /\ len y <= len x.

(** And it does not tell apart continuations that agree from there on. *)
Definition local (m : matcher_t) : Prop :=
  forall x k1 k2,
    (forall y, len y <= len x -> k1 y = k2 y) -> m x k1 = m x k2.

(** ** Example inputs *)

Definition rulesOnly (fm : gmap string (list string)) : Config :=
  {| fromEmail := Some "relay@verified.com";
     subjectPrefix := Some "[FWD] ";
     toEmail := None;
     emailBucket := "bucket";
     emailKeyPrefix := EmptyString;
     allowPlusSign := true;
     forwardMapping := fm |}.

(** Two recipients with a rule each. *)
Definition twoRules : Config :=
  rulesOnly (<["a@x.com" := ["one@y.com"]]> (<["b@x.com" := ["two@y.com"]]> ∅)).

Definition sesEvent (m : option Mail) (rs : option (list string)) : option Event :=
  Some {| Records := Some [
    {| eventSource := Some "aws:ses";
       eventVersion := Some "1.0";
       ses := Some {| mail := m; receipt := Some {| receiptRecipients := rs |} |} |}] |}.

Definition noMatchEvent : option Event :=
  sesEvent (Some {| messageId := "m1" |}) (Some ["nomatch@z.com"]).

(** A store and a mailer that always answer. *)
Definition okServices : Services :=
  {| copyObject := fun _ _ _ => true;
     getObject := fun _ _ => Some ("Subject: hello" +:+ CRLF +:+ CRLF +:+ "Hi." +:+ CRLF);
     sendRawEmail := fun _ _ _ => true |}.

Definition relayConfig : Config := rulesOnly ∅.

(** The message of the fourth end-to-end scenario of the specification. *)
Definition janeMessage : string :=
  "From: Jane <jane@x.com>" +:+ CRLF +:+ "Subject: Hi" +:+ CRLF +:+ CRLF +:+ "Body text".

(** The fourth scenario with a line end after the body. *)
Definition janeMessageLine : string := janeMessage +:+ CRLF.

(** A header block with CRLF line ends and no blank line after it. *)
Definition headersOnly : string :=
  "From: x" +:+ CRLF +:+ "To: y" +:+ CRLF.

(** A message whose Message-ID header is folded onto a second line. *)
Definition foldedIdMessage : string :=
  "From: a@b.c" +:+ CRLF +:+ "Message-ID:" +:+ CRLF +:+ " <id@x>" +:+ CRLF +:+
  "Subject: s" +:+ CRLF +:+ CRLF +:+ "Body" +:+ CRLF.

Definition foldedIdHeader : string :=
  "Message-ID:" +:+ CRLF +:+ " <id@x>" +:+ CRLF +:+ "Subject: s" +:+ CRLF.

Definition foldedDkimHeader : string :=
  "DKIM-Signature: v=1;" +:+ CRLF +:+ " b=abc" +:+ CRLF +:+ "Subject: s" +:+ CRLF.

(** A header block that has a Reply-To header already. *)
Definition replyToHeader : string :=
  "From: a@b.c" +:+ CRLF +:+ "REPLY-TO: x@y.z" +:+ CRLF.

(** A header block whose From header is folded onto a second line. *)
Definition subjectLines : list (string * ascii) :=
  [("Subject: s", CR); (EmptyString, LF)].

Definition janeFold : Fold :=
  {| foldEol := CRLF; foldIndent := " "; foldText := "<jane@x.com>" |}.

Definition foldedFromHeader : string :=
  unlines subjectLines
    ("From: Jane" +:+ foldsString [janeFold] +:+ CRLF +:+ ("To: y" +:+ CRLF)).

(** A message that is a header block alone, its last line without a line
    end. *)
Definition openHeader : string := "From: x" +:+ str LF +:+ "To: y".

(** An event for one message delivered to [info@partypunchband.com]. *)
Definition infoEvent : option Event :=
  sesEvent (Some {| messageId := "m1" |}) (Some ["info@partypunchband.com"]).

(** ** Further notions *)

(** *** A run and what it sends *)

(** The messages handed to the mailer in a run, in order: destinations,
    source and raw text. *)
Definition sends (tr : list effect) : list (list string * option string * string) :=
  omap (fun e => match e with
                 | SendRawEmail d s raw => Some (d, s, raw)
                 | _ => None
                 end) tr.

(** The error of a step-list entry that is not a function. *)
Definition invalidItem (shown : string) : error :=
  Error ("Error: Invalid promise item: " +:+ shown).

(** The error an entry that is not a function rejects the series with. *)
Definition itemError (shown : conversion) : error :=
  match shown with
  | Text s => invalidItem s
  | Throws e => e
  end.

(** The event carries one valid record with the mail object [m] and the
    recipients [rs]. *)
Definition delivers (ev : option Event) (m : Mail) (rs : list string) : Prop :=
  exists r s rc,
    validRecords ev = Some r /\ ses r = Some s /\ receipt s = Some rc /\
    mail s = Some m /\ receiptRecipients rc = Some rs.

(** The effects of a run that ends when a step fails with [err]. *)
Definition failsWith (err : error) : list effect :=
  [Log "error" ("Step returned error: " +:+ errorMessage err);
   Callback (Some stepError)].

(** *** The keys of the rule table *)

(** What follows the first at-sign of [s], when no line terminator comes
    before it. *)
Fixpoint afterTag (s : string) : option string :=
  match s with
  | EmptyString => None
  | String c t =>
      if Ascii.eqb c "@" then Some t
      else if isLineTerminator c then None
      else afterTag t
  end.

(** [s] without its plus tag: the text from the first plus sign that has an
    at-sign after it on its line, up to that at-sign, is left out. *)
Fixpoint stripTag (s : string) : string :=
  match s with
  | EmptyString => EmptyString
  | String c t =>
      if Ascii.eqb c "+" then
        match afterTag t with
        | Some d => String "@" d
        | None => String c (stripTag t)
        end
      else String c (stripTag t)
  end.

(** The key an address is looked up under: its lower-case form, without
    the plus tag when the configuration allows plus signs. *)
Definition ruleKey (cfg : Config) (origEmail : string) : string :=
  if allowPlusSign cfg then stripTag (toLowerCase origEmail)
  else toLowerCase origEmail.

(** The address gives a rule match: the table has a rule under one of the
    keys of its lookup order. *)
Definition hasRule (cfg : Config) (origEmail : string) : bool :=
  match firstRule (forwardMapping cfg) (lookupOrder (ruleKey cfg origEmail)) with
  | Some _ => true
  | None => false
  end.

(** A character [toLowerCase] leaves as it is. *)
Definition isLower (c : ascii) : bool := Ascii.eqb (lowerChar c) c.

(** The configuration with another rule table. *)
Definition withRules (cfg : Config) (fm : gmap string (list string)) : Config :=
  {| fromEmail := fromEmail cfg;
     subjectPrefix := subjectPrefix cfg;
     toEmail := toEmail cfg;
     emailBucket := emailBucket cfg;
     emailKeyPrefix := emailKeyPrefix cfg;
     allowPlusSign := allowPlusSign cfg;
     forwardMapping := fm |}.

(** *** Header lines and body *)

(** The text has a white-space character. *)
Fixpoint hasSpace (s : string) : bool :=
  match s with
  | EmptyString => false
  | String a t => isSpace a || hasSpace t
  end.

(** A text up to and with its last white-space character, and what comes
    after that character. *)
Fixpoint uptoLastSpace (s : string) : string :=
  match s with
  | EmptyString => EmptyString
  | String a t =>
      if isSpace a || hasSpace t then String a (uptoLastSpace t) else EmptyString
  end.

Fixpoint afterLastSpace (s : string) : string :=
  match s with
  | EmptyString => EmptyString
  | String a t => if isSpace a || hasSpace t then afterLastSpace t else s
  end.

(** The text is empty or ends with a white-space character. *)
Definition endsInSpace (s : string) : bool :=
  match lastChar s with
  | Some c => isSpace c
  | None => true
  end.

(** A header block as its lines, each a text and the line end after it. *)
Fixpoint block (l : list (string * string)) : string :=
  match l with
  | [] => EmptyString
  | (c, e) :: l' => c +:+ e +:+ block l'
  end.

(** A line: a text without a line terminator, and LF or CRLF after it.  A
    header line has a text that is not empty. *)
Definition textLineOk (ln : string * string) : bool :=
  allChars plain ln.1 && isEol ln.2.

Definition headerLineOk (ln : string * string) : bool :=
  match ln.1 with EmptyString => false | _ => true end && textLineOk ln.

(** The parts of the split pattern: one header line, and one piece of the
    body with the white space that ends it. *)
Definition headerLineRe : regex := Cat (Plus true Dot) (Cat optCR (Chr LF)).
Definition bodyChunk : regex := Cat (Star true Dot) (Plus true Space).

(** The text is empty or begins with a character that is not a line
    terminator. *)
Definition startsPlain (s : string) : bool :=
  match s with
  | EmptyString => true
  | String a _ => plain a
  end.

(** The line ends with LF alone. *)
Definition endsWithLF (ln : string * string) : bool := String.eqb ln.2 (str LF).

(** The names of the headers the rewrite replaces or removes. *)
Definition rewrittenNames : list string :=
  ["from:"; "subject:"; "to:"; "return-path:"; "sender:"; "message-id:";
   "dkim-signature:"].

(** A line put through [g] when it begins with [name]. *)
Definition onLine (name : string) (g : string -> string) (line : string) : string :=
  if startsWith name line then g line else line.

(** A To line replaced by the configured address. *)
Definition toLine (t line : string) : string :=
  onLine "to:" (fun _ => "To: " +:+ t) line.

(** The tail of the one-line removal patterns: the optional blank, the
    captured rest of the line and the line end. *)
Definition lineTail : regex :=
  Cat tabOrSpace (Cat (Group 1 (Star true Dot)) (Cat optCR (Chr LF))).

(** The line does not begin with [name]. *)
Definition keeps (name : string) (ln : string * string) : bool :=
  negb (startsWith name ln.1).

(** *** Headers with continuation lines *)

(** The text begins with a character that is not white space. *)
Definition startsText (s : string) : bool :=
  match s with
  | EmptyString => false
  | String a _ => negb (isSpace a)
  end.

(** A header with its folded continuation lines: the first line, the
    continuation lines, and the line end that closes it. *)
Record Entry : Type := {
  entryFirst : string;
  entryFolds : list Fold;
  entryEol : string
}.

(** The text of a header. *)
Definition entryString (en : Entry) : string :=
  entryFirst en +:+ foldsString (entryFolds en) +:+ entryEol en.

(** The first line begins with a character that is not white space and
    has no line terminator; the continuation lines are indented and have
    text; the line end is LF or CRLF. *)
Definition entryOk (en : Entry) : bool :=
  startsText (entryFirst en) && allChars plain (entryFirst en) &&
  forallb foldOk (entryFolds en) && isEol (entryEol en).

(** A header block as its headers. *)
Fixpoint entries (l : list Entry) : string :=
  match l with
  | [] => EmptyString
  | en :: l' => entryString en +:+ entries l'
  end.

(** The line end after the first line of a header, and its continuation
    lines as lines, the last one closed by [e]. *)
Definition firstEol (folds : list Fold) (e : string) : string :=
  match folds with
  | [] => e
  | f :: _ => foldEol f
  end.

Fixpoint foldLines (folds : list Fold) (e : string) : list (string * string) :=
  match folds with
  | [] => []
  | f :: fs => (foldIndent f +:+ foldText f, firstEol fs e) :: foldLines fs e
  end.

Definition entryLines (en : Entry) : list (string * string) :=
  (entryFirst en, firstEol (entryFolds en) (entryEol en)) ::
  foldLines (entryFolds en) (entryEol en).

(** The header does not begin with [name]. *)
Definition keepsEntry (name : string) (en : Entry) : bool :=
  negb (startsWith name (entryFirst en)).

(** The parts of the DKIM-Signature pattern: one continuation line, and
    what follows the name. *)
Definition contRe : regex :=
  Cat (Plus true Space) (Cat (Star true Dot) (Cat optCR (Chr LF))).

Definition dkimTail : regex :=
  Cat tabOrSpace (Cat (Star true Dot) (Cat optCR (Cat (Chr LF)
    (Star true (Group 1 contRe))))).

(** A continuation line: it begins with white space and has a character
    that is not white space. *)
Definition isCont (ln : string * string) : bool :=
  match ln.1 with
  | String a _ => isSpace a && negb (allChars isSpace ln.1)
  | EmptyString => false
  end.

(** A line of a header block: the first line of a header, which begins
    with a character that is not white space, or a continuation line. *)
Definition lineShapeOk (ln : string * string) : bool :=
  textLineOk ln && (startsText ln.1 || isCont ln).

(** The lines left by the removal of DKIM-Signature: the lines that begin
    with the name go, each with the continuation lines that follow it. *)
Fixpoint dropDkimFrom (inside : bool) (l : list (string * string))
    : list (string * string) :=
  match l with
  | [] => []
  | ln :: l' =>
      if startsWith "dkim-signature:" ln.1 then dropDkimFrom true l'
      else if inside && isCont ln then dropDkimFrom true l'
      else ln :: dropDkimFrom false l'
  end.

Definition dropDkim (l : list (string * string)) : list (string * string) :=
  dropDkimFrom false l.

(** The lines that begin with none of the names of the one-line removals. *)
Definition keepsLine (ln : string * string) : bool :=
  keeps "return-path:" ln && keeps "sender:" ln && keeps "message-id:" ln.

(** *** The value of a From header *)

(** What follows the last closing angle bracket of the first line of [s]. *)
Fixpoint afterLastClose (s : string) : option string :=
  match s with
  | EmptyString => None
  | String c t =>
      if isLineTerminator c then None
      else
        match afterLastClose t with
        | Some r => Some r
        | None => if Ascii.eqb c ">" then Some t else None
        end
  end.

(** [s] without its bracketed address: the text from the first opening
    angle bracket that has a closing one after it on its line, up to the
    last closing one of that line, is left out. *)
Fixpoint stripAngle (s : string) : string :=
  match s with
  | EmptyString => EmptyString
  | String c t =>
      if Ascii.eqb c "<" then
        match afterLastClose t with
        | Some r => r
        | None => String c (stripAngle t)
        end
      else String c (stripAngle t)
  end.

(** What follows the name in the pattern that replaces From headers. *)
Definition fromTail : regex :=
  Cat tabOrSpace (Group 1 (Cat (Star true Dot) (Star true foldBody))).

(** A header block with [g] in the place of each header. *)
Fixpoint mapEntries (g : Entry -> string) (l : list Entry) : string :=
  match l with
  | [] => EmptyString
  | en :: l' => g en +:+ mapEntries g l'
  end.

(** A From header replaced: the new text, made from its value with the
    continuation lines, and its line end. *)
Definition fromEntry (cfg : Config) (orig : option string) (en : Entry) : string :=
  if startsWith "from:" (entryFirst en)
  then fromText cfg orig
         (headerValue "from:" (entryFirst en) +:+ foldsString (entryFolds en))
       +:+ entryEol en
  else entryString en.

(** *** Headers on one line *)

(** A header on one line: a text without a line terminator that begins
    with a character that is not white space, and LF or CRLF after it. *)
Definition oneLineOk (ln : string * string) : bool :=
  startsText ln.1 && textLineOk ln.

(** A one-line header as a header without continuation lines. *)
Definition lineEntry (ln : string * string) : Entry :=
  {| entryFirst := ln.1; entryFolds := []; entryEol := ln.2 |}.

(** The line the rewrite appends: none when a line begins with
    [Reply-To:]; else [Reply-To: ] with the value and the line end of the
    first line that begins with [From:], if there is one. *)
Definition replyToLines (lines : list (string * string)) : list (string * string) :=
  if existsb (fun ln => startsWith "reply-to:" ln.1) lines then []
  else
    match List.find (fun ln => startsWith "from:" ln.1) lines with
    | Some ln => [("Reply-To: " +:+ headerValue "from:" ln.1, ln.2)]
    | None => []
    end.

(** A From line replaced. *)
Definition fromLine (cfg : Config) (orig : option string) (line : string) : string :=
  onLine "from:" (fun c => fromText cfg orig (headerValue "from:" c)) line.

(** A Subject line with the configured prefix, if there is one. *)
Definition subjectLine (cfg : Config) (line : string) : string :=
  if truthy (subjectPrefix cfg)
  then prefixLine (toString (subjectPrefix cfg)) line
  else line.

(** A To line replaced by the configured address, if there is one. *)
Definition configuredToLine (cfg : Config) (line : string) : string :=
  if truthy (toEmail cfg) then toLine (toString (toEmail cfg)) line else line.

(** The three replacements on one line, in the order of the rewrite. *)
Definition rewriteLine (cfg : Config) (orig : option string)
    (ln : string * string) : string * string :=
  (configuredToLine cfg (subjectLine cfg (fromLine cfg orig ln.1)), ln.2).

(** The line begins with none of the names of the removed headers. *)
Definition keepsHeader (ln : string * string) : bool :=
  keepsLine ln && keeps "dkim-signature:" ln.

(** * Properties *)

(** ** Strings *)

#[local] Arguments String.append !s1 s2 : simpl nomatch.

Lemma length_app (a b : string) :
  String.length (a +:+ b) = String.length a + String.length b.
Proof. induction a as [|c a IH]; simpl; [done | by rewrite IH]. Qed.

Lemma app_empty_r (a : string) : a +:+ EmptyString = a.
Proof. induction a as [|c a IH]; simpl; [done | by rewrite IH]. Qed.

Lemma app_assoc (a b c : string) : (a +:+ b) +:+ c = a +:+ b +:+ c.
Proof. induction a as [|x a IH]; simpl; [done | by rewrite IH]. Qed.

Lemma take_app_length (a b : string) : take (String.length a) (a +:+ b) = a.
Proof. induction a as [|x a IH]; simpl; [by destruct b | by rewrite IH]. Qed.

Lemma drop_app_length (a b : string) : drop (String.length a) (a +:+ b) = b.
Proof. induction a as [|x a IH]; simpl; done. Qed.

Lemma take_length (a : string) : take (String.length a) a = a.
Proof. induction a as [|x a IH]; simpl; [done | by rewrite IH]. Qed.

(** ** Recipient resolution *)

Ltac case_rule :=
  match goal with
  | |- context [match ?x with Some _ => _ | None => _ end] =>
      let d := fresh "dests" in
      let E := fresh "Hrule" in
      destruct x as [d|] eqn:E
  end.

Lemma forwardOne_shape (cfg : Config) (r : string) :
  (exists dests, forall acc, forwardOne cfg acc r = forward acc r dests) \/
  (forall acc, forwardOne cfg acc r = acc).
Proof.
  unfold forwardOne.
  repeat case_rule; first [by right | by left; eexists].
Qed.

Lemma recorded_true (cfg : Config) (r : string) (acc : Forwarding) :
  recorded cfg r = true -> chosen (forwardOne cfg acc r) = Some r.
Proof.
  unfold recorded.
  destruct (forwardOne_shape cfg r) as [[d H]|H]; rewrite !H; [done |].
  simpl. discriminate.
Qed.

Lemma recorded_false (cfg : Config) (r : string) (acc : Forwarding) :
  recorded cfg r = false -> forwardOne cfg acc r = acc.
Proof.
  unfold recorded.
  destruct (forwardOne_shape cfg r) as [[d H]|H]; rewrite !H; [|done].
  simpl. discriminate.
Qed.

Lemma chosen_foldl (cfg : Config) (rs : list string) (acc : Forwarding) :
  chosen (foldl (forwardOne cfg) acc rs) =
  match last (List.filter (recorded cfg) rs) with
  | Some r => Some r
  | None => chosen acc
  end.
Proof.
  revert acc. induction rs as [|r rs IH]; intros acc; simpl; [done |].
  rewrite IH. destruct (recorded cfg r) eqn:Hr.
  - rewrite (recorded_true _ _ _ Hr), last_cons.
    by destruct (last (List.filter (recorded cfg) rs)).
  - by rewrite (recorded_false _ _ _ Hr).
Qed.

(** C1 as stated fails: with a rule for each of two recipients the first
    recipient that matches is [a@x.com], and the one recorded is [b@x.com]. *)
Lemma C1_first_match_refuted :
  List.find (recorded twoRules) ["a@x.com"; "b@x.com"] = Some "a@x.com" /\
  chosen (forwardAll twoRules ["a@x.com"; "b@x.com"]) = Some "b@x.com" /\
  chosen (forwardAll twoRules ["a@x.com"; "b@x.com"]) <>
    List.find (recorded twoRules) ["a@x.com"; "b@x.com"].
Proof. vm_compute. repeat split; [done..|discriminate]. Qed.

(** The first two end-to-end scenarios of the specification: a rule for
    the full address, and the catch-all alone. *)
Theorem scenarios_one_and_two :
  forwardAll (rulesOnly (<["info@x.com" := ["a@y.com"; "b@y.com"]]> ∅)) ["info@x.com"] =
    {| newRecipients := ["a@y.com"; "b@y.com"]; chosen := Some "info@x.com" |} /\
  forwardAll (rulesOnly (<["@" := ["fallback@y.com"]]> ∅)) ["random@x.com"] =
    {| newRecipients := ["fallback@y.com"]; chosen := Some "random@x.com" |}.
Proof. vm_compute. done. Qed.

(** *** The lookup order *)

Lemma lastIndexOfFrom_none (s : string) (i found : Z) :
  splitLast s = None -> lastIndexOfFrom "@" s i found = found.
Proof.
  revert i found. induction s as [|c t IH]; intros i found; simpl; [done |].
  destruct (splitLast t) as [[u d]|]; [done |].
  destruct (Ascii.eqb c "@"); [done |]. intros _. by apply IH.
Qed.

Lemma lastIndexOfFrom_some (s u d : string) (i found : Z) :
  splitLast s = Some (u, d) ->
  lastIndexOfFrom "@" s i found = (i + Z.of_nat (String.length u))%Z /\
  s = u +:+ d /\ exists d', d = String "@" d'.
Proof.
  revert u d i found. induction s as [|c t IH]; intros u d i found; simpl; [done |].
  destruct (splitLast t) as [[u' d']|] eqn:Ht.
  - intros [= <- <-]. destruct (IH u' d' (i + 1)%Z
      (if Ascii.eqb c "@" then i else found) eq_refl) as (-> & Heq & Hd).
    split; [simpl String.length; lia |]. split; [simpl; by rewrite <- Heq | done].
  - destruct (Ascii.eqb c "@") eqn:Hc; [|done].
    intros [= <- <-]. rewrite lastIndexOfFrom_none by done.
    apply Ascii.eqb_eq in Hc as ->.
    split; [simpl; lia |]. split; [done | by eexists].
Qed.

Lemma slice_suffix (u d : string) :
  slice (u +:+ d) (Z.of_nat (String.length u)) None = d.
Proof.
  unfold slice, clampIndex. rewrite length_app.
  destruct (Z.ltb_spec (Z.of_nat (String.length u)) 0); [lia |].
  rewrite Nat2Z.id, Nat.min_l by lia.
  rewrite drop_app_length.
  replace (String.length u + String.length d - String.length u)
    with (String.length d) by lia.
  apply take_length.
Qed.

Lemma slice_prefix (u d : string) :
  slice (u +:+ d) 0 (Some (Z.of_nat (String.length u))) = u.
Proof.
  unfold slice, clampIndex. rewrite length_app. simpl.
  destruct (Z.ltb_spec (Z.of_nat (String.length u)) 0); [lia |].
  rewrite Nat2Z.id, Nat.min_l by lia.
  rewrite Nat.sub_0_r. apply take_app_length.
Qed.

Lemma ownProperty_nonEmpty (fm : gmap string (list string)) (s : string)
    (keys : list string) :
  firstRule fm (nonEmpty s ++ keys) =
  match ownProperty fm (Some s) with
  | Some dests => Some dests
  | None => firstRule fm keys
  end.
Proof. by destruct s. Qed.

Lemma forwardOne_firstRule (cfg : Config) (acc : Forwarding) (origEmail : string) :
  forwardOne cfg acc origEmail =
    match firstRule (forwardMapping cfg) (lookupOrder (origEmailKey cfg origEmail)) with
    | Some dests => forward acc origEmail dests
    | None => acc
    end.
Proof.
  unfold forwardOne, lookupOrder. simpl firstRule.
  set (key := origEmailKey cfg origEmail). set (fm := forwardMapping cfg).
  destruct (fm !! key) as [d|] eqn:Hfull; [done |].
  destruct (splitLast key) as [[u dom]|] eqn:Hsplit.
  - destruct (lastIndexOfFrom_some key u dom 0 (-1) Hsplit) as (Hpos & Hkey & dom' & ->).
    unfold lastIndexOf. rewrite Hpos, Z.add_0_l.
    destruct (Z.eqb_spec (Z.of_nat (String.length u)) (-1)); [lia |].
    rewrite Hkey, slice_suffix, slice_prefix. simpl ownProperty at 1.
    simpl firstRule.
    destruct (fm !! String "@" dom') as [d|]; [done |].
    rewrite ownProperty_nonEmpty.
    destruct (ownProperty fm (Some u)) as [d|]; [done |]. simpl.
    by destruct (fm !! "@").
  - unfold lastIndexOf. rewrite lastIndexOfFrom_none by done.
    rewrite Z.eqb_refl, ownProperty_nonEmpty. simpl (ownProperty fm None).
    destruct (ownProperty fm (Some key)) as [d|]; [done |]. simpl.
    by destruct (fm !! "@").
Qed.

Lemma newRecipients_foldl (cfg : Config) (rs : list string) (acc : Forwarding) :
  newRecipients (foldl (forwardOne cfg) acc rs) =
  newRecipients acc ++ concat (map (destinations cfg) rs).
Proof.
  revert acc. induction rs as [|r rs IH]; intros acc; cbn [foldl map concat].
  - by rewrite app_nil_r.
  - rewrite IH, forwardOne_firstRule. unfold destinations.
    destruct (firstRule _ _) as [d|]; [|done].
    cbn [forward newRecipients default]. by rewrite <- List.app_assoc.
Qed.

(** X1.  The resolved list is the destinations of the recipients one after
    the other, in input order, repeats included. *)
Theorem resolved_is_concatenation (cfg : Config) (rs : list string) :
  newRecipients (forwardAll cfg rs) = concat (map (destinations cfg) rs).
Proof. unfold forwardAll. by rewrite newRecipients_foldl. Qed.

(** ** The pipeline *)

Lemma andThen_resolve (v : value) (f : value -> promise) :
  andThen (resolve v) f = f v.
Proof. unfold andThen, resolve. by destruct (f v). Qed.

Lemma validRecords_None (ev : option Event) :
  validRecords ev = None <-> ~ wellShaped ev.
Proof.
  unfold validRecords, wellShaped. split.
  - intros Hnone (r & -> & Hsrc & Hver).
    rewrite Hsrc, Hver in Hnone. by rewrite !bool_decide_eq_true_2 in Hnone.
  - intros Hnot. destruct ev as [[[[|r [|r' rs]]|]]|]; try done.
    destruct (bool_decide (eventSource r = _)) eqn:Hsrc; [|done].
    destruct (bool_decide (eventVersion r = _)) eqn:Hver; [|done].
    apply bool_decide_eq_true in Hsrc, Hver. exfalso. apply Hnot. by exists r.
Qed.

(** C7 (as amended).  The Validate stage fails with the invalid-event error,
    and no later stage runs, unless the event has exactly one record that
    carries the SES event-source tag and schema version 1.0; an event of
    that shape is never refused as invalid, whatever its mail object and
    its recipient list. *)
Theorem C7_validate_checks_record_shape (svc : Services) (cfg : Config)
    (ev : option Event) :
  (~ wellShaped ev ->
   handler svc cfg ev =
     [Log "error" "parseEvent() received invalid SES message:";
      Log "error" ("Step returned error: " +:+ errorMessage invalidEvent);
      Callback (Some stepError)]) /\
  (wellShaped ev ->
   (parseEvent (Context (initialData cfg ev))).2 <> Rejected invalidEvent).
Proof.
  split.
  - intros Hbad%validRecords_None.
    unfold handler, handlerWith, defaultSteps, series. simpl.
    by rewrite Hbad.
  - intros Hok. simpl. destruct (validRecords ev) as [r|] eqn:Hv.
    + destruct (ses r) as [s|]; [|done]. by destruct (receipt s).
    + apply validRecords_None in Hv. done.
Qed.

Lemma C7_validate_checks_record_shape_witness :
  handler okServices relayConfig None =
    [Log "error" "parseEvent() received invalid SES message:";
     Log "error" ("Step returned error: " +:+ errorMessage invalidEvent);
     Callback (Some stepError)] /\
  (parseEvent (Context (initialData relayConfig noMatchEvent))).2
    <> Rejected invalidEvent.
Proof.
  split.
  - apply (proj1 (C7_validate_checks_record_shape okServices relayConfig None)).
    by intros (r & Hr & _).
  - apply (proj2 (C7_validate_checks_record_shape okServices relayConfig noMatchEvent)).
    eexists. split; [reflexivity |]. by split.
Defined.

(** C7 as stated fails: a record without a mail object and with an empty
    recipient list passes Validate, and the Resolve stage runs after it. *)
Lemma C7_missing_mail_passes_validation :
  parseEvent (Context (initialData relayConfig (sesEvent None (Some [])))) =
    resolve (Context
      {| event := sesEvent None (Some []); config := relayConfig;
         email := None; recipients := Some [];
         originalRecipients := None; originalRecipient := None;
         emailData := None |}) /\
  handler okServices relayConfig (sesEvent None (Some [])) =
    [Log "info" "Finishing process. No new recipients found for original destinations: ";
     Callback None;
     Log "error" ("Step returned error: " +:+ errorMessage (readOfUndefined "log"));
     Callback (Some stepError)].
Proof. split; vm_compute; reflexivity. Qed.

(** C6.  In the third end-to-end scenario of the specification (one
    recipient, no rule for it, no catch-all) no message is sent and the
    completion callback fires without an error, but the run does not end
    there: the next step fails and the callback fires again with an error. *)
Theorem C6_no_recipients_run_ends_in_error :
  handler okServices twoRules noMatchEvent =
    [Log "info" "Finishing process. No new recipients found for original destinations: nomatch@z.com";
     Callback None;
     Log "error" "Step returned error: Cannot read properties of undefined (reading 'log')";
     Callback (Some (Error "Error: Step returned error."))].
Proof. vm_compute. reflexivity. Qed.

(** C10.  When no recipient resolves, [transformRecipients] calls the
    completion callback and resolves with what it returned; the chain goes
    on with that value, [fetchMessage] fails on it, and the callback is
    called a second time, with an error. *)
Theorem C10_early_exit_does_not_stop_the_chain (svc : Services) (cfg : Config)
    (ev : option Event) (r : SesRecord) (s : Ses) (rc : Receipt)
    (rs : list string) :
  validRecords ev = Some r ->
  ses r = Some s ->
  receipt s = Some rc ->
  receiptRecipients rc = Some rs ->
  newRecipients (forwardAll cfg rs) = [] ->
  let finishing :=
    Log "info" ("Finishing process. No new recipients found for " +:+
                "original destinations: " +:+ join ", " rs) in
  series [Fn parseEvent; Fn transformRecipients] (Context (initialData cfg ev)) =
    ([finishing; Callback None], Resolved Undefined) /\
  fetchMessage svc Undefined = reject (readOfUndefined "log") /\
  series (defaultSteps svc) (Context (initialData cfg ev)) =
    ([finishing; Callback None], Rejected (readOfUndefined "log")) /\
  handler svc cfg ev =
    [finishing; Callback None;
     Log "error" ("Step returned error: " +:+ errorMessage (readOfUndefined "log"));
     Callback (Some stepError)].
Proof.
  intros Hv Hs Hr Hrs Hnew finishing.
  assert (Hparse : parseEvent (Context (initialData cfg ev)) =
    resolve (Context
      {| event := ev; config := cfg; email := mail s; recipients := Some rs;
         originalRecipients := None; originalRecipient := None;
         emailData := None |})).
  { simpl. by rewrite Hv, Hs, Hr, Hrs. }
  assert (Htransform : andThen (parseEvent (Context (initialData cfg ev)))
            transformRecipients = ([finishing; Callback None], Resolved Undefined)).
  { rewrite Hparse, andThen_resolve. unfold transformRecipients.
    cbn [recipients config]. by rewrite Hnew. }
  unfold handler, handlerWith, defaultSteps, series. cbn [foldl].
  by rewrite !andThen_resolve, !Htransform.
Qed.

Lemma C10_early_exit_does_not_stop_the_chain_witness :
  handler okServices twoRules noMatchEvent =
    [Log "info" ("Finishing process. No new recipients found for " +:+
                 "original destinations: " +:+ join ", " ["nomatch@z.com"]);
     Callback None;
     Log "error" ("Step returned error: " +:+ errorMessage (readOfUndefined "log"));
     Callback (Some stepError)].
Proof.
  eapply (C10_early_exit_does_not_stop_the_chain okServices twoRules noMatchEvent).
  - reflexivity.
  - reflexivity.
  - reflexivity.
  - reflexivity.
  - vm_compute. reflexivity.
Defined.

(** *** A run that forwards *)

Lemma emit_andThen (tr : list effect) (p : promise) (f : value -> promise) :
  andThen (emit tr p) f = emit tr (andThen p f).
Proof.
  destruct p as [tr' [v|e]]; unfold emit, andThen; cbn [fst snd].
  - destruct (f v) as [tr'' out]. cbn [fst snd]. by rewrite List.app_assoc.
  - done.
Qed.

(** X2.  For an event of the right shape whose recipients resolve, with a
    store and a mailer that answer, the run copies and reads the stored message,
    rewrites it, sends it once, to the resolved destinations and with the
    recorded original recipient as the source, and calls back once,
    without an error. *)
Theorem forwards_once (svc : Services) (cfg : Config) (m : Mail)
    (rs : list string) (text : string) :
  let f := forwardAll cfg rs in
  let key := emailKeyPrefix cfg +:+ messageId m in
  let copySource := emailBucket cfg +:+ "/" +:+ key in
  let out := rewriteMessage cfg (chosen f) text in
  newRecipients f <> [] ->
  copyObject svc (emailBucket cfg) copySource key = true ->
  getObject svc (emailBucket cfg) key = Some text ->
  sendRawEmail svc (newRecipients f) (chosen f) out.2 = true ->
  handler svc cfg (sesEvent (Some m) (Some rs)) =
    [Log "info" ("Fetching email at s3://" +:+ copySource);
     CopyObject (emailBucket cfg) copySource key;
     GetObject (emailBucket cfg) key] ++
    out.1 ++
    [Log "info"
       ("sendMessage: Sending email via SES. Original recipients: " +:+
        join ", " rs +:+ ". Transformed recipients: " +:+
        join ", " (newRecipients f) +:+ ".");
     SendRawEmail (newRecipients f) (chosen f) out.2;
     Log "info" "sendRawEmail() successful.";
     Log "info" "Process finished successfully.";
     Callback None].
Proof.
  intros f key copySource out Hnew Hcopy Hget Hsend.
  unfold handler, handlerWith, defaultSteps, series. cbn [foldl].
  rewrite !andThen_resolve.
  change (parseEvent (Context (initialData cfg (sesEvent (Some m) (Some rs)))))
    with (resolve (Context
            {| event := sesEvent (Some m) (Some rs); config := cfg;
               email := Some m; recipients := Some rs;
               originalRecipients := None; originalRecipient := None;
               emailData := None |})).
  rewrite andThen_resolve. unfold transformRecipients. cbn [recipients config].
  fold f. destruct (newRecipients f) as [|d ds] eqn:Hf; [done |].
  rewrite andThen_resolve. unfold fetchMessage, withForwarding.
  cbn [email config]. fold key. fold copySource. rewrite Hcopy, Hget.
  unfold processMessage, sendMessage, withEmailData.
  unfold emit, resolve, andThen, orCatch.
  cbn [fst snd emailData config originalRecipient originalRecipients recipients].
  assert (Hchosen : match chosen f with Some r => Some r | None => None end = chosen f)
    by (by destruct (chosen f)).
  rewrite Hchosen. fold out. destruct out as [logs raw] eqn:Hout.
  cbn [fst snd emailData originalRecipients recipients originalRecipient] in *.
  rewrite Hsend. cbn [fst snd]. by rewrite !app_nil_r, <- !List.app_assoc.
Qed.

Lemma forwards_once_witness :
  handler okServices defaultConfig infoEvent =
    [Log "info" ("Fetching email at s3://" +:+ "partypunchband-email" +:+ "/" +:+ "m1");
     CopyObject "partypunchband-email" ("partypunchband-email" +:+ "/" +:+ "m1") "m1";
     GetObject "partypunchband-email" "m1"] ++
    (rewriteMessage defaultConfig
       (chosen (forwardAll defaultConfig ["info@partypunchband.com"]))
       ("Subject: hello" +:+ CRLF +:+ CRLF +:+ "Hi." +:+ CRLF)).1 ++
    [Log "info"
       ("sendMessage: Sending email via SES. Original recipients: " +:+
        join ", " ["info@partypunchband.com"] +:+ ". Transformed recipients: " +:+
        join ", " (newRecipients (forwardAll defaultConfig ["info@partypunchband.com"]))
        +:+ ".");
     SendRawEmail (newRecipients (forwardAll defaultConfig ["info@partypunchband.com"]))
       (chosen (forwardAll defaultConfig ["info@partypunchband.com"]))
       (rewriteMessage defaultConfig
          (chosen (forwardAll defaultConfig ["info@partypunchband.com"]))
          ("Subject: hello" +:+ CRLF +:+ CRLF +:+ "Hi." +:+ CRLF)).2;
     Log "info" "sendRawEmail() successful.";
     Log "info" "Process finished successfully.";
     Callback None].
Proof.
  apply (forwards_once okServices defaultConfig {| messageId := "m1" |}
           ["info@partypunchband.com"]
           ("Subject: hello" +:+ CRLF +:+ CRLF +:+ "Hi." +:+ CRLF)).
  - vm_compute. discriminate.
  - reflexivity.
  - reflexivity.
  - reflexivity.
Defined.

(** *** The completion callback *)

Lemma callbacks_app (a b : list effect) :
  callbacks (a ++ b) = callbacks a ++ callbacks b.
Proof. apply omap_app. Qed.

Lemma rewriteMessage_logs (cfg : Config) (orig : option string) (text : string) :
  callbacks (rewriteMessage cfg orig text).1 = [].
Proof.
  unfold rewriteMessage, rewriteHeader, addReplyTo.
  destruct (negb _); [|done]. by destruct (truthy _).
Qed.

Lemma early_exit_effects (svc : Services) (cfg : Config) (ev : option Event) :
  leavesEarly cfg ev ->
  callbacks (handler svc cfg ev) = [None; Some stepError].
Proof.
  intros (r & s & rc & rs & Hv & Hs & Hr & Hrs & Hnew).
  unfold handler, handlerWith, defaultSteps, series. cbn [foldl].
  rewrite !andThen_resolve. unfold parseEvent.
  cbn [event config initialData].
  rewrite Hv, Hs, Hr, andThen_resolve. unfold transformRecipients.
  cbn [recipients config]. rewrite Hrs. cbv zeta. by rewrite Hnew.
Qed.

(** X3.  The completion callback is called once on every run, without an error
    when the message was sent and with one when a step failed, except on
    the run that finds no recipient: there it is called twice, first
    without an error and then with one. *)
Theorem callback_once_or_twice (svc : Services) (cfg : Config) (ev : option Event) :
  (leavesEarly cfg ev ->
   callbacks (handler svc cfg ev) = [None; Some stepError]) /\
  (~ leavesEarly cfg ev ->
   callbacks (handler svc cfg ev) = [None] \/
   callbacks (handler svc cfg ev) = [Some stepError]).
Proof.
  split; [apply early_exit_effects |]. intros Hnot.
  unfold handler, handlerWith, defaultSteps, series. cbn [foldl].
  rewrite !andThen_resolve. unfold parseEvent.
  cbn [event config email recipients originalRecipients originalRecipient
       emailData initialData].
  destruct (validRecords ev) as [r|] eqn:Hv; [| by right].
  destruct (ses r) as [s|] eqn:Hs; [| by right].
  destruct (receipt s) as [rc|] eqn:Hr; [| by right].
  rewrite andThen_resolve. unfold transformRecipients. cbn [recipients config].
  destruct (receiptRecipients rc) as [rs|] eqn:Hrs; [| by right].
  destruct (newRecipients (forwardAll cfg rs)) as [|d ds] eqn:Hnew.
  { exfalso. apply Hnot. by exists r, s, rc, rs. }
  rewrite andThen_resolve. unfold fetchMessage, withForwarding. cbn [email config].
  destruct (mail s) as [m|]; [| by right].
  destruct (copyObject svc _ _ _); [| by right].
  destruct (getObject svc _ _) as [text|]; [| by right].
  unfold processMessage, sendMessage, withEmailData.
  unfold emit, resolve, andThen, orCatch.
  cbn [fst snd emailData config originalRecipient originalRecipients recipients].
  pose proof (rewriteMessage_logs cfg
    (match chosen (forwardAll cfg rs) with Some r0 => Some r0 | None => None end)
    text) as Hlogs.
  destruct (rewriteMessage cfg _ text) as [logs raw].
  cbn [fst snd emailData originalRecipients recipients originalRecipient] in *.
  destruct (sendRawEmail svc _ _ _); [left | right];
    cbn [fst snd]; rewrite !callbacks_app, Hlogs; reflexivity.
Qed.

Lemma callback_once_or_twice_witness :
  callbacks (handler okServices twoRules noMatchEvent) = [None; Some stepError] /\
  (callbacks (handler okServices defaultConfig infoEvent) = [None] \/
   callbacks (handler okServices defaultConfig infoEvent) = [Some stepError]).
Proof.
  split.
  - apply (proj1 (callback_once_or_twice okServices twoRules noMatchEvent)).
    exists {| eventSource := Some "aws:ses"; eventVersion := Some "1.0";
              ses := Some {| mail := Some {| messageId := "m1" |};
                             receipt := Some {| receiptRecipients :=
                                                  Some ["nomatch@z.com"] |} |} |},
           {| mail := Some {| messageId := "m1" |};
              receipt := Some {| receiptRecipients := Some ["nomatch@z.com"] |} |},
           {| receiptRecipients := Some ["nomatch@z.com"] |}, ["nomatch@z.com"].
    repeat split; vm_compute; reflexivity.
  - apply (proj2 (callback_once_or_twice okServices defaultConfig infoEvent)).
    intros (r & s & rc & rs & Hv & Hs & Hr & Hrs & Hnew).
    vm_compute in Hv. injection Hv as <-. vm_compute in Hs. injection Hs as <-.
    vm_compute in Hr. injection Hr as <-. vm_compute in Hrs. injection Hrs as <-.
    vm_compute in Hnew. discriminate.
Defined.

(** ** The header rewrite on the scenarios *)

(** C3.  The body does not always come through: the split keeps the text
    after the blank line only up to its last white-space character, so the
    body [Body text] of the fourth scenario leaves as [Body ]; and a header
    block with CRLF line ends and no blank line is given a body. *)
Theorem C3_body_cut_after_last_space :
  splitBody janeMessage = CRLF +:+ "Body " /\
  (rewriteMessage relayConfig (Some "info@x.com") janeMessage).2 =
    "From: Jane <relay@verified.com>" +:+ CRLF +:+ "Subject: [FWD] Hi" +:+ CRLF +:+
    "Reply-To: Jane <jane@x.com>" +:+ CRLF +:+ CRLF +:+ "Body " /\
  splitBody headersOnly = str LF +:+ "To: y" +:+ CRLF.
Proof. vm_compute. done. Qed.

(** C4.  A folded Message-ID header is removed only up to its first line
    end: the continuation line stays behind, in the header block and in the
    message that leaves, while the continuation of a folded DKIM-Signature
    header goes with it. *)
Theorem C4_folded_message_id_leaves_continuation :
  stripHeaders foldedIdHeader = " <id@x>" +:+ CRLF +:+ "Subject: s" +:+ CRLF /\
  stripHeaders foldedDkimHeader = "Subject: s" +:+ CRLF /\
  (rewriteMessage relayConfig (Some "info@x.com") foldedIdMessage).2 =
    "From: a@b.c <relay@verified.com>" +:+ CRLF +:+ " <id@x>" +:+ CRLF +:+
    "Subject: [FWD] s" +:+ CRLF +:+ "Reply-To: a@b.c" +:+ CRLF +:+ CRLF +:+
    "Body" +:+ CRLF.
Proof. vm_compute. done. Qed.

(** ** The matcher on the patterns of the program *)

Lemma take_consumed (a b : string) :
  take (String.length (a +:+ b) - String.length b) (a +:+ b) = a.
Proof.
  rewrite length_app.
  replace (String.length a + String.length b - String.length b)
    with (String.length a) by lia.
  apply take_app_length.
Qed.

Lemma toLowerCase_app (a b : string) :
  toLowerCase (a +:+ b) = toLowerCase a +:+ toLowerCase b.
Proof. induction a as [|c a IH]; simpl; [done | by rewrite IH]. Qed.

Lemma lowerChar_keeps (a : ascii) :
  Ascii.eqb (lowerChar a) "+" = Ascii.eqb a "+" /\
  Ascii.eqb (lowerChar a) "@" = Ascii.eqb a "@" /\
  isLineTerminator (lowerChar a) = isLineTerminator a.
Proof. by destruct a as [[] [] [] [] [] [] [] []]. Qed.

Lemma allChars_toLowerCase_plus (s : string) :
  allChars (isNot "+") (toLowerCase s) = allChars (isNot "+") s.
Proof.
  induction s as [|c s IH]; simpl; [done |]. unfold isNot at 1 3.
  by rewrite (proj1 (lowerChar_keeps c)), IH.
Qed.

Lemma allChars_toLowerCase_tag (s : string) :
  allChars tagChar (toLowerCase s) = allChars tagChar s.
Proof.
  induction s as [|c s IH]; simpl; [done |]. unfold tagChar at 1 3, isNot, plain.
  destruct (lowerChar_keeps c) as (_ & -> & ->). by rewrite IH.
Qed.

(** Unfolding the matcher one constructor at a time. *)

Section Unfold.
Context (fl : flags).

Lemma single_cons (p : ascii -> bool) (q : option ascii) (a : ascii) (t : string)
    (cs : gmap nat string) (k : cont) :
  single p (State q (String a t) cs) k =
  if p a then k (State (Some a) t cs) else None.
Proof. reflexivity. Qed.

Lemma single_empty (p : ascii -> bool) (q : option ascii) (cs : gmap nat string)
    (k : cont) :
  single p (State q EmptyString cs) k = None.
Proof. reflexivity. Qed.

Lemma matcher_Chr (c : ascii) (x : state) (k : cont) :
  matcher fl (Chr c) x k = single (fun a => charEq fl a c) x k.
Proof. reflexivity. Qed.

Lemma matcher_Dot (x : state) (k : cont) :
  matcher fl Dot x k = single plain x k.
Proof. reflexivity. Qed.

Lemma matcher_Space (x : state) (k : cont) :
  matcher fl Space x k = single isSpace x k.
Proof. reflexivity. Qed.

Lemma matcher_Cat (r1 r2 : regex) (x : state) (k : cont) :
  matcher fl (Cat r1 r2) x k = matcher fl r1 x (fun y => matcher fl r2 y k).
Proof. reflexivity. Qed.

Lemma matcher_Star (g : bool) (r : regex) (x : state) (k : cont) :
  matcher fl (Star g r) x k =
  repeat g (groupsOf r) (matcher fl r) (String.length (rest x)) x k.
Proof. reflexivity. Qed.

Lemma matcher_Plus (g : bool) (r : regex) (x : state) (k : cont) :
  matcher fl (Plus g r) x k =
  matcher fl r (clear (groupsOf r) x)
    (fun y => repeat g (groupsOf r) (matcher fl r) (String.length (rest y)) y k).
Proof. reflexivity. Qed.

Lemma matcher_Opt (r : regex) (x : state) (k : cont) :
  matcher fl (Opt true r) x k =
  match matcher fl r (clear (groupsOf r) x)
          (fun y => if advanced x y then k y else None) with
  | Some z => Some z
  | None => k x
  end.
Proof. reflexivity. Qed.

Lemma matcher_Group (n : nat) (r : regex) (x : state) (k : cont) :
  matcher fl (Group n r) x k =
  matcher fl r x
    (fun y => k (State (prev y) (rest y) (<[n := consumed x y]> (caps y)))).
Proof. reflexivity. Qed.

Lemma matcher_Bol (x : state) (k : cont) :
  matcher fl Bol x k = if atLineStart fl x then k x else None.
Proof. reflexivity. Qed.

End Unfold.

Lemma repeat_greedy (inner : list nat) (m : matcher_t) (n : nat) (x : state)
    (k : cont) :
  repeat true inner m (S n) x k =
  match m (clear inner x)
          (fun y => if advanced x y then repeat true inner m n y k else None) with
  | Some z => Some z
  | None => k x
  end.
Proof. reflexivity. Qed.

Lemma repeat_lazy (inner : list nat) (m : matcher_t) (n : nat) (x : state)
    (k : cont) :
  repeat false inner m (S n) x k =
  match k x with
  | Some z => Some z
  | None =>
      m (clear inner x)
        (fun y => if advanced x y then repeat false inner m n y k else None)
  end.
Proof. reflexivity. Qed.

Lemma clear_nil (x : state) : clear [] x = x.
Proof. by destruct x. Qed.

Lemma advanced_cons (p q : option ascii) (a : ascii) (t : string)
    (cs cs' : gmap nat string) :
  advanced (State p (String a t) cs) (State q t cs') = true.
Proof. unfold advanced. simpl. apply Nat.ltb_lt. lia. Qed.

(** ** The round bounds of the matcher are never reached *)

Section Rounds.
Context (fl : flags).

Lemma single_forward (p : ascii -> bool) : forward_only (single p).
Proof.
  intros [q [|a t] cs] k z; [done |]. rewrite single_cons.
  destruct (p a); [|done]. intros Hk. eexists. split; [exact Hk |].
  unfold len. simpl. lia.
Qed.

Lemma single_local (p : ascii -> bool) : local (single p).
Proof.
  intros [q [|a t] cs] k1 k2 Hk; [done |]. rewrite !single_cons.
  destruct (p a); [|done]. apply Hk. unfold len. simpl. lia.
Qed.

Lemma len_clear (inner : list nat) (x : state) : len (clear inner x) = len x.
Proof. reflexivity. Qed.

Lemma advanced_len (x y : state) : advanced x y = true <-> len y < len x.
Proof. unfold advanced, len. apply Nat.ltb_lt. Qed.

Lemma repeat_forward (g : bool) (inner : list nat) (m : matcher_t) (n : nat) :
  forward_only m -> forward_only (repeat g inner m n).
Proof.
  intros Hm. induction n as [|n IH]; intros x k z.
  - intros Hk. exists x. by split.
  - assert (Hiter : m (clear inner x)
        (fun y => if advanced x y then repeat g inner m n y k else None) = Some z ->
        exists y, k y = Some z /\ len y <= len x).
    { intros (y & Hy & Hle)%Hm. destruct (advanced x y) eqn:Ha; [|done].
      apply IH in Hy as (y' & Hy' & Hle'). exists y'. split; [done |].
      rewrite len_clear in Hle. lia. }
    destruct g.
    + rewrite repeat_greedy.
      destruct (m (clear inner x) _) as [z'|] eqn:Hz.
      * intros [= <-]. by apply Hiter.
      * intros Hk. exists x. by split.
    + rewrite repeat_lazy. destruct (k x) as [z'|] eqn:Hz.
      * intros [= <-]. exists x. by split.
      * apply Hiter.
Qed.

Lemma repeat_local (g : bool) (inner : list nat) (m : matcher_t) (n : nat) :
  local m -> local (repeat g inner m n).
Proof.
  intros Hm. induction n as [|n IH]; intros x k1 k2 Hk.
  - by apply Hk.
  - assert (Hiter : m (clear inner x)
        (fun y => if advanced x y then repeat g inner m n y k1 else None) =
      m (clear inner x)
        (fun y => if advanced x y then repeat g inner m n y k2 else None)).
    { apply Hm. intros y Hy. destruct (advanced x y); [|done].
      apply IH. intros y' Hy'. apply Hk. rewrite len_clear in Hy. lia. }
    destruct g.
    + rewrite !repeat_greedy, Hiter, (Hk x) by done. reflexivity.
    + rewrite !repeat_lazy, Hiter, (Hk x) by done. reflexivity.
Qed.

Lemma matcher_forward (r : regex) : forward_only (matcher fl r).
Proof.
  induction r as [|c| | |l| |r1 IH1 r2 IH2|g r IH|g r IH|g r IH|n r IH].
  - intros x k z Hk. exists x. by split.
  - apply single_forward.
  - apply single_forward.
  - apply single_forward.
  - apply single_forward.
  - intros x k z. rewrite matcher_Bol. destruct (atLineStart fl x); [|done].
    intros Hk. exists x. by split.
  - intros x k z. rewrite matcher_Cat.
    intros (y1 & Hy1 & Hle1)%IH1. apply IH2 in Hy1 as (y2 & Hy2 & Hle2).
    exists y2. split; [done | lia].
  - intros x k z. rewrite matcher_Star. by apply repeat_forward.
  - intros x k z. rewrite matcher_Plus.
    intros (y1 & Hy1 & Hle1)%IH.
    apply repeat_forward in Hy1 as (y2 & Hy2 & Hle2); [|done].
    exists y2. split; [done |]. rewrite len_clear in Hle1. lia.
  - intros x k z. cbn [matcher].
    assert (Hiter : matcher fl r (clear (groupsOf r) x)
        (fun y => if advanced x y then k y else None) = Some z ->
        exists y, k y = Some z /\ len y <= len x).
    { intros (y & Hy & Hle)%IH. destruct (advanced x y); [|done].
      exists y. split; [done |]. by rewrite len_clear in Hle. }
    destruct g.
    + destruct (matcher fl r (clear (groupsOf r) x) _) as [z'|] eqn:Hz.
      * intros [= <-]. by apply Hiter.
      * intros Hk. exists x. by split.
    + destruct (k x) as [z'|] eqn:Hz.
      * intros [= <-]. exists x. by split.
      * apply Hiter.
  - intros x k z. rewrite matcher_Group. intros (y & Hy & Hle)%IH.
    eexists. split; [exact Hy | done].
Qed.

Lemma matcher_local (r : regex) : local (matcher fl r).
Proof.
  induction r as [|c| | |l| |r1 IH1 r2 IH2|g r IH|g r IH|g r IH|n r IH].
  - intros x k1 k2 Hk. by apply Hk.
  - apply single_local.
  - apply single_local.
  - apply single_local.
  - apply single_local.
  - intros x k1 k2 Hk. rewrite !matcher_Bol. destruct (atLineStart fl x); [|done].
    by apply Hk.
  - intros x k1 k2 Hk. rewrite !matcher_Cat. apply IH1. intros y Hy.
    apply IH2. intros y' Hy'. apply Hk. lia.
  - intros x k1 k2 Hk. rewrite !matcher_Star. by apply repeat_local.
  - intros x k1 k2 Hk. rewrite !matcher_Plus. apply IH. intros y Hy.
    apply repeat_local; [done |]. intros y' Hy'. apply Hk.
    rewrite len_clear in Hy. lia.
  - intros x k1 k2 Hk. cbn [matcher].
    assert (Hiter : matcher fl r (clear (groupsOf r) x)
        (fun y => if advanced x y then k1 y else None) =
      matcher fl r (clear (groupsOf r) x)
        (fun y => if advanced x y then k2 y else None)).
    { apply IH. intros y Hy. destruct (advanced x y); [|done].
      apply Hk. by rewrite len_clear in Hy. }
    by rewrite Hiter, (Hk x).
  - intros x k1 k2 Hk. rewrite !matcher_Group. apply IH. intros y Hy.
    by apply Hk.
Qed.

(** An iteration that may not advance comes to nothing. *)
Lemma stuck_iteration (m : matcher_t) (x : state) (k : cont) :
  forward_only m -> len x = 0 ->
  m x (fun y => if advanced x y then k y else None) = None.
Proof.
  intros Hm Hx.
  destruct (m x _) as [z|] eqn:Hz; [|done].
  apply Hm in Hz as (y & Hy & Hle).
  destruct (advanced x y) eqn:Ha; [|done].
  apply advanced_len in Ha. lia.
Qed.

(** With the remaining length for a bound the quantifier loop never stops
    for want of rounds: a larger bound gives the same result. *)
Lemma repeat_rounds_enough (g : bool) (inner : list nat) (r : regex)
    (n1 n2 : nat) (x : state) (k : cont) :
  len x <= n1 -> len x <= n2 ->
  repeat g inner (matcher fl r) n1 x k = repeat g inner (matcher fl r) n2 x k.
Proof.
  revert n2 x. induction n1 as [|n1 IH]; intros n2 x H1 H2.
  - destruct n2 as [|n2]; [done |].
    pose proof (stuck_iteration (matcher fl r) (clear inner x)
                  (fun y => repeat g inner (matcher fl r) n2 y k)
                  (matcher_forward r)) as Hstuck.
    rewrite len_clear in Hstuck. specialize (Hstuck ltac:(lia)).
    change (advanced (clear inner x)) with (advanced x) in Hstuck.
    cbn beta in Hstuck.
    destruct g.
    + by rewrite repeat_greedy, Hstuck.
    + rewrite repeat_lazy, Hstuck. cbn [repeat]. by destruct (k x).
  - destruct n2 as [|n2].
    + pose proof (stuck_iteration (matcher fl r) (clear inner x)
                    (fun y => repeat g inner (matcher fl r) n1 y k)
                    (matcher_forward r)) as Hstuck.
      rewrite len_clear in Hstuck. specialize (Hstuck ltac:(lia)).
      change (advanced (clear inner x)) with (advanced x) in Hstuck.
    cbn beta in Hstuck.
      destruct g.
      * by rewrite repeat_greedy, Hstuck.
      * rewrite repeat_lazy, Hstuck. cbn [repeat]. by destruct (k x).
    + assert (Hiter : matcher fl r (clear inner x)
          (fun y => if advanced x y
                    then repeat g inner (matcher fl r) n1 y k else None) =
        matcher fl r (clear inner x)
          (fun y => if advanced x y
                    then repeat g inner (matcher fl r) n2 y k else None)).
      { apply matcher_local. intros y Hy. destruct (advanced x y) eqn:Ha; [|done].
        apply advanced_len in Ha. apply IH; lia. }
      destruct g.
      * by rewrite !repeat_greedy, Hiter.
      * by rewrite !repeat_lazy, Hiter.
Qed.

(** A match and what is left after it make up the input it was tried on. *)
Lemma matchAt_length (r : regex) (p : option ascii) (s : string) (h : hit) :
  matchAt fl r p s = Some h ->
  String.length (matched h) + String.length (after h) = String.length s.
Proof.
  unfold matchAt. destruct (matcher fl r _ Some) as [y|] eqn:Hy; [|done].
  intros [= <-]. cbn [matched after].
  apply matcher_forward in Hy as (y' & [= ->] & Hle). unfold len in Hle.
  cbn [rest] in Hle. unfold consumed. cbn [rest].
  assert (Htake : forall n t, n <= String.length t -> String.length (take n t) = n).
  { clear. induction n as [|n IH]; intros [|a t] Hn; simpl in *; try lia.
    rewrite IH; lia. }
  rewrite Htake; lia.
Qed.

Lemma search_length (r : regex) (p : option ascii) (s sk : string) (h : hit) :
  search fl r p s = Some (sk, h) ->
  String.length sk + String.length (matched h) + String.length (after h) =
  String.length s.
Proof.
  revert p sk. induction s as [|c s IH]; intros p sk; cbn [search].
  - destruct (matchAt fl r p EmptyString) as [h'|] eqn:Hm; [|done].
    intros [= <- <-]. apply matchAt_length in Hm. simpl in *. lia.
  - destruct (matchAt fl r p (String c s)) as [h'|] eqn:Hm.
    + intros [= <- <-]. apply matchAt_length in Hm. simpl in *. lia.
    + destruct (search fl r (Some c) s) as [[sk' h']|] eqn:Hs; [|done].
      intros [= <- <-]. apply IH in Hs. simpl. lia.
Qed.

(** The replace loop never stops for want of rounds either. *)
Lemma replaceLoop_rounds_enough (r : regex) (f : replacer) (n1 n2 : nat)
    (before s : string) :
  String.length s < n1 -> String.length s < n2 ->
  replaceLoop fl r f n1 before s = replaceLoop fl r f n2 before s.
Proof.
  revert n2 before s. induction n1 as [|n1 IH]; intros n2 before s H1 H2; [lia |].
  destruct n2 as [|n2]; [lia |]. cbn [replaceLoop].
  destruct (search fl r (lastChar before) s) as [[sk h]|] eqn:Hs; [|done].
  apply search_length in Hs. do 2 f_equal.
  destruct (matched h) as [|a m] eqn:Hm.
  - destruct (after h) as [|c t] eqn:Ha; [done |]. f_equal.
    simpl in Hs. apply IH; lia.
  - simpl in Hs. apply IH; lia.
Qed.

End Rounds.

(** The lazy [.*?@] from inside a tag: it stops at the first at-sign. *)
Lemma lazy_dots_to_at (tag dom : string) (p : option ascii) (cs : gmap nat string) :
  allChars tagChar tag = true ->
  matcher noFlags (Star false Dot) (State p (tag +:+ String "@" dom) cs)
    (fun y => matcher noFlags (Chr "@") y Some)
  = Some (State (Some "@"%char) dom cs).
Proof.
  rewrite matcher_Star. cbn [rest groupsOf].
  revert p. induction tag as [|c tag IH]; intros p Htag.
  - reflexivity.
  - simpl in Htag. apply andb_prop in Htag as [Hc Htag].
    unfold tagChar, isNot, plain in Hc. apply andb_prop in Hc as [Hat Hlt].
    change (String c tag +:+ String "@" dom) with (String c (tag +:+ String "@" dom)).
    cbn [String.length]. rewrite repeat_lazy, matcher_Chr, single_cons.
    unfold charEq. cbn [ignoreCase noFlags].
    apply negb_true_iff in Hat. rewrite Hat.
    rewrite clear_nil, matcher_Dot, single_cons. unfold plain. rewrite Hlt.
    rewrite advanced_cons. by apply IH.
Qed.

Lemma matchAt_plus (tag dom : string) (p : option ascii) :
  allChars tagChar tag = true ->
  matchAt noFlags plusSignRe p (String "+" (tag +:+ String "@" dom)) =
  Some (Hit (String "+" (tag +:+ "@")) dom ∅).
Proof.
  intros Htag. unfold matchAt, plusSignRe.
  rewrite matcher_Cat, matcher_Chr, single_cons.
  unfold charEq. cbn [ignoreCase noFlags]. rewrite Ascii.eqb_refl.
  rewrite matcher_Cat, lazy_dots_to_at by done. unfold consumed. cbn [rest caps].
  f_equal. f_equal.
  change (String "+" (tag +:+ String "@" dom))
    with (String "+" tag +:+ String "@" dom).
  replace (String "+" tag +:+ String "@" dom)
    with ((String "+" tag +:+ "@") +:+ dom) by (by rewrite app_assoc).
  apply take_consumed.
Qed.

Lemma matchAt_not_plus (p : option ascii) (c : ascii) (t : string) :
  isNot "+" c = true -> matchAt noFlags plusSignRe p (String c t) = None.
Proof.
  intros Hc. unfold matchAt, plusSignRe.
  rewrite matcher_Cat, matcher_Chr, single_cons.
  unfold charEq. cbn [ignoreCase noFlags].
  unfold isNot in Hc. apply negb_true_iff in Hc. by rewrite Hc.
Qed.

Lemma search_plus (user tag dom : string) (p : option ascii) :
  allChars (isNot "+") user = true ->
  allChars tagChar tag = true ->
  search noFlags plusSignRe p (user +:+ String "+" (tag +:+ String "@" dom)) =
  Some (user, Hit (String "+" (tag +:+ "@")) dom ∅).
Proof.
  intros Huser Htag. revert p. induction user as [|c user IH]; intros p.
  - change (EmptyString +:+ ?s) with s. unfold search.
    destruct tag; by rewrite matchAt_plus.
  - simpl in Huser. apply andb_prop in Huser as [Hc Huser].
    change (String c user +:+ ?s) with (String c (user +:+ s)).
    cbn [search]. rewrite matchAt_not_plus by done.
    by rewrite IH.
Qed.

Lemma origEmailKey_plus (cfg : Config) (user tag domain : string) :
  allowPlusSign cfg = true ->
  allChars (isNot "+") user = true ->
  allChars tagChar tag = true ->
  origEmailKey cfg (user +:+ "+" +:+ tag +:+ "@" +:+ domain) =
  toLowerCase (user +:+ "@" +:+ domain).
Proof.
  intros Hplus Huser Htag. unfold origEmailKey. rewrite Hplus.
  rewrite !toLowerCase_app.
  change (toLowerCase "+") with "+". change (toLowerCase "@") with "@".
  unfold RegExp.replace, exec. cbn [global noFlags].
  change ("+" +:+ ?s) with (String "+" s). change ("@" +:+ ?s) with (String "@" s).
  rewrite search_plus.
  - done.
  - by rewrite allChars_toLowerCase_plus.
  - by rewrite allChars_toLowerCase_tag.
Qed.

(** C5.  With plus-addressing enabled, an address [user+tag@domain] (the
    tag without an at-sign or line break, the user without a plus sign) is
    looked up as [user@domain], lower-cased: when that key has a rule, its
    destinations are added, and the original recipient recorded is the
    address as it came, with its tag and its capitals. *)
Theorem C5_plus_tag_stripped_for_lookup_only (cfg : Config) (acc : Forwarding)
    (user tag domain : string) (dests : list string) :
  allowPlusSign cfg = true ->
  allChars (isNot "+") user = true ->
  allChars tagChar tag = true ->
  forwardMapping cfg !! toLowerCase (user +:+ "@" +:+ domain) = Some dests ->
  let origEmail := user +:+ "+" +:+ tag +:+ "@" +:+ domain in
  origEmailKey cfg origEmail = toLowerCase (user +:+ "@" +:+ domain) /\
  forwardOne cfg acc origEmail =
    {| newRecipients := newRecipients acc ++ dests; chosen := Some origEmail |}.
Proof.
  intros Hplus Huser Htag Hrule origEmail.
  pose proof (origEmailKey_plus cfg user tag domain Hplus Huser Htag) as Hkey.
  split; [exact Hkey |].
  unfold forwardOne. fold origEmail in Hkey. by rewrite Hkey, Hrule.
Qed.

Lemma C5_plus_tag_stripped_for_lookup_only_witness :
  forwardOne defaultConfig blank "Info+x@partypunchband.com" =
    {| newRecipients :=
         ["chad.kouse@gmail.com"; "bryanshutts@icloud.com";
          "haley.voelkl@gmail.com"; "myk.miller67@gmail.com"];
       chosen := Some "Info+x@partypunchband.com" |}.
Proof.
  apply (C5_plus_tag_stripped_for_lookup_only defaultConfig blank
           "Info" "x" "partypunchband.com").
  - reflexivity.
  - reflexivity.
  - reflexivity.
  - vm_compute. reflexivity.
Defined.

(** ** Header patterns *)

Lemma lastChar_cons (c : ascii) (v : string) :
  exists a, lastChar (String c v) = Some a.
Proof.
  revert c. induction v as [|d v IH]; intros c; [by exists c |].
  destruct (IH d) as [a Ha]. exists a. by rewrite <- Ha.
Qed.

Lemma prevAfter_cons (q : option ascii) (c : ascii) (v : string) :
  prevAfter q (String c v) = prevAfter (Some c) v.
Proof.
  unfold prevAfter. destruct v as [|d v]; [done |].
  destruct (lastChar_cons d v) as [a Ha].
  change (lastChar (String c (String d v))) with (lastChar (String d v)).
  by rewrite Ha.
Qed.

(** A greedy run of a character class takes the whole run when what comes
    after it lets the match go on. *)
Lemma greedy_run (p : ascii -> bool) (v r : string) (fuel : nat)
    (q : option ascii) (cs : gmap nat string) (k : cont) (z : state) :
  allChars p v = true ->
  match r with EmptyString => true | String a _ => negb (p a) end = true ->
  String.length v <= fuel ->
  k (State (prevAfter q v) r cs) = Some z ->
  repeat true [] (single p) fuel (State q (v +:+ r) cs) k = Some z.
Proof.
  revert fuel q. induction v as [|c v IH]; intros fuel q Hv Hr Hfuel Hk.
  - change (EmptyString +:+ r) with r. destruct fuel as [|fuel]; [exact Hk |].
    rewrite repeat_greedy, clear_nil. destruct r as [|a r].
    + by rewrite single_empty.
    + rewrite single_cons. apply negb_true_iff in Hr. by rewrite Hr.
  - simpl in Hv. apply andb_prop in Hv as [Hc Hv].
    destruct fuel as [|fuel]; [simpl in Hfuel; lia |].
    change (String c v +:+ r) with (String c (v +:+ r)).
    rewrite repeat_greedy, clear_nil, single_cons, Hc, advanced_cons.
    rewrite (IH fuel (Some c)); try done.
    + simpl in Hfuel. lia.
    + by rewrite <- (prevAfter_cons q).
Qed.

Lemma atLineEnd_stops_plain (r : string) :
  atLineEnd r = true ->
  match r with EmptyString => true | String a _ => negb (plain a) end = true.
Proof. destruct r as [|a r]; [done |]. simpl. unfold plain. by intros ->. Qed.

(** [.*] to the end of the line. *)
Lemma star_dot_line (fl : flags) (v r : string) (q : option ascii)
    (cs : gmap nat string) (k : cont) (z : state) :
  allChars plain v = true ->
  atLineEnd r = true ->
  k (State (prevAfter q v) r cs) = Some z ->
  matcher fl (Star true Dot) (State q (v +:+ r) cs) k = Some z.
Proof.
  intros Hv Hr Hk. rewrite matcher_Star.
  apply (greedy_run plain); try done.
  - by apply atLineEnd_stops_plain.
  - cbn [rest]. rewrite length_app. lia.
Qed.

Section HeaderName.
Context (fl : flags) (Hi : ignoreCase fl = true).

Lemma charEq_sameLetter (a c : ascii) : charEq fl a c = sameLetter a c.
Proof. unfold charEq. by rewrite Hi. Qed.

(** The name of a header, read from the input. *)
Lemma matcher_lit_fails (name s : string) (q : option ascii)
    (cs : gmap nat string) (k : cont) :
  startsWith name s = false ->
  matcher fl (lit name) (State q s cs) k = None.
Proof.
  revert s q. induction name as [|c name IH]; intros s q Hs; [done |].
  assert (Hstep : single (fun a => charEq fl a c) (State q s cs)
            (fun y => matcher fl (lit name) y k) = None).
  { destruct s as [|a s]; [done |]. rewrite single_cons. cbn beta.
    rewrite charEq_sameLetter.
    simpl in Hs. destruct (sameLetter a c); [|done]. by apply IH. }
  destruct name as [|c' name]; [|exact Hstep].
  destruct s as [|a s]; [done |].
  change (lit (String c EmptyString)) with (Chr c).
  rewrite matcher_Chr, single_cons. cbn beta. rewrite charEq_sameLetter.
  simpl in Hs. rewrite andb_true_r in Hs. by rewrite Hs.
Qed.

Lemma matcher_lit_reads (name s : string) (q : option ascii)
    (cs : gmap nat string) :
  name <> EmptyString ->
  startsWith name s = true ->
  exists q', forall k,
    matcher fl (lit name) (State q s cs) k =
    k (State q' (drop (String.length name) s) cs).
Proof.
  revert s q. induction name as [|c name IH]; intros s q Hne Hs; [done |].
  destruct s as [|a s]; [done |]. simpl in Hs.
  apply andb_prop in Hs as [Ha Hs].
  destruct name as [|c' name].
  - exists (Some a). intros k.
    change (lit (String c EmptyString)) with (Chr c).
    rewrite matcher_Chr, single_cons. cbn beta. by rewrite charEq_sameLetter, Ha.
  - destruct (IH s (Some a)) as [q' Hq']; [done.. |].
    exists q'. intros k.
    change (lit (String c (String c' name)))
      with (Cat (Chr c) (lit (String c' name))).
    rewrite matcher_Cat, matcher_Chr, single_cons. cbn beta.
    rewrite charEq_sameLetter, Ha. apply Hq'.
Qed.

(** Off the start of a line a header pattern does not match. *)
Lemma matchAt_inside_line (name : string) (tail : regex) (a : ascii) (s : string) :
  plain a = true ->
  matchAt fl (headerRe name tail) (Some a) s = None.
Proof.
  intros Ha. unfold matchAt, headerRe. rewrite matcher_Cat, matcher_Bol.
  unfold atLineStart. cbn [prev]. unfold plain in Ha.
  apply negb_true_iff in Ha. by rewrite Ha, andb_false_r.
Qed.

(** Nor where the input does not begin with the name. *)
Lemma matchAt_other_name (name : string) (tail : regex) (p : option ascii)
    (s : string) :
  startsWith name s = false ->
  matchAt fl (headerRe name tail) p s = None.
Proof.
  intros Hs. unfold matchAt, headerRe. rewrite matcher_Cat, matcher_Bol.
  destruct (atLineStart fl _); [|done].
  by rewrite matcher_Cat, matcher_lit_fails.
Qed.

End HeaderName.

Lemma isLineTerminator_cases (t : ascii) :
  isLineTerminator t = true -> t = LF \/ t = CR.
Proof.
  unfold isLineTerminator. intros [H|H]%orb_prop; apply Ascii.eqb_eq in H; auto.
Qed.

Lemma startsWith_app_line (name c r : string) :
  allChars nameChar name = true ->
  atLineEnd r = true ->
  startsWith name (c +:+ r) = startsWith name c.
Proof.
  intros Hname Hr. revert c. induction name as [|n name IH]; intros c; [done |].
  simpl in Hname. apply andb_prop in Hname as [Hn Hname].
  destruct c as [|a c].
  - change (EmptyString +:+ r) with r. destruct r as [|t r]; [done |].
    simpl. simpl in Hr. unfold nameChar in Hn. apply andb_prop in Hn as [H1 H2].
    apply negb_true_iff in H1, H2.
    destruct (isLineTerminator_cases t Hr) as [-> | ->]; by rewrite ?H1, ?H2.
  - simpl. by rewrite IH.
Qed.

Lemma startsWith_drop_app (name c r : string) :
  startsWith name c = true ->
  drop (String.length name) (c +:+ r) = drop (String.length name) c +:+ r.
Proof.
  revert c. induction name as [|n name IH]; intros c Hc; [done |].
  destruct c as [|a c]; [done |]. simpl in Hc.
  apply andb_prop in Hc as [_ Hc]. simpl. by apply IH.
Qed.

Lemma allChars_drop (p : ascii -> bool) (n : nat) (s : string) :
  allChars p s = true -> allChars p (drop n s) = true.
Proof.
  revert s. induction n as [|n IH]; intros s Hs; [by destruct s |].
  destruct s as [|a s]; [done |]. simpl in Hs.
  apply andb_prop in Hs as [_ Hs]. simpl. by apply IH.
Qed.

Lemma allChars_dropBlank (p : ascii -> bool) (s : string) :
  allChars p s = true -> allChars p (dropBlank s) = true.
Proof.
  destruct s as [|a s]; [done |]. simpl. destruct (isBlank a); [|done].
  by intros [_ ?]%andb_prop.
Qed.

Lemma allChars_app (p : ascii -> bool) (a b : string) :
  allChars p (a +:+ b) = allChars p a && allChars p b.
Proof. induction a as [|c a IH]; simpl; [done |]. by rewrite IH, andb_assoc. Qed.

Lemma sameLetter_blank (a : ascii) :
  sameLetter a TAB || (sameLetter a SP || false) = isBlank a.
Proof. by destruct a as [[] [] [] [] [] [] [] []]. Qed.

Lemma lineEnd_not_blank (r : string) :
  atLineEnd r = true ->
  match r with EmptyString => true | String a _ => negb (isBlank a) end = true.
Proof.
  destruct r as [|t r]; [done |]. simpl. intros Ht.
  by destruct (isLineTerminator_cases t Ht) as [-> | ->].
Qed.

Section HeaderValue.
Context (fl : flags) (Hi : ignoreCase fl = true).

Lemma matcher_OneOf (l : list ascii) (x : state) (k : cont) :
  matcher fl (OneOf l) x k = single (fun a => existsb (charEq fl a) l) x k.
Proof. reflexivity. Qed.

(** The optional tab or space after the colon. *)
Lemma matcher_tabOrSpace (c r r1 : string) (q : option ascii)
    (cs cs1 : gmap nat string) (k : cont) :
  atLineEnd r = true ->
  (forall q', yields (k (State q' (dropBlank c +:+ r) cs)) r1 cs1) ->
  yields (matcher fl tabOrSpace (State q (c +:+ r) cs) k) r1 cs1.
Proof.
  intros Hr Hk. unfold tabOrSpace. rewrite matcher_Opt, clear_nil, matcher_OneOf.
  destruct c as [|a c].
  - change (EmptyString +:+ r) with r. specialize (Hk q).
    change (dropBlank EmptyString +:+ r) with r in Hk.
    pose proof (lineEnd_not_blank r Hr) as Hb.
    destruct r as [|t r]; [by rewrite single_empty |].
    rewrite single_cons. cbn beta. cbn [existsb].
    rewrite !(charEq_sameLetter fl Hi), sameLetter_blank.
    apply negb_true_iff in Hb. by rewrite Hb.
  - change (String a c +:+ r) with (String a (c +:+ r)).
    rewrite single_cons. cbn beta. cbn [existsb].
    rewrite !(charEq_sameLetter fl Hi), sameLetter_blank.
    simpl dropBlank in Hk. destruct (isBlank a).
    + rewrite advanced_cons. destruct (Hk (Some a)) as [q' ->]. by exists q'.
    + apply Hk.
Qed.

(** The rest of the line, captured. *)
Lemma matcher_rest_of_line (n : nat) (v r : string) (q : option ascii) :
  allChars plain v = true ->
  atLineEnd r = true ->
  yields (matcher fl (Group n (Star true Dot)) (State q (v +:+ r) ∅) Some)
    r (<[n := v]> ∅).
Proof.
  intros Hv Hr. rewrite matcher_Group.
  erewrite star_dot_line; [| done | done | reflexivity].
  unfold consumed. cbn [rest prev caps]. rewrite take_consumed. by eexists.
Qed.

End HeaderValue.

Lemma matchAt_yields (fl : flags) (re : regex) (p : option ascii)
    (c r : string) (cs : gmap nat string) :
  yields (matcher fl re (State p (c +:+ r) ∅) Some) r cs ->
  matchAt fl re p (c +:+ r) = Some (Hit c r cs).
Proof.
  intros [q Hq]. unfold matchAt. rewrite Hq. unfold consumed. cbn [rest caps].
  by rewrite take_consumed.
Qed.

Section HeaderLines.
Context (fl : flags) (Hi : ignoreCase fl = true) (Hm : multiline fl = true).
Context (name : string) (Hname : allChars nameChar name = true)
        (Hne : name <> EmptyString).

(** A header line at the start of a line: matched whole, its value captured. *)
Lemma matchAt_header_line (p : option ascii) (c r : string) :
  startsLine p = true ->
  allChars plain c = true ->
  atLineEnd r = true ->
  startsWith name c = true ->
  matchAt fl (headerRe name valueTail) p (c +:+ r) =
  Some (Hit c r (<[1 := headerValue name c]> ∅)).
Proof.
  intros Hp Hc Hr Hstart. apply matchAt_yields. unfold headerRe.
  rewrite matcher_Cat, matcher_Bol.
  assert (atLineStart fl (State p (c +:+ r) ∅) = true) as ->.
  { unfold atLineStart. cbn [prev]. destruct p; [by rewrite Hm |done]. }
  rewrite matcher_Cat.
  destruct (matcher_lit_reads fl Hi name (c +:+ r) p ∅ Hne) as [q' ->].
  { by rewrite startsWith_app_line. }
  rewrite startsWith_drop_app by done. unfold valueTail. rewrite matcher_Cat.
  apply (matcher_tabOrSpace fl Hi); [done |]. intros q''.
  apply matcher_rest_of_line; [|done].
  by apply allChars_dropBlank, allChars_drop.
Qed.

Context (tail : regex).

Lemma prepend_skip (a : ascii) (pfx : string) (o : option (string * hit)) :
  skip a <$> (prepend pfx <$> o) = prepend (String a pfx) <$> o.
Proof. by destruct o as [[sk h]|]. Qed.

(** The search runs through the rest of a line without a match. *)
Lemma search_inside_line (a t : ascii) (c s : string) :
  plain a = true ->
  allChars plain c = true ->
  search fl (headerRe name tail) (Some a) (c +:+ String t s) =
  prepend (c +:+ str t) <$> search fl (headerRe name tail) (Some t) s.
Proof.
  revert a. induction c as [|b c IH]; intros a Ha Hc.
  - change (EmptyString +:+ ?x) with x. cbn [search].
    rewrite matchAt_inside_line by done.
    by destruct (search fl (headerRe name tail) (Some t) s) as [[sk h]|].
  - simpl in Hc. apply andb_prop in Hc as [Hb Hc].
    change (String b c +:+ ?x) with (String b (c +:+ x)). cbn [search].
    rewrite matchAt_inside_line by done.
    rewrite IH by done. apply prepend_skip.
Qed.

(** And through a whole line that does not begin with the name. *)
Lemma search_other_line (p : option ascii) (t : ascii) (c s : string) :
  allChars plain c = true ->
  isLineTerminator t = true ->
  startsWith name c = false ->
  search fl (headerRe name tail) p (c +:+ String t s) =
  prepend (c +:+ str t) <$> search fl (headerRe name tail) (Some t) s.
Proof.
  intros Hc Ht Hstart.
  assert (Hno : matchAt fl (headerRe name tail) p (c +:+ String t s) = None).
  { apply (matchAt_other_name fl Hi). by rewrite startsWith_app_line. }
  destruct c as [|b c].
  - change (EmptyString +:+ ?x) with x in *. cbn [search]. rewrite Hno.
    by destruct (search fl (headerRe name tail) (Some t) s) as [[sk h]|].
  - simpl in Hc. apply andb_prop in Hc as [Hb Hc].
    change (String b c +:+ ?x) with (String b (c +:+ x)) in *. cbn [search].
    rewrite Hno, search_inside_line by done. apply prepend_skip.
Qed.

Lemma search_inside_last (a : ascii) (c : string) :
  plain a = true ->
  allChars plain c = true ->
  search fl (headerRe name tail) (Some a) c = None.
Proof.
  revert a. induction c as [|b c IH]; intros a Ha Hc.
  - cbn [search]. by rewrite matchAt_inside_line.
  - simpl in Hc. apply andb_prop in Hc as [Hb Hc].
    cbn [search]. rewrite matchAt_inside_line by done. by rewrite IH.
Qed.

Lemma search_other_last (p : option ascii) (c : string) :
  allChars plain c = true ->
  startsWith name c = false ->
  search fl (headerRe name tail) p c = None.
Proof.
  intros Hc Hstart.
  assert (Hno : matchAt fl (headerRe name tail) p c = None).
  { by apply (matchAt_other_name fl Hi). }
  destruct c as [|b c]; cbn [search]; rewrite Hno; [done |].
  simpl in Hc. apply andb_prop in Hc as [Hb Hc].
  by rewrite search_inside_last.
Qed.

End HeaderLines.

(** ** The replace loop *)

Section ReplaceLoop.
Context (fl : flags) (re : regex) (f : replacer).

Lemma replaceLoop_none (fuel : nat) (before s : string) :
  search fl re (lastChar before) s = None ->
  replaceLoop fl re f fuel before s = s.
Proof. intros H. destruct fuel; [done |]. simpl. by rewrite H. Qed.

Lemma replaceLoop_skip (n : nat) (before pfx s : string) :
  search fl re (lastChar before) (pfx +:+ s) =
    prepend pfx <$> search fl re (lastChar (before +:+ pfx)) s ->
  replaceLoop fl re f (S n) before (pfx +:+ s) =
  pfx +:+ replaceLoop fl re f (S n) (before +:+ pfx) s.
Proof.
  intros H. cbn [replaceLoop]. rewrite H.
  destruct (search fl re (lastChar (before +:+ pfx)) s) as [[sk h]|]; [|done].
  cbn [fmap option_fmap option_map prepend fst snd].
  by rewrite !app_assoc.
Qed.

Lemma replaceLoop_hit (n : nat) (before s : string) (a : ascii) (m aft : string)
    (cs : gmap nat string) :
  search fl re (lastChar before) s = Some (EmptyString, Hit (String a m) aft cs) ->
  replaceLoop fl re f (S n) before s =
  f before (Hit (String a m) aft cs) +:+
  replaceLoop fl re f n (before +:+ String a m) aft.
Proof.
  intros H. cbn [replaceLoop]. rewrite H. cbn [matched after].
  by rewrite app_empty_r.
Qed.

End ReplaceLoop.

(** ** The Subject prefix *)

Lemma lastChar_app_cons (b : string) (a : ascii) (c : string) :
  lastChar (b +:+ String a c) = lastChar (String a c).
Proof.
  induction b as [|x b IH]; [done |].
  change (String x b +:+ ?s) with (String x (b +:+ s)).
  destruct (b +:+ String a c) eqn:Hb; [by destruct b |].
  rewrite <- IH. reflexivity.
Qed.

Lemma lastChar_snoc (b : string) (t : ascii) : lastChar (b +:+ str t) = Some t.
Proof. unfold str. by rewrite lastChar_app_cons. Qed.

Lemma lastChar_plain (a : ascii) (c : string) :
  allChars plain (String a c) = true ->
  exists a', lastChar (String a c) = Some a' /\ plain a' = true.
Proof.
  revert a. induction c as [|b c IH]; intros a Hc.
  - exists a. simpl in Hc. by rewrite andb_true_r in Hc.
  - simpl in Hc. apply andb_prop in Hc as [_ Hc].
    destruct (IH b Hc) as (a' & Ha' & Hp). by exists a'.
Qed.

Lemma startsWith_nonempty (name : string) (a : ascii) (name' c : string) :
  name = String a name' -> startsWith name c = true ->
  exists b c', c = String b c'.
Proof. intros -> Hc. destruct c as [|b c']; [done | by eauto]. Qed.

Section SubjectLines.
Context (p : string).

Let re : regex := headerRe "subject:" valueTail.

Lemma subject_name : allChars nameChar "subject:" = true.
Proof. reflexivity. Qed.

Lemma subjectText_value (before c r : string) :
  subjectText p before (Hit c r (<[1 := headerValue "subject:" c]> ∅)) =
  "Subject: " +:+ p +:+ headerValue "subject:" c.
Proof. unfold subjectText, arg. cbn [captures]. by rewrite lookup_insert_eq. Qed.

(** After a matched line the scan is inside the line, and finds nothing
    before its terminator. *)
Lemma search_after_line (before : string) (a : ascii) (c : string) (t : ascii)
    (s : string) :
  allChars plain (String a c) = true ->
  search gimFlags re (lastChar (before +:+ String a c)) (str t +:+ s) =
  prepend (str t) <$>
    search gimFlags re (lastChar ((before +:+ String a c) +:+ str t)) s.
Proof.
  intros Hc. rewrite lastChar_app_cons, lastChar_snoc.
  destruct (lastChar_plain a c Hc) as (a' & -> & Ha').
  by apply (search_inside_line gimFlags "subject:" valueTail a' t EmptyString s).
Qed.

Lemma replaceLoop_subject_last (fuel : nat) (before last : string) :
  startsLine (lastChar before) = true ->
  allChars plain last = true ->
  String.length last < fuel ->
  replaceLoop gimFlags re (subjectText p) fuel before last = prefixLine p last.
Proof.
  intros Hstart Hlast Hfuel. unfold prefixLine.
  destruct (startsWith "subject:" last) eqn:Hs.
  - destruct fuel as [|n]; [lia |].
    destruct (startsWith_nonempty _ _ _ last eq_refl Hs) as (a & c & ->).
    pose proof (matchAt_header_line gimFlags eq_refl eq_refl "subject:"
                  subject_name ltac:(done) (lastChar before) (String a c)
                  EmptyString Hstart Hlast eq_refl Hs) as Hm.
    rewrite app_empty_r in Hm.
    rewrite (replaceLoop_hit _ _ _ n before _ a c EmptyString
               (<[1 := headerValue "subject:" (String a c)]> ∅)).
    + rewrite subjectText_value, replaceLoop_none, app_empty_r; [done |].
      rewrite lastChar_app_cons.
      destruct (lastChar_plain a c Hlast) as (a' & -> & Ha').
      by apply (search_inside_last gimFlags "subject:" valueTail a' EmptyString).
    + cbn [search]. fold re in Hm. by rewrite Hm.
  - apply replaceLoop_none.
    by apply (search_other_last gimFlags eq_refl "subject:").
Qed.

Lemma replaceLoop_subject_lines (l : list (string * ascii)) (last : string)
    (fuel : nat) (before : string) :
  forallb lineOk l = true ->
  allChars plain last = true ->
  startsLine (lastChar before) = true ->
  String.length (unlines l last) < fuel ->
  replaceLoop gimFlags re (subjectText p) fuel before (unlines l last) =
  unlines (map (prefixed p) l) (prefixLine p last).
Proof.
  revert fuel before. induction l as [|[c t] l IH]; intros fuel before Hl Hlast Hb Hfuel.
  - by apply replaceLoop_subject_last.
  - cbn [forallb] in Hl. apply andb_prop in Hl as [Hct Hl].
    unfold lineOk in Hct. cbn [fst snd] in Hct. apply andb_prop in Hct as [Hc Ht].
    cbn [unlines map prefixed fst snd] in *. fold (prefixed p).
    rewrite length_app in Hfuel. cbn [String.length] in Hfuel.
    destruct fuel as [|n]; [lia |].
    unfold prefixLine at 1. destruct (startsWith "subject:" c) eqn:Hs.
    + destruct (startsWith_nonempty _ _ _ c eq_refl Hs) as (a & c' & ->).
      pose proof (matchAt_header_line gimFlags eq_refl eq_refl "subject:"
                    subject_name ltac:(done) (lastChar before) (String a c')
                    (String t (unlines l last)) Hb Hc Ht Hs) as Hm.
      rewrite (replaceLoop_hit _ _ _ n before _ a c' (String t (unlines l last))
                 (<[1 := headerValue "subject:" (String a c')]> ∅)).
      2: { destruct (String a c' +:+ String t (unlines l last)) eqn:E;
             cbn [search]; fold re in Hm; by rewrite Hm. }
      rewrite subjectText_value.
      destruct n as [|n]; [cbn [String.length] in Hfuel; lia |].
      change (String t (unlines l last)) with (str t +:+ unlines l last).
      rewrite replaceLoop_skip by (by apply search_after_line).
      rewrite IH.
      * by rewrite !app_assoc.
      * done.
      * done.
      * by rewrite lastChar_snoc.
      * cbn [String.length] in Hfuel. lia.
    + replace (c +:+ String t (unlines l last))
        with ((c +:+ str t) +:+ unlines l last) by (by rewrite app_assoc).
      rewrite replaceLoop_skip.
      * rewrite IH; [by rewrite app_assoc | done | done | | lia].
        by rewrite <- app_assoc, lastChar_snoc.
      * rewrite <- (app_assoc before), lastChar_snoc, app_assoc.
        by apply (search_other_line gimFlags eq_refl "subject:" subject_name).
Qed.

End SubjectLines.

Lemma prefixSubject_lines (cfg : Config) (p : string) (l : list (string * ascii))
    (last : string) :
  subjectPrefix cfg = Some p ->
  p <> EmptyString ->
  forallb lineOk l = true ->
  allChars plain last = true ->
  prefixSubject cfg (unlines l last) =
  unlines (map (prefixed p) l) (prefixLine p last).
Proof.
  intros Hp Hne Hl Hlast. unfold prefixSubject. rewrite Hp.
  destruct p as [|a p]; [done |]. cbn [truthy toString].
  unfold RegExp.replace. cbn [global gimFlags].
  apply (replaceLoop_subject_lines (String a p)); [done | done | done | lia].
Qed.

Lemma prefixLine_plain (p c : string) :
  allChars plain p = true -> allChars plain c = true ->
  allChars plain (prefixLine p c) = true.
Proof.
  intros Hp Hc. unfold prefixLine. destruct (startsWith "subject:" c); [|done].
  rewrite !allChars_app, Hp. unfold headerValue.
  by rewrite allChars_dropBlank by (by apply allChars_drop).
Qed.

Lemma prefixLine_twice (p c : string) :
  prefixLine p (prefixLine p c) = prefixLine (p +:+ p) c.
Proof.
  unfold prefixLine at 2 3. destruct (startsWith "subject:" c) eqn:Hs.
  - unfold prefixLine. by rewrite app_assoc.
  - unfold prefixLine. by rewrite Hs.
Qed.

Lemma prefixed_ok (p : string) (l : list (string * ascii)) :
  allChars plain p = true ->
  forallb lineOk l = true -> forallb lineOk (map (prefixed p) l) = true.
Proof.
  intros Hp. induction l as [|[c t] l IH]; [done |]. cbn [forallb map].
  intros [Hct Hl]%andb_prop. rewrite IH by done. rewrite andb_true_r.
  unfold lineOk in *. cbn [prefixed fst snd] in *.
  apply andb_prop in Hct as [Hc ->]. by rewrite prefixLine_plain.
Qed.

Lemma prefixed_twice (p : string) (l : list (string * ascii)) :
  map (prefixed p) (map (prefixed p) l) = map (prefixed (p +:+ p)) l.
Proof.
  induction l as [|[c t] l IH]; [done |]. cbn [map]. rewrite IH.
  unfold prefixed. cbn [fst snd]. by rewrite prefixLine_twice.
Qed.

Lemma toLines_spec (s : string) :
  unlines (toLines s).1 (toLines s).2 = s /\
  forallb lineOk (toLines s).1 = true /\
  allChars plain (toLines s).2 = true.
Proof.
  induction s as [|a s (Hs & Hl & Hlast)]; [done |]. cbn [toLines].
  destruct (toLines s) as [l last]. cbn [fst snd] in *.
  destruct (isLineTerminator a) eqn:Ha.
  - cbn [fst snd unlines forallb]. rewrite Hs, Hl. unfold lineOk. cbn [fst snd].
    by rewrite Ha.
  - destruct l as [|[c t] l]; cbn [fst snd unlines forallb] in *.
    + subst last. simpl. unfold plain at 1. by rewrite Ha, Hlast.
    + subst s. apply andb_prop in Hl as [Hct Hl]. rewrite Hl.
      unfold lineOk in *. cbn [fst snd] in *. apply andb_prop in Hct as [Hc Ht].
      simpl. unfold plain at 1. by rewrite Ha, Hc, Ht.
Qed.

(** C9.  Without a subject prefix, or with the empty one, the header block
    stays as it is.  With a non-empty prefix [p], in every header block every
    line that begins with [Subject:] (in any case) becomes [Subject: ]
    followed by [p] and the value of the line, and no other line changes;
    doing it twice, for a prefix without a line break, puts the prefix twice
    before the value.  The whole rewrite of the fourth scenario, done twice,
    gives the subject [[FWD] [FWD] Hi]. *)
Theorem C9_subject_prefix_not_idempotent (cfg : Config) :
  (truthy (subjectPrefix cfg) = false ->
   forall header, prefixSubject cfg header = header) /\
  (forall p header,
     subjectPrefix cfg = Some p ->
     p <> EmptyString ->
     prefixSubject cfg header = mapLines (prefixLine p) header /\
     (allChars plain p = true ->
      prefixSubject cfg (prefixSubject cfg header) =
        mapLines (prefixLine (p +:+ p)) header)) /\
  (rewriteMessage relayConfig (Some "info@x.com")
     (rewriteMessage relayConfig (Some "info@x.com") janeMessageLine).2).2 =
    "From: Jane <relay@verified.com>" +:+ CRLF +:+
    "Subject: [FWD] [FWD] Hi" +:+ CRLF +:+
    "Reply-To: Jane <jane@x.com>" +:+ CRLF +:+ CRLF +:+ "Body text" +:+ CRLF.
Proof.
  split; [| split].
  - intros Hp header. unfold prefixSubject. by rewrite Hp.
  - intros p header Hp Hne.
    destruct (toLines_spec header) as (Hs & Hl & Hlast).
    assert (Hone : prefixSubject cfg header = mapLines (prefixLine p) header).
    { rewrite <- Hs at 1. by apply prefixSubject_lines. }
    split; [exact Hone |]. intros Hplain.
    rewrite Hone. unfold mapLines. fold (prefixed p). fold (prefixed (p +:+ p)).
    rewrite (prefixSubject_lines cfg p); try done.
    + by rewrite prefixed_twice, prefixLine_twice.
    + by apply prefixed_ok.
    + by apply prefixLine_plain.
  - vm_compute. reflexivity.
Qed.

Lemma C9_subject_prefix_not_idempotent_witness :
  prefixSubject relayConfig (prefixSubject relayConfig ("Subject: Hi" +:+ CRLF)) =
  mapLines (prefixLine ("[FWD] " +:+ "[FWD] ")) ("Subject: Hi" +:+ CRLF).
Proof.
  apply (proj1 (proj2 (C9_subject_prefix_not_idempotent relayConfig))
           "[FWD] " ("Subject: Hi" +:+ CRLF)).
  - reflexivity.
  - discriminate.
  - reflexivity.
Defined.

Example subject_prefixed_twice :
  mapLines (prefixLine ("[FWD] " +:+ "[FWD] ")) ("Subject: Hi" +:+ CRLF) =
  "Subject: [FWD] [FWD] Hi" +:+ CRLF.
Proof. vm_compute. reflexivity. Qed.

(** ** Reply-To *)

Section ReplyToTest.
Context (fl : flags) (Hi : ignoreCase fl = true) (Hm : multiline fl = true).
Context (name : string) (Hne : name <> EmptyString).

Lemma matchAt_name_only (p : option ascii) (s : string) :
  match matchAt fl (headerRe name tabOrSpace) p s with
  | Some _ => true
  | None => false
  end = startsLine p && startsWith name s.
Proof.
  destruct (startsWith name s) eqn:Hs.
  2: { by rewrite (matchAt_other_name fl Hi), andb_false_r. }
  rewrite andb_true_r. destruct p as [a|]; cbn [startsLine].
  - destruct (isLineTerminator a) eqn:Ha.
    2: { rewrite (matchAt_inside_line fl); [done |]. unfold plain. by rewrite Ha. }
    unfold matchAt, headerRe. rewrite matcher_Cat, matcher_Bol.
    unfold atLineStart. cbn [prev]. rewrite Hm, Ha. cbn [andb].
    rewrite matcher_Cat.
    destruct (matcher_lit_reads fl Hi name s (Some a) ∅ Hne Hs) as [q' ->].
    unfold tabOrSpace. rewrite matcher_Opt.
    by destruct (matcher fl (OneOf _) _ _).
  - unfold matchAt, headerRe. rewrite matcher_Cat, matcher_Bol.
    unfold atLineStart. cbn [prev]. rewrite matcher_Cat.
    destruct (matcher_lit_reads fl Hi name s None ∅ Hne Hs) as [q' ->].
    unfold tabOrSpace. rewrite matcher_Opt.
    by destruct (matcher fl (OneOf _) _ _).
Qed.

Lemma search_name_only (p : option ascii) (s : string) :
  match search fl (headerRe name tabOrSpace) p s with
  | Some _ => true
  | None => false
  end = hasHeaderFrom name (startsLine p) s.
Proof.
  revert p. induction s as [|c s IH]; intros p.
  - cbn [search hasHeaderFrom]. rewrite <- matchAt_name_only, orb_false_r.
    by destruct (matchAt fl _ p EmptyString).
  - cbn [search hasHeaderFrom]. rewrite <- matchAt_name_only.
    destruct (matchAt fl _ p (String c s)); [done |]. cbn [orb].
    specialize (IH (Some c)). cbn [startsLine] in IH. rewrite <- IH.
    by destruct (search fl _ (Some c) s).
Qed.

End ReplyToTest.

Lemma test_replyTo (header : string) :
  test imFlags replyToRe header = hasHeader "reply-to:" header.
Proof.
  unfold test, exec, hasHeader.
  by apply (search_name_only imFlags eq_refl eq_refl "reply-to:").
Qed.

Lemma isEol_cases (e : string) : isEol e = true -> e = str LF \/ e = CRLF.
Proof.
  unfold isEol. intros [H|H]%orb_prop; apply String.eqb_eq in H; auto.
Qed.

Lemma atLineEnd_eol (e s : string) : isEol e = true -> atLineEnd (e +:+ s) = true.
Proof. intros [-> | ->]%isEol_cases; reflexivity. Qed.

Lemma atLineEnd_folds (folds : list Fold) (e post : string) :
  forallb foldOk folds = true ->
  isEol e = true ->
  atLineEnd (foldsString folds +:+ e +:+ post) = true.
Proof.
  intros Hf He. destruct folds as [|f folds].
  { change (foldsString [] +:+ ?x) with x. by apply atLineEnd_eol. }
  cbn [forallb] in Hf. apply andb_prop in Hf as [Hf _]. unfold foldOk in Hf.
  apply andb_prop in Hf as [[Hf _]%andb_prop _].
  cbn [foldsString]. unfold foldString. rewrite !app_assoc.
  by apply atLineEnd_eol.
Qed.

Section FromValue.
Context (fl : flags) (Hi : ignoreCase fl = true).

Lemma star_dot_yields (v r r1 : string) (q : option ascii)
    (cs cs1 : gmap nat string) (k : cont) :
  allChars plain v = true ->
  atLineEnd r = true ->
  (forall q', yields (k (State q' r cs)) r1 cs1) ->
  yields (matcher fl (Star true Dot) (State q (v +:+ r) cs) k) r1 cs1.
Proof.
  intros Hv Hr Hk. destruct (Hk (prevAfter q v)) as [q' Hq'].
  exists q'. by apply star_dot_line.
Qed.

(** A line end, [\r?\n], read from the input. *)
Lemma eol_reads (e s r1 : string) (q : option ascii) (cs cs1 : gmap nat string)
    (k : cont) :
  isEol e = true ->
  (forall q', yields (k (State q' s cs)) r1 cs1) ->
  yields (matcher fl optCR (State q (e +:+ s) cs)
            (fun y => matcher fl (Chr LF) y k)) r1 cs1.
Proof.
  intros He Hk. unfold optCR. rewrite matcher_Opt, clear_nil, matcher_Chr.
  destruct (Hk (Some LF)) as [q' Hq'].
  destruct (isEol_cases e He) as [-> | ->].
  - change (str LF +:+ s) with (String LF s).
    rewrite single_cons. cbn beta. rewrite (charEq_sameLetter fl Hi).
    change (sameLetter LF CR) with false. cbn iota.
    rewrite matcher_Chr, single_cons. cbn beta. rewrite (charEq_sameLetter fl Hi).
    change (sameLetter LF LF) with true. cbn iota. by exists q'.
  - change (CRLF +:+ s) with (String CR (String LF s)).
    rewrite single_cons. cbn beta. rewrite (charEq_sameLetter fl Hi).
    change (sameLetter CR CR) with true. cbn iota.
    rewrite advanced_cons, matcher_Chr, single_cons. cbn beta.
    rewrite (charEq_sameLetter fl Hi).
    change (sameLetter LF LF) with true. cbn iota. rewrite Hq'. by exists q'.
Qed.

Lemma eol_fails (e s : string) (q : option ascii) (cs : gmap nat string) (k : cont) :
  isEol e = true ->
  (forall q', k (State q' s cs) = None) ->
  matcher fl optCR (State q (e +:+ s) cs) (fun y => matcher fl (Chr LF) y k) = None.
Proof.
  intros He Hk. unfold optCR. rewrite matcher_Opt, clear_nil, matcher_Chr.
  destruct (isEol_cases e He) as [-> | ->].
  - change (str LF +:+ s) with (String LF s).
    rewrite single_cons. cbn beta. rewrite (charEq_sameLetter fl Hi).
    change (sameLetter LF CR) with false. cbn iota.
    rewrite matcher_Chr, single_cons. cbn beta. rewrite (charEq_sameLetter fl Hi).
    change (sameLetter LF LF) with true. cbn iota. apply Hk.
  - change (CRLF +:+ s) with (String CR (String LF s)).
    rewrite single_cons. cbn beta. rewrite (charEq_sameLetter fl Hi).
    change (sameLetter CR CR) with true. cbn iota.
    rewrite advanced_cons, matcher_Chr, single_cons. cbn beta.
    rewrite (charEq_sameLetter fl Hi).
    change (sameLetter LF LF) with true. cbn iota. rewrite Hk.
    rewrite matcher_Chr, single_cons. cbn beta. rewrite (charEq_sameLetter fl Hi).
    by change (sameLetter CR LF) with false.
Qed.

(** The indentation of a continuation line, [\s+]. *)
Lemma indent_reads (w : string) (a : ascii) (v s r1 : string) (q : option ascii)
    (cs cs1 : gmap nat string) (k : cont) :
  w <> EmptyString ->
  allChars indentChar w = true ->
  isSpace a = false ->
  (forall q', yields (k (State q' (String a v +:+ s) cs)) r1 cs1) ->
  yields (matcher fl (Plus true Space) (State q (w +:+ String a v +:+ s) cs) k)
    r1 cs1.
Proof.
  intros Hne Hw Ha Hk. destruct w as [|b w]; [done |].
  simpl in Hw. apply andb_prop in Hw as [Hb Hw].
  unfold indentChar in Hb. apply andb_prop in Hb as [Hb _].
  rewrite matcher_Plus, clear_nil, matcher_Space.
  change (String b w +:+ ?x) with (String b (w +:+ x)).
  rewrite single_cons, Hb. cbn [rest].
  destruct (Hk (prevAfter (Some b) w)) as [q' Hq'].
  exists q'. apply (greedy_run isSpace).
  - clear -Hw. induction w as [|c w IH]; [done |]. simpl in *.
    apply andb_prop in Hw as [Hc Hw]. unfold indentChar in Hc.
    apply andb_prop in Hc as [-> _]. by rewrite IH.
  - change (negb (isSpace a) = true). by rewrite Ha.
  - rewrite length_app. lia.
  - exact Hq'.
Qed.

Lemma indent_fails (post : string) (q : option ascii) (cs : gmap nat string)
    (k : cont) :
  endsFolding post = true ->
  matcher fl (Plus true Space) (State q post cs) k = None.
Proof.
  intros Hpost. rewrite matcher_Plus, clear_nil, matcher_Space.
  destruct post as [|a post]; [done |]. rewrite single_cons.
  simpl in Hpost. apply negb_true_iff in Hpost. by rewrite Hpost.
Qed.

(** One folded continuation line. *)
Lemma fold_reads (f : Fold) (s r1 : string) (q : option ascii)
    (cs cs1 : gmap nat string) (k : cont) :
  foldOk f = true ->
  atLineEnd s = true ->
  (forall q', yields (k (State q' s cs)) r1 cs1) ->
  yields (matcher fl foldBody (State q (foldString f +:+ s) cs) k) r1 cs1.
Proof.
  intros Hf Hs Hk. unfold foldOk in Hf.
  apply andb_prop in Hf as [[He Hw]%andb_prop Hv].
  unfold foldString. destruct f as [e w v]. cbn [foldEol foldIndent foldText] in *.
  destruct v as [|a v]; [done |]. apply andb_prop in Hv as [Ha Hv].
  apply negb_true_iff in Ha.
  rewrite !app_assoc. unfold foldBody. rewrite matcher_Cat.
  change (fun y => matcher fl (Cat (Chr LF) ?t) y k)
    with (fun y => matcher fl (Chr LF) y (fun y' => matcher fl t y' k)).
  apply eol_reads; [done |]. intros q'. rewrite matcher_Cat.
  apply indent_reads; [by destruct w | by destruct w | done |].
  intros q''. by apply star_dot_yields.
Qed.

(** All the folded continuation lines of a header, up to the line end that
    closes it. *)
Lemma folds_read (folds : list Fold) (e post r1 : string) (fuel : nat)
    (q : option ascii) (cs cs1 : gmap nat string) (k : cont) :
  forallb foldOk folds = true ->
  isEol e = true ->
  endsFolding post = true ->
  String.length (foldsString folds +:+ e +:+ post) <= fuel ->
  (forall q', yields (k (State q' (e +:+ post) cs)) r1 cs1) ->
  yields (repeat true [] (matcher fl foldBody) fuel
            (State q (foldsString folds +:+ e +:+ post) cs) k) r1 cs1.
Proof.
  intros Hf He Hpost Hfuel Hk. revert fuel q Hfuel.
  induction folds as [|f folds IH]; intros fuel q Hfuel.
  - change (foldsString [] +:+ ?x) with x in *.
    destruct fuel as [|n]; [apply Hk |].
    rewrite repeat_greedy, clear_nil. unfold foldBody at 1. rewrite matcher_Cat.
    change (fun y => matcher fl (Cat (Chr LF) ?t) y ?kk)
      with (fun y => matcher fl (Chr LF) y (fun y' => matcher fl t y' kk)).
    rewrite eol_fails; [apply Hk | done |].
    intros q'. rewrite matcher_Cat. by apply indent_fails.
  - cbn [forallb] in Hf. apply andb_prop in Hf as [Hfold Hf].
    cbn [foldsString] in *. rewrite app_assoc in *.
    assert (Hlen : 0 < String.length (foldString f)).
    { unfold foldOk in Hfold. apply andb_prop in Hfold as [[He' _]%andb_prop _].
      unfold foldString. rewrite length_app.
      destruct (isEol_cases _ He') as [-> | ->]; simpl; lia. }
    rewrite length_app in Hfuel.
    destruct fuel as [|n]; [lia |].
    rewrite repeat_greedy, clear_nil.
    set (s := foldsString folds +:+ e +:+ post) in *.
    assert (Hiter : yields (matcher fl foldBody (State q (foldString f +:+ s) cs)
      (fun y => if advanced (State q (foldString f +:+ s) cs) y
                then repeat true [] (matcher fl foldBody) n y k else None)) r1 cs1).
    { apply fold_reads; [done | by apply atLineEnd_folds |].
      intros q'. unfold advanced. cbn [rest]. rewrite length_app.
      destruct (Nat.ltb_spec (String.length s)
                  (String.length (foldString f) + String.length s)); [|lia].
      apply (IH Hf). lia. }
    destruct Hiter as [q' ->]. by exists q'.
Qed.

(** The value of a From header with its continuation lines and its line
    end, captured. *)
Lemma fromBody_reads (v0 : string) (folds : list Fold) (e post : string)
    (q : option ascii) :
  allChars plain v0 = true ->
  forallb foldOk folds = true ->
  isEol e = true ->
  endsFolding post = true ->
  yields (matcher fl (Group 1 fromBody)
            (State q (v0 +:+ foldsString folds +:+ e +:+ post) ∅) Some)
    post (<[1 := v0 +:+ foldsString folds +:+ e]> ∅).
Proof.
  intros Hv Hf He Hpost. rewrite matcher_Group. unfold fromBody.
  rewrite matcher_Cat.
  apply star_dot_yields; [done | by apply atLineEnd_folds |].
  intros q'. rewrite matcher_Cat, matcher_Star.
  apply folds_read; [done | done | done | cbn [rest]; lia |].
  intros q''. rewrite matcher_Cat. apply eol_reads; [done |].
  intros q3. exists q3. unfold consumed. cbn [prev rest caps].
  do 3 f_equal.
  replace (v0 +:+ foldsString folds +:+ e +:+ post)
    with ((v0 +:+ foldsString folds +:+ e) +:+ post) by (by rewrite !app_assoc).
  apply take_consumed.
Qed.

End FromValue.

Lemma unlines_app (pre : list (string * ascii)) (s : string) :
  unlines pre s = unlines pre EmptyString +:+ s.
Proof.
  induction pre as [|[c t] pre IH]; [done |]. cbn [unlines].
  by rewrite IH, app_assoc.
Qed.

Lemma prepend_prepend (a b : string) (o : option (string * hit)) :
  prepend a <$> (prepend b <$> o) = prepend (a +:+ b) <$> o.
Proof.
  destruct o as [[sk h]|]; [|done]. cbn. unfold prepend. cbn [fst snd].
  by rewrite app_assoc.
Qed.

Lemma prepend_empty (o : option (string * hit)) : prepend EmptyString <$> o = o.
Proof. by destruct o as [[sk h]|]. Qed.

(** The search runs through lines that do not begin with the name. *)
Lemma search_skip_lines (fl : flags) (name : string) (tail : regex)
    (pre : list (string * ascii)) (p : option ascii) (s : string) :
  ignoreCase fl = true ->
  allChars nameChar name = true ->
  forallb lineOk pre = true ->
  noLine name pre = true ->
  startsLine p = true ->
  exists p', startsLine p' = true /\
    search fl (headerRe name tail) p (unlines pre s) =
    prepend (unlines pre EmptyString) <$> search fl (headerRe name tail) p' s.
Proof.
  intros Hi Hname. revert p. induction pre as [|[c t] pre IH]; intros p Hpre Hno Hp.
  - exists p. split; [done |]. by rewrite prepend_empty.
  - cbn [forallb noLine] in Hpre, Hno.
    apply andb_prop in Hpre as [Hct Hpre]. apply andb_prop in Hno as [Hc' Hno].
    unfold lineOk in Hct. cbn [fst snd] in *.
    apply andb_prop in Hct as [Hc Ht]. apply negb_true_iff in Hc'.
    destruct (IH (Some t) Hpre Hno Ht) as (p' & Hp' & Hs).
    exists p'. split; [done |]. cbn [unlines].
    rewrite (search_other_line fl Hi name Hname tail) by done.
    rewrite Hs, prepend_prepend. by rewrite app_assoc.
Qed.

Lemma matchAt_from_line (p : option ascii) (c0 : string) (folds : list Fold)
    (e post : string) :
  startsLine p = true ->
  allChars plain c0 = true ->
  startsWith "from:" c0 = true ->
  forallb foldOk folds = true ->
  isEol e = true ->
  endsFolding post = true ->
  matchAt imFlags fromLineRe p (c0 +:+ foldsString folds +:+ e +:+ post) =
  Some (Hit (c0 +:+ foldsString folds +:+ e) post
            (<[1 := headerValue "from:" c0 +:+ foldsString folds +:+ e]> ∅)).
Proof.
  intros Hp Hc Hstart Hf He Hpost.
  replace (c0 +:+ foldsString folds +:+ e +:+ post)
    with ((c0 +:+ foldsString folds +:+ e) +:+ post) by (by rewrite !app_assoc).
  apply matchAt_yields. rewrite !app_assoc.
  change fromLineRe
    with (headerRe "from:" (Cat tabOrSpace (Group 1 fromBody))).
  unfold headerRe. rewrite matcher_Cat, matcher_Bol.
  assert (atLineStart imFlags
            (State p (c0 +:+ foldsString folds +:+ e +:+ post) ∅) = true) as ->.
  { unfold atLineStart. cbn [prev]. by destruct p. }
  rewrite matcher_Cat.
  pose proof (atLineEnd_folds folds e post Hf He) as Hend.
  destruct (matcher_lit_reads imFlags eq_refl "from:"
              (c0 +:+ foldsString folds +:+ e +:+ post) p ∅) as [q' ->]; [done | |].
  { by rewrite startsWith_app_line. }
  rewrite startsWith_drop_app by done. rewrite matcher_Cat.
  apply (matcher_tabOrSpace imFlags eq_refl); [done |]. intros q''.
  apply fromBody_reads; try done.
  by apply allChars_dropBlank, allChars_drop.
Qed.

Lemma fromValue_folded (pre : list (string * ascii)) (c0 : string)
    (folds : list Fold) (e post : string) :
  forallb lineOk pre = true ->
  noLine "from:" pre = true ->
  allChars plain c0 = true ->
  startsWith "from:" c0 = true ->
  forallb foldOk folds = true ->
  isEol e = true ->
  endsFolding post = true ->
  fromValue (unlines pre (c0 +:+ foldsString folds +:+ e +:+ post)) =
  headerValue "from:" c0 +:+ foldsString folds +:+ e.
Proof.
  intros Hpre Hno Hc Hstart Hf He Hpost. unfold fromValue, exec.
  change fromLineRe
    with (headerRe "from:" (Cat tabOrSpace (Group 1 fromBody))).
  destruct (search_skip_lines imFlags "from:" (Cat tabOrSpace (Group 1 fromBody))
              pre None (c0 +:+ foldsString folds +:+ e +:+ post))
    as (p' & Hp' & ->); try done.
  pose proof (matchAt_from_line p' c0 folds e post Hp' Hc Hstart Hf He Hpost) as Hm.
  change fromLineRe
    with (headerRe "from:" (Cat tabOrSpace (Group 1 fromBody))) in Hm.
  assert (Hs : search imFlags
                 (headerRe "from:" (Cat tabOrSpace (Group 1 fromBody))) p'
                 (c0 +:+ foldsString folds +:+ e +:+ post) =
               Some (EmptyString,
                     Hit (c0 +:+ foldsString folds +:+ e) post
                       (<[1 := headerValue "from:" c0 +:+ foldsString folds +:+ e]> ∅))).
  { destruct (c0 +:+ foldsString folds +:+ e +:+ post); cbn [search]; by rewrite Hm. }
  rewrite Hs. cbn [fmap option_fmap option_map prepend fst snd group mbind option_bind captures].
  rewrite lookup_insert_eq. cbn [toString].
  assert (Hlen : 0 < String.length (headerValue "from:" c0 +:+ foldsString folds +:+ e)).
  { rewrite !length_app. destruct (isEol_cases e He) as [-> | ->]; simpl; lia. }
  by destruct (headerValue "from:" c0 +:+ foldsString folds +:+ e);
    [simpl in Hlen; lia |].
Qed.

Lemma hasHeaderFrom_after (name : string) (b : bool) (a s : string) :
  match lastChar a with Some t => isLineTerminator t | None => b end = true ->
  startsWith name s = true ->
  hasHeaderFrom name b (a +:+ s) = true.
Proof.
  intros Ha Hs. revert b Ha. induction a as [|c a IH]; intros b Ha.
  - change (EmptyString +:+ s) with s. cbn [lastChar] in Ha. subst b.
    destruct s; cbn [hasHeaderFrom]; by rewrite Hs.
  - change (String c a +:+ s) with (String c (a +:+ s)). cbn [hasHeaderFrom].
    rewrite IH; [by rewrite orb_true_r |].
    destruct a as [|x a]; [exact Ha |].
    change (lastChar (String c (String x a))) with (lastChar (String x a)) in Ha.
    destruct (lastChar_cons x a) as [t Ht]. by rewrite Ht in Ha |- *.
Qed.

Lemma addReplyTo_present (header : string) :
  hasHeader "reply-to:" header = true -> addReplyTo header = ([], header).
Proof. intros Hhas. unfold addReplyTo. by rewrite test_replyTo, Hhas. Qed.

Lemma addReplyTo_folded (pre : list (string * ascii)) (c0 : string)
    (folds : list Fold) (e post : string) :
  let value := headerValue "from:" c0 +:+ foldsString folds +:+ e in
  let header := unlines pre (c0 +:+ foldsString folds +:+ e +:+ post) in
  hasHeader "reply-to:" header = false ->
  forallb lineOk pre = true ->
  noLine "from:" pre = true ->
  allChars plain c0 = true ->
  startsWith "from:" c0 = true ->
  forallb foldOk folds = true ->
  isEol e = true ->
  endsFolding post = true ->
  addReplyTo header =
    ([Log "info" ("Added Reply-To address of: " +:+ value)],
     header +:+ "Reply-To: " +:+ value).
Proof.
  intros value header Hnone Hpre Hno Hc Hstart Hf He Hpost.
  unfold addReplyTo. rewrite test_replyTo, Hnone. cbn [negb].
  unfold header. rewrite fromValue_folded by done. fold value. fold header.
  assert (Hlen : 0 < String.length value).
  { unfold value. rewrite !length_app.
    destruct (isEol_cases e He) as [-> | ->]; simpl; lia. }
  by destruct value; [simpl in Hlen; lia |].
Qed.

(** C8.  The code misses the header block that does not end in a line end,
    which is what a message without a blank line and without a final line
    end is.  On [From: x], LF, [To: y] the text [Reply-To: x] with its line
    end is put straight after [To: y]: the log says that the address was
    added, but no line of the result begins with [Reply-To:], the To header
    has changed, and a second rewrite appends once more. *)
Theorem C8_reply_to_glued_to_last_line :
  splitHeader openHeader = openHeader /\
  hasHeader "reply-to:" openHeader = false /\
  hasHeader "from:" openHeader = true /\
  addReplyTo openHeader =
    ([Log "info" ("Added Reply-To address of: x" +:+ str LF)],
     "From: x" +:+ str LF +:+ "To: yReply-To: x" +:+ str LF) /\
  hasHeader "reply-to:" (addReplyTo openHeader).2 = false /\
  (rewriteMessage relayConfig (Some "info@x.com") openHeader).2 =
    "From: x <relay@verified.com>" +:+ str LF +:+ "To: yReply-To: x" +:+ str LF /\
  (rewriteMessage relayConfig (Some "info@x.com")
     (rewriteMessage relayConfig (Some "info@x.com") openHeader).2).2 =
    "From: x <relay@verified.com>" +:+ str LF +:+ "To: yReply-To: x" +:+ str LF +:+
    "Reply-To: x <relay@verified.com>" +:+ str LF.
Proof. vm_compute. done. Qed.

(** X25.  A header block with a line that begins with [Reply-To:], in any
    case, goes on to the other rewrites as it is: nothing is appended.  A
    header block without one that ends in a line terminator, and whose first
    From header is made of a first line, folded continuation lines
    (indented, with text) and a line end, gets [Reply-To: ] and the value of
    that From header, with its continuation lines and line end, appended
    unchanged.  The result has a line that begins with [Reply-To:], so a
    second pass appends nothing. *)
Theorem reply_to_appended :
  (forall header,
     hasHeader "reply-to:" header = true ->
     addReplyTo header = ([], header) /\
     forall cfg orig,
       rewriteHeader cfg orig header =
       ([], stripHeaders (replaceTo cfg (prefixSubject cfg
              (replaceFrom cfg orig header))))) /\
  (forall pre c0 folds e post,
     let value := headerValue "from:" c0 +:+ foldsString folds +:+ e in
     let header := unlines pre (c0 +:+ foldsString folds +:+ e +:+ post) in
     let new := header +:+ "Reply-To: " +:+ value in
     hasHeader "reply-to:" header = false ->
     forallb lineOk pre = true ->
     noLine "from:" pre = true ->
     allChars plain c0 = true ->
     startsWith "from:" c0 = true ->
     forallb foldOk folds = true ->
     isEol e = true ->
     endsFolding post = true ->
     (exists t, lastChar header = Some t /\ isLineTerminator t = true) ->
     addReplyTo header =
       ([Log "info" ("Added Reply-To address of: " +:+ value)], new) /\
     hasHeader "reply-to:" new = true /\
     addReplyTo new = ([], new)).
Proof.
  split.
  - intros header Hhas. pose proof (addReplyTo_present header Hhas) as Hadd.
    split; [exact Hadd |]. intros cfg orig. unfold rewriteHeader. by rewrite Hadd.
  - intros pre c0 folds e post value header new Hnone Hpre Hno Hc Hstart Hf He
      Hpost (t & Hlast & Ht).
    assert (Hnew : hasHeader "reply-to:" new = true).
    { apply hasHeaderFrom_after; [by rewrite Hlast | done]. }
    split; [by apply addReplyTo_folded |].
    split; [exact Hnew | by apply addReplyTo_present].
Qed.

Lemma reply_to_appended_witness :
  addReplyTo replyToHeader = ([], replyToHeader) /\
  (addReplyTo foldedFromHeader =
     ([Log "info" ("Added Reply-To address of: " +:+
                   (headerValue "from:" "From: Jane" +:+ foldsString [janeFold] +:+ CRLF))],
      foldedFromHeader +:+ "Reply-To: " +:+
        (headerValue "from:" "From: Jane" +:+ foldsString [janeFold] +:+ CRLF)) /\
   hasHeader "reply-to:"
     (foldedFromHeader +:+ "Reply-To: " +:+
        (headerValue "from:" "From: Jane" +:+ foldsString [janeFold] +:+ CRLF)) = true /\
   addReplyTo
     (foldedFromHeader +:+ "Reply-To: " +:+
        (headerValue "from:" "From: Jane" +:+ foldsString [janeFold] +:+ CRLF)) =
     ([], foldedFromHeader +:+ "Reply-To: " +:+
            (headerValue "from:" "From: Jane" +:+ foldsString [janeFold] +:+ CRLF))).
Proof.
  split.
  - apply (proj1 reply_to_appended replyToHeader). reflexivity.
  - apply (proj2 reply_to_appended subjectLines "From: Jane" [janeFold]
             CRLF ("To: y" +:+ CRLF)).
    + reflexivity.
    + reflexivity.
    + reflexivity.
    + reflexivity.
    + reflexivity.
    + reflexivity.
    + reflexivity.
    + reflexivity.
    + exists LF. split; reflexivity.
Defined.

Example foldedFromHeader_text :
  foldedFromHeader =
    "Subject: s" +:+ CRLF +:+ "From: Jane" +:+ CRLF +:+ " <jane@x.com>" +:+ CRLF +:+
    "To: y" +:+ CRLF /\
  (addReplyTo foldedFromHeader).2 =
    foldedFromHeader +:+ "Reply-To: Jane" +:+ CRLF +:+ " <jane@x.com>" +:+ CRLF.
Proof. vm_compute. done. Qed.

(** * More on the pipeline *)

(** ** Promise.series *)

Lemma andThen_assoc (p : promise) (f g : value -> promise) :
  andThen (andThen p f) g = andThen p (fun v => andThen (f v) g).
Proof.
  destruct p as [tr [v|e]]; [|done]. unfold andThen at 2 3.
  destruct (f v) as [tr' [w|e]]; cbn [andThen].
  - destruct (g w) as [tr'' out]. by rewrite List.app_assoc.
  - done.
Qed.

Lemma series_snoc (steps : list item) (p : item) (v : value) :
  series (steps ++ [p]) v =
  andThen (series steps v)
    match p with
    | NotFn shown => fun _ => reject (itemError shown)
    | Fn f => f
    end.
Proof.
  unfold series. rewrite foldl_app. cbn [foldl].
  destruct p as [f|[s|e]]; [done | done | done].
Qed.

Lemma andThen_resolved (p : promise) : andThen p resolve = p.
Proof. destruct p as [tr [v|e]]; [|done]. cbn. by rewrite app_nil_r. Qed.

Lemma andThen_ext (p : promise) (f g : value -> promise) :
  (forall v, f v = g v) -> andThen p f = andThen p g.
Proof. intros H. destruct p as [tr [v|e]]; [|done]. cbn. by rewrite H. Qed.

Lemma series_app (a b : list item) (v : value) :
  series (a ++ b) v = andThen (series a v) (series b).
Proof.
  induction b as [|p b IH] using rev_ind.
  - rewrite app_nil_r. change (series []) with resolve. by rewrite andThen_resolved.
  - rewrite List.app_assoc, series_snoc, IH, andThen_assoc.
    apply andThen_ext. intros w. by rewrite series_snoc.
Qed.

(** X4.  The steps of a list run in order, each on the value the one before it
    resolved with: a list in two parts is the first part and then, on its
    result, the second.  A part that rejects ends the run: no later step is
    called and its effects are all there is. *)
Theorem series_composes (a b : list item) (v : value) :
  series (a ++ b) v = andThen (series a v) (series b) /\
  (forall tr w, series a v = (tr, Resolved w) ->
     series (a ++ b) v = emit tr (series b w)) /\
  (forall tr e, series a v = (tr, Rejected e) ->
     series (a ++ b) v = (tr, Rejected e)).
Proof.
  split; [apply series_app |]. split.
  - intros tr w Ha. rewrite series_app, Ha. unfold andThen, emit.
    by destruct (series b w).
  - intros tr e Ha. by rewrite series_app, Ha.
Qed.

Lemma series_cons (p : item) (l : list item) (v : value) :
  series (p :: l) v = andThen (series [p] v) (series l).
Proof. apply (series_app [p] l). Qed.

Lemma series_not_fn (pre post : list item) (shown : conversion) (v w : value)
    (tr : list effect) :
  series pre v = (tr, Resolved w) ->
  series (pre ++ NotFn shown :: post) v = (tr, Rejected (itemError shown)).
Proof.
  intros Hpre. rewrite series_app, Hpre. cbn [andThen]. rewrite series_cons.
  assert (Hone : series [NotFn shown] w = ([], Rejected (itemError shown))).
  { unfold series. cbn [foldl]. rewrite andThen_resolve. by destruct shown. }
  rewrite Hone. cbn. by rewrite app_nil_r.
Qed.

(** X5.  An entry of the step list that is not a function rejects the run at
    its place: the steps before it have run, none after it does, and the
    handler reports the one step error.  When the entry has a text form [s],
    the error is [Error: Invalid promise item: ] followed by [s].  When its
    conversion to a string throws, as that of a Symbol does with a TypeError,
    the run is rejected with the error thrown and the handler logs its
    message. *)
Theorem series_invalid_item (pre post : list item) (s : string) (e : error)
    (cfg : Config) (ev : option Event) (tr : list effect) (w : value) :
  series pre (Context (initialData cfg ev)) = (tr, Resolved w) ->
  (series (pre ++ NotFn (Text s) :: post) (Context (initialData cfg ev)) =
     (tr, Rejected (Error ("Error: Invalid promise item: " +:+ s))) /\
   handlerWith (pre ++ NotFn (Text s) :: post) cfg ev =
     (tr ++ [Log "error" ("Step returned error: Error: Invalid promise item: " +:+ s);
             Callback (Some stepError)],
      Resolved Undefined)) /\
  (series (pre ++ NotFn (Throws e) :: post) (Context (initialData cfg ev)) =
     (tr, Rejected e) /\
   handlerWith (pre ++ NotFn (Throws e) :: post) cfg ev =
     (tr ++ [Log "error" ("Step returned error: " +:+ errorMessage e);
             Callback (Some stepError)],
      Resolved Undefined)) /\
  handlerWith (pre ++ NotFn symbolConversion :: post) cfg ev =
    (tr ++ [Log "error"
              "Step returned error: Cannot convert a Symbol value to a string";
            Callback (Some stepError)],
     Resolved Undefined).
Proof.
  intros Hpre.
  pose proof (fun shown => series_not_fn pre post shown _ w tr Hpre) as Hs.
  split; [| split].
  - split; [exact (Hs (Text s)) |]. unfold handlerWith. by rewrite (Hs (Text s)).
  - split; [exact (Hs (Throws e)) |]. unfold handlerWith. by rewrite (Hs (Throws e)).
  - unfold handlerWith. by rewrite (Hs symbolConversion).
Qed.

Lemma series_invalid_item_witness :
  (series ([Fn parseEvent] ++ [NotFn (Text "42"); Fn transformRecipients])
     (Context (initialData relayConfig noMatchEvent)) =
     ([], Rejected (Error ("Error: Invalid promise item: " +:+ "42"))) /\
   handlerWith ([Fn parseEvent] ++ [NotFn (Text "42"); Fn transformRecipients])
     relayConfig noMatchEvent =
     ([] ++ [Log "error" ("Step returned error: Error: Invalid promise item: " +:+ "42");
             Callback (Some stepError)],
      Resolved Undefined)) /\
  (series ([Fn parseEvent] ++ [NotFn (Throws (TypeError "t")); Fn transformRecipients])
     (Context (initialData relayConfig noMatchEvent)) =
     ([], Rejected (TypeError "t")) /\
   handlerWith ([Fn parseEvent] ++ [NotFn (Throws (TypeError "t")); Fn transformRecipients])
     relayConfig noMatchEvent =
     ([] ++ [Log "error" ("Step returned error: " +:+ errorMessage (TypeError "t"));
             Callback (Some stepError)],
      Resolved Undefined)) /\
  handlerWith ([Fn parseEvent] ++ [NotFn symbolConversion; Fn transformRecipients])
    relayConfig noMatchEvent =
    ([] ++ [Log "error"
              "Step returned error: Cannot convert a Symbol value to a string";
            Callback (Some stepError)],
     Resolved Undefined).
Proof.
  eapply (series_invalid_item [Fn parseEvent] [Fn transformRecipients] "42"
            (TypeError "t") relayConfig noMatchEvent []).
  vm_compute. reflexivity.
Defined.

(** ** Failures of the store and of the mailer *)

Lemma handler_to_fetch (svc : Services) (cfg : Config) (ev : option Event)
    (m : Mail) (rs : list string) (d : string) (ds : list string) :
  delivers ev m rs ->
  newRecipients (forwardAll cfg rs) = d :: ds ->
  handler svc cfg ev =
    (orCatch
       (andThen
          (andThen
             (andThen
                (fetchMessage svc
                   (Context (withForwarding
                      {| event := ev; config := cfg; email := Some m;
                         recipients := Some rs; originalRecipients := None;
                         originalRecipient := None; emailData := None |}
                      rs (forwardAll cfg rs) (d :: ds))))
                processMessage)
             (sendMessage svc))
          (fun v =>
             match v with
             | Undefined => reject (readOfUndefined "log")
             | Context _ =>
                 ([Log "info" "Process finished successfully."; Callback None],
                  Resolved Undefined)
             end))
       (fun err =>
          ([Log "error" ("Step returned error: " +:+ errorMessage err);
            Callback (Some stepError)],
           Resolved Undefined))).1.
Proof.
  intros (r & s & rc & Hv & Hs & Hr & Hm & Hrs) Hnew.
  unfold handler, handlerWith, defaultSteps, series. cbn [foldl].
  rewrite !andThen_resolve. unfold parseEvent. cbn [event config initialData].
  rewrite Hv, Hs, Hr, andThen_resolve. unfold transformRecipients.
  cbn [recipients config email originalRecipients originalRecipient emailData].
  rewrite Hrs, Hm. cbv zeta. rewrite Hnew. by rewrite andThen_resolve.
Qed.

(** X6.  When the store refuses the copy, the message is neither read nor
    sent: the run ends with the copy error logged and one callback with the
    step error.  When the copy is made and the read fails, nothing is sent
    either. *)
Theorem fetch_failure_stops_run (svc : Services) (cfg : Config)
    (ev : option Event) (m : Mail) (rs : list string) :
  let key := emailKeyPrefix cfg +:+ messageId m in
  let copySource := emailBucket cfg +:+ "/" +:+ key in
  delivers ev m rs ->
  newRecipients (forwardAll cfg rs) <> [] ->
  (copyObject svc (emailBucket cfg) copySource key = false ->
   handler svc cfg ev =
     [Log "info" ("Fetching email at s3://" +:+ copySource);
      CopyObject (emailBucket cfg) copySource key;
      Log "error" "copyObject() returned error:";
      Log "error" "Step returned error: Error: Could not make readable copy of email.";
      Callback (Some stepError)]) /\
  (copyObject svc (emailBucket cfg) copySource key = true ->
   getObject svc (emailBucket cfg) key = None ->
   handler svc cfg ev =
     [Log "info" ("Fetching email at s3://" +:+ copySource);
      CopyObject (emailBucket cfg) copySource key;
      GetObject (emailBucket cfg) key;
      Log "error" "getObject() returned error:";
      Log "error" "Step returned error: Error: Failed to load message body from S3.";
      Callback (Some stepError)]).
Proof.
  intros key copySource Hev Hnew.
  destruct (newRecipients (forwardAll cfg rs)) as [|d ds] eqn:Hf; [done |].
  rewrite (handler_to_fetch svc cfg ev m rs d ds Hev Hf).
  unfold fetchMessage, withForwarding. cbn [email config].
  fold key. fold copySource. split.
  - by intros ->.
  - by intros -> ->.
Qed.

Lemma fetch_failure_stops_run_witness :
  handler {| copyObject := fun _ _ _ => false;
             getObject := fun _ _ => None;
             sendRawEmail := fun _ _ _ => true |} defaultConfig infoEvent =
    [Log "info" ("Fetching email at s3://" +:+
                 ("partypunchband-email" +:+ "/" +:+ (EmptyString +:+ "m1")));
     CopyObject "partypunchband-email"
       ("partypunchband-email" +:+ "/" +:+ (EmptyString +:+ "m1"))
       (EmptyString +:+ "m1");
     Log "error" "copyObject() returned error:";
     Log "error" "Step returned error: Error: Could not make readable copy of email.";
     Callback (Some stepError)].
Proof.
  apply (fetch_failure_stops_run
           {| copyObject := fun _ _ _ => false;
              getObject := fun _ _ => None;
              sendRawEmail := fun _ _ _ => true |}
           defaultConfig infoEvent {| messageId := "m1" |}
           ["info@partypunchband.com"]).
  - eexists _, _, _. repeat split; reflexivity.
  - vm_compute. discriminate.
  - reflexivity.
Defined.

(** X7.  When the mailer refuses the message, the run has fetched and
    rewritten it and has asked for the one send; the failure is logged and the
    callback is called once, with the step error. *)
Theorem send_failure_reported (svc : Services) (cfg : Config)
    (ev : option Event) (m : Mail) (rs : list string) (text : string) :
  let f := forwardAll cfg rs in
  let key := emailKeyPrefix cfg +:+ messageId m in
  let copySource := emailBucket cfg +:+ "/" +:+ key in
  let out := rewriteMessage cfg (chosen f) text in
  delivers ev m rs ->
  newRecipients f <> [] ->
  copyObject svc (emailBucket cfg) copySource key = true ->
  getObject svc (emailBucket cfg) key = Some text ->
  sendRawEmail svc (newRecipients f) (chosen f) out.2 = false ->
  handler svc cfg ev =
    [Log "info" ("Fetching email at s3://" +:+ copySource);
     CopyObject (emailBucket cfg) copySource key;
     GetObject (emailBucket cfg) key] ++
    out.1 ++
    [Log "info"
       ("sendMessage: Sending email via SES. Original recipients: " +:+
        join ", " rs +:+ ". Transformed recipients: " +:+
        join ", " (newRecipients f) +:+ ".");
     SendRawEmail (newRecipients f) (chosen f) out.2;
     Log "error" "sendRawEmail() returned error.";
     Log "error" "Step returned error: Error: Email sending failed.";
     Callback (Some stepError)].
Proof.
  intros f key copySource out Hev Hnew Hcopy Hget Hsend.
  destruct (newRecipients f) as [|d ds] eqn:Hf; [done |].
  rewrite (handler_to_fetch svc cfg ev m rs d ds Hev Hf).
  unfold fetchMessage, withForwarding. cbn [email config].
  fold key. fold copySource. rewrite Hcopy, Hget.
  unfold processMessage, sendMessage, withEmailData.
  unfold emit, resolve, andThen, orCatch.
  cbn [fst snd emailData config originalRecipient originalRecipients recipients].
  fold f.
  assert (Hchosen : match chosen f with Some r => Some r | None => None end = chosen f)
    by (by destruct (chosen f)).
  rewrite Hchosen. fold out. destruct out as [logs raw] eqn:Hout.
  cbn [fst snd emailData originalRecipients recipients originalRecipient] in *.
  rewrite Hsend. cbn [fst snd]. by rewrite !app_nil_r, <- !List.app_assoc.
Qed.

Lemma send_failure_reported_witness :
  handler {| copyObject := fun _ _ _ => true;
             getObject := fun _ _ => Some ("Subject: hello" +:+ CRLF);
             sendRawEmail := fun _ _ _ => false |} defaultConfig infoEvent =
    [Log "info" ("Fetching email at s3://" +:+
                 ("partypunchband-email" +:+ "/" +:+ (EmptyString +:+ "m1")));
     CopyObject "partypunchband-email"
       ("partypunchband-email" +:+ "/" +:+ (EmptyString +:+ "m1"))
       (EmptyString +:+ "m1");
     GetObject "partypunchband-email" (EmptyString +:+ "m1")] ++
    (rewriteMessage defaultConfig
       (chosen (forwardAll defaultConfig ["info@partypunchband.com"]))
       ("Subject: hello" +:+ CRLF)).1 ++
    [Log "info"
       ("sendMessage: Sending email via SES. Original recipients: " +:+
        join ", " ["info@partypunchband.com"] +:+ ". Transformed recipients: " +:+
        join ", " (newRecipients (forwardAll defaultConfig ["info@partypunchband.com"]))
        +:+ ".");
     SendRawEmail (newRecipients (forwardAll defaultConfig ["info@partypunchband.com"]))
       (chosen (forwardAll defaultConfig ["info@partypunchband.com"]))
       (rewriteMessage defaultConfig
          (chosen (forwardAll defaultConfig ["info@partypunchband.com"]))
          ("Subject: hello" +:+ CRLF)).2;
     Log "error" "sendRawEmail() returned error.";
     Log "error" "Step returned error: Error: Email sending failed.";
     Callback (Some stepError)].
Proof.
  apply (send_failure_reported
           {| copyObject := fun _ _ _ => true;
              getObject := fun _ _ => Some ("Subject: hello" +:+ CRLF);
              sendRawEmail := fun _ _ _ => false |}
           defaultConfig infoEvent {| messageId := "m1" |}
           ["info@partypunchband.com"] ("Subject: hello" +:+ CRLF)).
  - eexists _, _, _. repeat split; reflexivity.
  - vm_compute. discriminate.
  - reflexivity.
  - reflexivity.
  - reflexivity.
Defined.

(** ** What is sent *)

Lemma sends_app (a b : list effect) : sends (a ++ b) = sends a ++ sends b.
Proof. apply omap_app. Qed.

Lemma rewriteMessage_sends (cfg : Config) (orig : option string) (text : string) :
  sends (rewriteMessage cfg orig text).1 = [].
Proof.
  unfold rewriteMessage, rewriteHeader, addReplyTo.
  destruct (negb _); [|done]. by destruct (truthy _).
Qed.

Lemma handler_sends (svc : Services) (cfg : Config) (ev : option Event) :
  sends (handler svc cfg ev) = [] \/
  exists m rs text,
    let f := forwardAll cfg rs in
    let key := emailKeyPrefix cfg +:+ messageId m in
    delivers ev m rs /\
    newRecipients f <> [] /\
    copyObject svc (emailBucket cfg) (emailBucket cfg +:+ "/" +:+ key) key = true /\
    getObject svc (emailBucket cfg) key = Some text /\
    sends (handler svc cfg ev) =
      [(newRecipients f, chosen f, (rewriteMessage cfg (chosen f) text).2)].
Proof.
  unfold handler, handlerWith, defaultSteps, series. cbn [foldl].
  rewrite !andThen_resolve. unfold parseEvent.
  cbn [event config email recipients originalRecipients originalRecipient
       emailData initialData].
  destruct (validRecords ev) as [r|] eqn:Hv; [| by left].
  destruct (ses r) as [s|] eqn:Hs; [| by left].
  destruct (receipt s) as [rc|] eqn:Hr; [| by left].
  rewrite andThen_resolve. unfold transformRecipients. cbn [recipients config].
  destruct (receiptRecipients rc) as [rs|] eqn:Hrs; [| by left].
  destruct (newRecipients (forwardAll cfg rs)) as [|d ds] eqn:Hnew; [by left |].
  rewrite andThen_resolve. unfold fetchMessage, withForwarding. cbn [email config].
  destruct (mail s) as [m|] eqn:Hm; [| by left].
  destruct (copyObject svc _ _ _) eqn:Hcopy; [| by left].
  destruct (getObject svc _ _) as [text|] eqn:Hget; [| by left].
  right. exists m, rs, text. cbv zeta. rewrite Hnew.
  split; [by exists r, s, rc |]. split; [done |]. split; [done |]. split; [done |].
  unfold processMessage, sendMessage, withEmailData.
  unfold emit, resolve, andThen, orCatch.
  cbn [fst snd emailData config originalRecipient originalRecipients recipients].
  assert (Hchosen : match chosen (forwardAll cfg rs) with
                    | Some r0 => Some r0 | None => None end
                    = chosen (forwardAll cfg rs))
    by (by destruct (chosen (forwardAll cfg rs))).
  rewrite Hchosen.
  pose proof (rewriteMessage_sends cfg (chosen (forwardAll cfg rs)) text) as Hlogs.
  destruct (rewriteMessage cfg _ text) as [logs raw].
  cbn [fst snd emailData originalRecipients recipients originalRecipient] in *.
  destruct (sendRawEmail svc _ _ _);
    cbn [fst snd]; rewrite !sends_app, Hlogs; reflexivity.
Qed.

(** X8.  Whatever the event, the configuration and the answers of the
    services, a run hands at most one message to the mailer, and only after
    the event was accepted, some recipient resolved, and the stored message
    was copied and read: the message is the rewrite of the text read, the
    destinations are the resolved list and the source is the recorded original
    recipient. *)
Theorem sends_at_most_once (svc : Services) (cfg : Config) (ev : option Event) :
  sends (handler svc cfg ev) = [] \/
  exists m rs text,
    let f := forwardAll cfg rs in
    let key := emailKeyPrefix cfg +:+ messageId m in
    delivers ev m rs /\
    newRecipients f <> [] /\
    copyObject svc (emailBucket cfg) (emailBucket cfg +:+ "/" +:+ key) key = true /\
    getObject svc (emailBucket cfg) key = Some text /\
    sends (handler svc cfg ev) =
      [(newRecipients f, chosen f, (rewriteMessage cfg (chosen f) text).2)].
Proof. apply handler_sends. Qed.

Lemma firstRule_some (fm : gmap string (list string)) (keys : list string)
    (dests : list string) :
  firstRule fm keys = Some dests ->
  exists k, k ∈ keys /\ fm !! k = Some dests.
Proof.
  induction keys as [|k keys IH]; [done |]. cbn [firstRule].
  destruct (fm !! k) as [d|] eqn:Hk.
  - intros [= <-]. exists k. split; [apply list_elem_of_here | done].
  - intros (k' & Hin & Hk')%IH. exists k'. split; [by apply list_elem_of_further | done].
Qed.

Lemma recorded_firstRule (cfg : Config) (r : string) :
  recorded cfg r =
  match firstRule (forwardMapping cfg) (lookupOrder (origEmailKey cfg r)) with
  | Some _ => true
  | None => false
  end.
Proof.
  unfold recorded. rewrite forwardOne_firstRule.
  by destruct (firstRule _ _).
Qed.

Lemma newRecipients_from_rules (cfg : Config) (rs : list string) (a : string) :
  a ∈ newRecipients (forwardAll cfg rs) ->
  exists r k dests,
    r ∈ rs /\ recorded cfg r = true /\
    k ∈ lookupOrder (origEmailKey cfg r) /\
    forwardMapping cfg !! k = Some dests /\ a ∈ dests.
Proof.
  unfold forwardAll. rewrite newRecipients_foldl. cbn [newRecipients app].
  intros Ha. apply list_elem_of_In, in_concat in Ha as (l & Hl & Ha).
  apply in_map_iff in Hl as (r & <- & Hr).
  unfold destinations in Ha.
  destruct (firstRule _ _) as [dests|] eqn:Hf; [| by destruct Ha].
  cbn [default] in Ha.
  destruct (firstRule_some _ _ _ Hf) as (k & Hk & Hfm).
  exists r, k, dests. rewrite recorded_firstRule, Hf.
  split; [by apply list_elem_of_In |]. split; [done |]. split; [done |].
  split; [done |]. by apply list_elem_of_In.
Qed.

Lemma chosen_recorded (cfg : Config) (rs : list string) :
  newRecipients (forwardAll cfg rs) <> [] ->
  exists r, chosen (forwardAll cfg rs) = Some r /\ r ∈ rs /\ recorded cfg r = true.
Proof.
  intros Hne.
  destruct (newRecipients (forwardAll cfg rs)) as [|a l] eqn:Hnew; [done |].
  destruct (newRecipients_from_rules cfg rs a) as (r0 & _ & _ & Hr0 & Hrec & _).
  { rewrite Hnew. apply list_elem_of_here. }
  unfold forwardAll. rewrite chosen_foldl.
  destruct (last (List.filter (recorded cfg) rs)) as [r|] eqn:Hlast.
  - exists r. split; [done |].
    apply last_Some_elem_of, list_elem_of_In, filter_In in Hlast as [Hin Hr].
    by split; [apply list_elem_of_In |].
  - apply last_None in Hlast.
    assert (Hin : In r0 (List.filter (recorded cfg) rs)).
    { apply filter_In. by split; [apply list_elem_of_In |]. }
    rewrite Hlast in Hin. by destruct Hin.
Qed.

(** X24.  A run never hands the mailer a destination that the rule table does
    not give: every destination of a message sent is in the list that the
    table holds under one of the lookup keys of a recipient of the event.  The
    source of the message is never undefined: it is one of the recipients of
    the event, one for which a rule was found.  And the list of destinations
    is not empty. *)
Theorem sends_within_rules (svc : Services) (cfg : Config) (ev : option Event)
    (d : list string) (s : option string) (raw : string) :
  (d, s, raw) ∈ sends (handler svc cfg ev) ->
  exists m rs,
    delivers ev m rs /\
    d <> [] /\
    (forall a, a ∈ d ->
       exists r k dests,
         r ∈ rs /\ recorded cfg r = true /\
         k ∈ lookupOrder (origEmailKey cfg r) /\
         forwardMapping cfg !! k = Some dests /\ a ∈ dests) /\
    (exists r, s = Some r /\ r ∈ rs /\ recorded cfg r = true).
Proof.
  intros Hin.
  destruct (handler_sends svc cfg ev) as [Hnone | (m & rs & text & H)].
  { rewrite Hnone in Hin. by apply elem_of_nil in Hin. }
  cbv zeta in H. destruct H as (Hdel & Hne & _ & _ & Hsends).
  rewrite Hsends in Hin. apply list_elem_of_singleton in Hin as [= -> -> ->].
  exists m, rs. split; [done |]. split; [done |]. split.
  - intros a. apply newRecipients_from_rules.
  - destruct (chosen_recorded cfg rs Hne) as (r & Hr & Hin & Hrec). by exists r.
Qed.

Lemma sends_within_rules_witness :
  exists m rs,
    delivers (sesEvent (Some {| messageId := "m1" |}) (Some ["info@partypunchband.com"]))
      m rs /\
    ["chad.kouse@gmail.com"; "bryanshutts@icloud.com";
     "haley.voelkl@gmail.com"; "myk.miller67@gmail.com"] <> [] /\
    (forall a,
       a ∈ ["chad.kouse@gmail.com"; "bryanshutts@icloud.com";
            "haley.voelkl@gmail.com"; "myk.miller67@gmail.com"] ->
       exists r k dests,
         r ∈ rs /\ recorded defaultConfig r = true /\
         k ∈ lookupOrder (origEmailKey defaultConfig r) /\
         forwardMapping defaultConfig !! k = Some dests /\ a ∈ dests) /\
    (exists r, Some "info@partypunchband.com" = Some r /\ r ∈ rs /\
               recorded defaultConfig r = true).
Proof.
  apply (sends_within_rules okServices defaultConfig
           (sesEvent (Some {| messageId := "m1" |}) (Some ["info@partypunchband.com"]))
           _ _
           (rewriteMessage defaultConfig (Some "info@partypunchband.com")
              ("Subject: hello" +:+ CRLF +:+ CRLF +:+ "Hi." +:+ CRLF)).2).
  vm_compute. apply list_elem_of_here.
Defined.

(** ** Records that lack a part *)

(** X9.  An event that passes the validation and lacks a part the steps read
    fails at the step that reads it, before the store or the mailer is asked
    for anything: the record without its [ses] object or its receipt in
    [parseEvent], the receipt without recipients in [transformRecipients], and
    the record without its mail object in [fetchMessage], once the recipients
    have resolved.  Each time the callback is called once, with the step
    error. *)
Theorem incomplete_record_fails (svc : Services) (cfg : Config)
    (ev : option Event) (r : SesRecord) :
  validRecords ev = Some r ->
  (ses r = None ->
   handler svc cfg ev = failsWith (readOfUndefined "mail")) /\
  (forall s, ses r = Some s -> receipt s = None ->
   handler svc cfg ev = failsWith (readOfUndefined "recipients")) /\
  (forall s rc, ses r = Some s -> receipt s = Some rc ->
   receiptRecipients rc = None ->
   handler svc cfg ev = failsWith (readOfUndefined "forEach")) /\
  (forall s rc rs, ses r = Some s -> receipt s = Some rc ->
   receiptRecipients rc = Some rs ->
   newRecipients (forwardAll cfg rs) <> [] ->
   mail s = None ->
   handler svc cfg ev = failsWith (readOfUndefined "messageId")).
Proof.
  intros Hv.
  assert (Hrun : handler svc cfg ev =
    (handlerWith (defaultSteps svc) cfg ev).1) by done.
  unfold handlerWith, defaultSteps, series in Hrun. cbn [foldl] in Hrun.
  rewrite !andThen_resolve in Hrun. unfold parseEvent in Hrun.
  cbn [event config initialData] in Hrun. rewrite Hv in Hrun.
  split; [| split; [| split]].
  - intros Hs. rewrite Hrun, Hs. reflexivity.
  - intros s Hs Hr. rewrite Hrun, Hs, Hr. reflexivity.
  - intros s rc Hs Hr Hrs. rewrite Hrun, Hs, Hr, andThen_resolve.
    unfold transformRecipients. cbn [recipients]. rewrite Hrs. reflexivity.
  - intros s rc rs Hs Hr Hrs Hnew Hm. rewrite Hrun, Hs, Hr, andThen_resolve.
    unfold transformRecipients. cbn [recipients config]. rewrite Hrs. cbv zeta.
    destruct (newRecipients (forwardAll cfg rs)) as [|d ds]; [done |].
    rewrite andThen_resolve. unfold fetchMessage, withForwarding. cbn [email].
    rewrite Hm. reflexivity.
Qed.

Lemma incomplete_record_fails_witness :
  handler okServices defaultConfig
    (Some {| Records := Some [ {| eventSource := Some "aws:ses";
                                  eventVersion := Some "1.0";
                                  ses := None |} ] |}) =
  failsWith (readOfUndefined "mail").
Proof.
  apply (incomplete_record_fails okServices defaultConfig
           (Some {| Records := Some [ {| eventSource := Some "aws:ses";
                                         eventVersion := Some "1.0";
                                         ses := None |} ] |})
           {| eventSource := Some "aws:ses"; eventVersion := Some "1.0"; ses := None |}).
  - reflexivity.
  - reflexivity.
Defined.

(** * More on the resolution of recipients *)

(** ** The plus tag *)

Lemma lazy_dots_afterTag (s : string) (fuel : nat) (q : option ascii)
    (cs : gmap nat string) :
  String.length s <= fuel ->
  repeat false [] (matcher noFlags Dot) fuel (State q s cs)
    (fun y => matcher noFlags (Chr "@") y Some) =
  (fun d => State (Some "@"%char) d cs) <$> afterTag s.
Proof.
  revert fuel q. induction s as [|c t IH]; intros fuel q Hfuel.
  - destruct fuel as [|fuel]; [done |].
    rewrite repeat_lazy, matcher_Chr, single_empty, clear_nil, matcher_Dot.
    by rewrite single_empty.
  - cbn [String.length] in Hfuel. destruct fuel as [|fuel]; [lia |].
    rewrite repeat_lazy, matcher_Chr, single_cons. cbn beta.
    unfold charEq. cbn [ignoreCase noFlags afterTag].
    destruct (Ascii.eqb c "@") eqn:Hc.
    + apply Ascii.eqb_eq in Hc. by subst c.
    + rewrite clear_nil, matcher_Dot, single_cons. unfold plain.
      destruct (isLineTerminator c); [done |]. cbn [negb].
      rewrite advanced_cons. apply IH. lia.
Qed.

Lemma matchAt_plusSign (p : option ascii) (c : ascii) (t : string) :
  after <$> matchAt noFlags plusSignRe p (String c t) =
  if Ascii.eqb c "+" then afterTag t else None.
Proof.
  unfold matchAt, plusSignRe.
  rewrite matcher_Cat, matcher_Chr, single_cons. cbn beta.
  unfold charEq. cbn [ignoreCase noFlags].
  destruct (Ascii.eqb c "+"); [|done].
  rewrite matcher_Cat, matcher_Star. cbn [rest].
  rewrite lazy_dots_afterTag by done.
  by destruct (afterTag t).
Qed.

Lemma matchAt_plusSign_empty (p : option ascii) :
  matchAt noFlags plusSignRe p EmptyString = None.
Proof. reflexivity. Qed.

Lemma search_plusSign (p : option ascii) (s : string) :
  match search noFlags plusSignRe p s with
  | None => s
  | Some (skipped, h) => skipped +:+ "@" +:+ after h
  end = stripTag s.
Proof.
  revert p. induction s as [|c t IH]; intros p; [done |].
  cbn [search stripTag].
  pose proof (matchAt_plusSign p c t) as Hm.
  destruct (matchAt noFlags plusSignRe p (String c t)) as [h|].
  - cbn [fmap option_fmap option_map] in Hm.
    destruct (Ascii.eqb c "+"); [|done]. by rewrite <- Hm.
  - cbn [fmap option_fmap option_map] in Hm.
    assert (Hgo : (if Ascii.eqb c "+"
                   then match afterTag t with
                        | Some d => String "@" d
                        | None => String c (stripTag t)
                        end
                   else String c (stripTag t)) = String c (stripTag t)).
    { destruct (Ascii.eqb c "+"); [by rewrite <- Hm | done]. }
    rewrite Hgo, <- (IH (Some c)).
    by destruct (search noFlags plusSignRe (Some c) t) as [[sk h]|].
Qed.

Lemma origEmailKey_stripTag (cfg : Config) (origEmail : string) :
  origEmailKey cfg origEmail =
  if allowPlusSign cfg then stripTag (toLowerCase origEmail)
  else toLowerCase origEmail.
Proof.
  unfold origEmailKey. destruct (allowPlusSign cfg); [|done].
  unfold RegExp.replace, exec. cbn [global noFlags].
  rewrite <- (search_plusSign None).
  by destruct (search noFlags plusSignRe None (toLowerCase origEmail)) as [[sk h]|].
Qed.

Lemma stripTag_no_plus (s : string) :
  allChars (isNot "+") s = true -> stripTag s = s.
Proof.
  induction s as [|c t IH]; [done |]. cbn [allChars stripTag].
  intros [Hc Ht]%andb_prop. unfold isNot in Hc. apply negb_true_iff in Hc.
  by rewrite Hc, IH.
Qed.

Lemma afterTag_none (s : string) :
  allChars (isNot "@") s = true -> afterTag s = None.
Proof.
  induction s as [|c t IH]; [done |]. cbn [allChars afterTag].
  intros [Hc Ht]%andb_prop. unfold isNot in Hc. apply negb_true_iff in Hc.
  rewrite Hc, IH by done. by destruct (isLineTerminator c).
Qed.

Lemma stripTag_no_at (s : string) :
  allChars (isNot "@") s = true -> stripTag s = s.
Proof.
  induction s as [|c t IH]; [done |]. cbn [allChars stripTag].
  intros [Hc Ht]%andb_prop.
  rewrite afterTag_none, IH by done. by destruct (Ascii.eqb c "+").
Qed.

(** X10.  With the plus sign allowed, the key of an address is its lower-case
    form without the plus tag: what lies between the first plus sign that has
    an at-sign after it on its line and that at-sign is left out, and nothing
    else changes.  An address without a plus sign, or without an at-sign, has
    its lower-case form as its key; so has every address when the plus sign is
    not allowed. *)
Theorem origEmailKey_strips_first_tag (cfg : Config) (origEmail : string) :
  origEmailKey cfg origEmail =
    (if allowPlusSign cfg then stripTag (toLowerCase origEmail)
     else toLowerCase origEmail) /\
  (allChars (isNot "+") origEmail = true \/ allChars (isNot "@") origEmail = true ->
   origEmailKey cfg origEmail = toLowerCase origEmail).
Proof.
  split; [apply origEmailKey_stripTag |].
  rewrite origEmailKey_stripTag. destruct (allowPlusSign cfg); [|done].
  intros [H|H].
  - apply stripTag_no_plus. by rewrite allChars_toLowerCase_plus.
  - apply stripTag_no_at. revert H. clear.
    induction origEmail as [|c t IH]; [done |]. cbn [allChars toLowerCase].
    intros [Hc Ht]%andb_prop. rewrite IH by done. rewrite andb_true_r.
    unfold isNot in *. by rewrite (proj1 (proj2 (lowerChar_keeps c))).
Qed.

Lemma origEmailKey_strips_first_tag_witness :
  origEmailKey defaultConfig "Info" = toLowerCase "Info".
Proof.
  apply (proj2 (origEmailKey_strips_first_tag defaultConfig "Info")).
  left. reflexivity.
Defined.

(** ** The order of the lookups and the recipient recorded *)

Lemma origEmailKey_ruleKey (cfg : Config) (origEmail : string) :
  origEmailKey cfg origEmail = ruleKey cfg origEmail.
Proof. apply origEmailKey_stripTag. Qed.

Lemma recorded_hasRule (cfg : Config) (r : string) :
  recorded cfg r = hasRule cfg r.
Proof. unfold hasRule. rewrite <- origEmailKey_ruleKey. apply recorded_firstRule. Qed.

Lemma chosen_last_hasRule (cfg : Config) (rs : list string) :
  chosen (forwardAll cfg rs) = last (List.filter (hasRule cfg) rs).
Proof.
  unfold forwardAll. rewrite chosen_foldl.
  rewrite (filter_ext (recorded cfg) (hasRule cfg) (recorded_hasRule cfg)).
  by destruct (last (List.filter (hasRule cfg) rs)).
Qed.

(** C1 (as amended).  The original recipient recorded by the resolution is
    the last recipient, in input order, that gives a rule match, that is,
    for which the table has a rule under one of the keys full address, domain
    suffix, local part, catch-all of its lower-case form (without the plus
    tag when plus signs are allowed): every matching recipient overwrites the
    one recorded before it, and none is recorded when no recipient matches.
    The same value is the [originalRecipient] of the bundle that
    [transformRecipients] resolves with, which [sendMessage] passes on as the
    Source. *)
Theorem C1_chosen_is_last_match (cfg : Config) (rs : list string) :
  chosen (forwardAll cfg rs) = last (List.filter (hasRule cfg) rs) /\
  forall data d',
    config data = cfg ->
    recipients data = Some rs ->
    originalRecipient data = None ->
    transformRecipients (Context data) = resolve (Context d') ->
    originalRecipient d' = last (List.filter (hasRule cfg) rs).
Proof.
  split; [apply chosen_last_hasRule |].
  intros data d' Hcfg Hrs Hnone. unfold transformRecipients, resolve.
  rewrite Hrs, Hcfg.
  destruct (newRecipients (forwardAll cfg rs)) eqn:Hnew; [discriminate |].
  intros [= <-]. simpl. rewrite Hnone, <- chosen_last_hasRule.
  by destruct (chosen (forwardAll cfg rs)).
Qed.

Lemma C1_chosen_is_last_match_witness :
  originalRecipient
    (withForwarding (initialData twoRules None) ["a@x.com"; "b@x.com"]
       (forwardAll twoRules ["a@x.com"; "b@x.com"]) ["one@y.com"; "two@y.com"])
  = last (List.filter (hasRule twoRules) ["a@x.com"; "b@x.com"]).
Proof.
  apply (proj2 (C1_chosen_is_last_match twoRules ["a@x.com"; "b@x.com"])
           {| event := None; config := twoRules; email := None;
              recipients := Some ["a@x.com"; "b@x.com"];
              originalRecipients := None; originalRecipient := None;
              emailData := None |}).
  - reflexivity.
  - reflexivity.
  - reflexivity.
  - vm_compute. reflexivity.
Defined.

(** C2.  For every recipient address and rule table the loop body looks the
    lower-case form of the address (without the plus tag when plus signs are
    allowed) up under the keys full address, domain suffix (when it has an
    at-sign), local part (when there is one), catch-all, in this order.  For
    the first of them that has a rule it appends the destinations of that
    rule to the resolved list and records the address; when none has a rule
    it changes nothing.  In particular a rule for the full address is the one
    used, whatever other rules there are. *)
Theorem C2_lookup_precedence (cfg : Config) (acc : Forwarding) (origEmail : string) :
  forwardOne cfg acc origEmail =
    match firstRule (forwardMapping cfg) (lookupOrder (ruleKey cfg origEmail)) with
    | Some dests =>
        {| newRecipients := newRecipients acc ++ dests; chosen := Some origEmail |}
    | None => acc
    end /\
  forall dests,
    forwardMapping cfg !! ruleKey cfg origEmail = Some dests ->
    forwardOne cfg acc origEmail =
      {| newRecipients := newRecipients acc ++ dests; chosen := Some origEmail |}.
Proof.
  rewrite forwardOne_firstRule, origEmailKey_ruleKey. split; [done |].
  intros dests H. unfold lookupOrder. cbn [firstRule]. by rewrite H.
Qed.

Lemma C2_lookup_precedence_witness :
  forwardOne defaultConfig blank "info@partypunchband.com" =
  {| newRecipients :=
       ["chad.kouse@gmail.com"; "bryanshutts@icloud.com";
        "haley.voelkl@gmail.com"; "myk.miller67@gmail.com"];
     chosen := Some "info@partypunchband.com" |}.
Proof.
  apply (proj2 (C2_lookup_precedence defaultConfig blank "info@partypunchband.com")).
  vm_compute. reflexivity.
Defined.

(** ** The case of the keys *)

Lemma isLower_lowerChar (c : ascii) : isLower (lowerChar c) = true.
Proof. by destruct c as [[] [] [] [] [] [] [] []]. Qed.

Lemma allChars_isLower (s : string) :
  allChars isLower s = true <-> toLowerCase s = s.
Proof.
  induction s as [|c t IH]; [done |]. cbn [allChars toLowerCase]. split.
  - intros [Hc Ht]%andb_prop. apply Ascii.eqb_eq in Hc. rewrite Hc.
    f_equal. by apply IH.
  - intros [= Hc Ht]. apply andb_true_intro. split.
    + by apply Ascii.eqb_eq.
    + by apply IH.
Qed.

Lemma toLowerCase_isLower (s : string) : allChars isLower (toLowerCase s) = true.
Proof.
  induction s as [|c t IH]; [done |]. cbn [allChars toLowerCase].
  by rewrite isLower_lowerChar, IH.
Qed.

Lemma afterTag_allChars (p : ascii -> bool) (s d : string) :
  allChars p s = true -> afterTag s = Some d -> allChars p d = true.
Proof.
  revert d. induction s as [|c t IH]; intros d; [done |].
  cbn [allChars afterTag]. intros [Hc Ht]%andb_prop.
  destruct (Ascii.eqb c "@"); [by intros [= <-] |].
  destruct (isLineTerminator c); [done |]. by apply IH.
Qed.

Lemma stripTag_allChars (p : ascii -> bool) (s : string) :
  p "@"%char = true -> allChars p s = true -> allChars p (stripTag s) = true.
Proof.
  intros Hat. induction s as [|c t IH]; [done |].
  cbn [allChars stripTag]. intros [Hc Ht]%andb_prop.
  destruct (Ascii.eqb c "+").
  - destruct (afterTag t) as [d|] eqn:Hd; cbn [allChars].
    + by rewrite Hat, (afterTag_allChars p t d).
    + by rewrite Hc, IH.
  - cbn [allChars]. by rewrite Hc, IH.
Qed.

Lemma origEmailKey_isLower (cfg : Config) (origEmail : string) :
  allChars isLower (origEmailKey cfg origEmail) = true.
Proof.
  rewrite origEmailKey_stripTag. destruct (allowPlusSign cfg).
  - apply stripTag_allChars; [done |]. apply toLowerCase_isLower.
  - apply toLowerCase_isLower.
Qed.

Lemma splitLast_app (s u d : string) : splitLast s = Some (u, d) -> s = u +:+ d.
Proof.
  revert u d. induction s as [|c t IH]; intros u d; [done |]. cbn [splitLast].
  destruct (splitLast t) as [[u' d']|].
  - intros [= <- <-]. cbn. f_equal. by apply IH.
  - destruct (Ascii.eqb c "@"); [|done]. by intros [= <- <-].
Qed.

Lemma lookupOrder_allChars (p : ascii -> bool) (key : string) :
  p "@"%char = true -> allChars p key = true ->
  Forall (fun k => allChars p k = true) (lookupOrder key).
Proof.
  intros Hat Hkey. unfold lookupOrder. apply Forall_cons. split; [done |].
  apply Forall_app. split; [| by repeat constructor; cbn; rewrite Hat].
  destruct (splitLast key) as [[u d]|] eqn:Hs.
  - apply splitLast_app in Hs. subst key. rewrite allChars_app in Hkey.
    apply andb_prop in Hkey as [Hu Hd]. apply Forall_cons. split; [done |].
    destruct u; by repeat constructor.
  - destruct key; by repeat constructor.
Qed.

Lemma firstRule_agree (fm1 fm2 : gmap string (list string)) (keys : list string) :
  Forall (fun k => fm1 !! k = fm2 !! k) keys ->
  firstRule fm1 keys = firstRule fm2 keys.
Proof.
  induction 1 as [|k keys Hk _ IH]; [done |]. cbn [firstRule]. by rewrite Hk, IH.
Qed.

Lemma forwardOne_agree (cfg1 cfg2 : Config) (acc : Forwarding) (r : string) :
  allowPlusSign cfg1 = allowPlusSign cfg2 ->
  (forall k, toLowerCase k = k -> forwardMapping cfg1 !! k = forwardMapping cfg2 !! k) ->
  forwardOne cfg1 acc r = forwardOne cfg2 acc r.
Proof.
  intros Hplus Hfm. rewrite !forwardOne_firstRule.
  assert (Hkey : origEmailKey cfg1 r = origEmailKey cfg2 r).
  { by rewrite !origEmailKey_stripTag, Hplus. }
  rewrite Hkey.
  rewrite (firstRule_agree (forwardMapping cfg1) (forwardMapping cfg2)); [done |].
  eapply Forall_impl; [apply (lookupOrder_allChars isLower); [done |] |].
  - apply origEmailKey_isLower.
  - intros k Hk. apply Hfm. by apply allChars_isLower.
Qed.

Lemma forwardAll_agree (cfg1 cfg2 : Config) (rs : list string) :
  allowPlusSign cfg1 = allowPlusSign cfg2 ->
  (forall k, toLowerCase k = k -> forwardMapping cfg1 !! k = forwardMapping cfg2 !! k) ->
  forwardAll cfg1 rs = forwardAll cfg2 rs.
Proof.
  intros Hplus Hfm. unfold forwardAll.
  generalize {| newRecipients := []; chosen := None |}.
  induction rs as [|r rs IH]; intros acc; [done |]. cbn [foldl].
  rewrite (forwardOne_agree cfg1 cfg2) by done. apply IH.
Qed.

Lemma toLowerCase_idemp (s : string) : toLowerCase (toLowerCase s) = toLowerCase s.
Proof. apply allChars_isLower, toLowerCase_isLower. Qed.

Lemma destinations_toLowerCase (cfg : Config) (r : string) :
  destinations cfg (toLowerCase r) = destinations cfg r.
Proof.
  unfold destinations. by rewrite !origEmailKey_stripTag, toLowerCase_idemp.
Qed.

(** X11.  Every key the resolution looks up is in lower case.  So a rule whose
    key has a capital letter is never used, adding or removing one changes no
    resolution; and the destinations of recipients do not depend on the case
    the addresses are written in.  This is for a key other than
    [hasOwnProperty] and a table without that key: a rule under it would take
    the place of the method the lookups call. *)
Theorem capital_key_never_matches (cfg : Config) (k : string)
    (dests : list string) (rs : list string) :
  toLowerCase k <> k ->
  k <> "hasOwnProperty" ->
  forwardMapping cfg !! "hasOwnProperty" = None ->
  forwardAll (withRules cfg (<[k := dests]> (forwardMapping cfg))) rs =
    forwardAll cfg rs /\
  forwardAll (withRules cfg (delete k (forwardMapping cfg))) rs =
    forwardAll cfg rs /\
  newRecipients (forwardAll cfg (map toLowerCase rs)) =
    newRecipients (forwardAll cfg rs).
Proof.
  intros Hk _ _. split; [| split].
  - apply forwardAll_agree; [done |]. intros k' Hk'. cbn [forwardMapping withRules].
    apply lookup_insert_ne. by intros ->.
  - apply forwardAll_agree; [done |]. intros k' Hk'. cbn [forwardMapping withRules].
    apply lookup_delete_ne. by intros ->.
  - unfold forwardAll. rewrite !newRecipients_foldl. f_equal. f_equal.
    rewrite map_map. apply map_ext. intros r. apply destinations_toLowerCase.
Qed.

Lemma capital_key_never_matches_witness :
  forwardAll (withRules defaultConfig
                (<["Info@partypunchband.com" := ["x@y.z"]]> (forwardMapping defaultConfig)))
    ["Info@partypunchband.com"] =
  forwardAll defaultConfig ["Info@partypunchband.com"].
Proof.
  apply (capital_key_never_matches defaultConfig "Info@partypunchband.com"
           ["x@y.z"] ["Info@partypunchband.com"]).
  - vm_compute. discriminate.
  - discriminate.
  - vm_compute. reflexivity.
Defined.

(** ** The catch-all *)

Lemma firstRule_catch_all (fm : gmap string (list string)) (key : string)
    (dests : list string) :
  fm !! "@" = Some dests ->
  exists d k, firstRule fm (lookupOrder key) = Some d /\ fm !! k = Some d.
Proof.
  intros Hat. unfold lookupOrder.
  assert (Hgen : forall keys, exists d k,
            firstRule fm (keys ++ ["@"]) = Some d /\ fm !! k = Some d).
  { induction keys as [|k keys IH]; cbn [app firstRule].
    - rewrite Hat. by exists dests, "@".
    - destruct (fm !! k) as [d|] eqn:Hk; [by exists d, k | apply IH]. }
  apply (Hgen (key :: _)).
Qed.

(** X12.  With a catch-all rule every recipient produces a match, so the
    original recipient recorded is the last one of the list; and if no rule
    has an empty destination list, a run with a recipient never takes the
    early exit. *)
Theorem catch_all_takes_every_recipient (cfg : Config) (dests : list string)
    (rs : list string) :
  forwardMapping cfg !! "@" = Some dests ->
  (forall r, recorded cfg r = true) /\
  chosen (forwardAll cfg rs) = last rs /\
  ((forall k d, forwardMapping cfg !! k = Some d -> d <> []) ->
   rs <> [] -> newRecipients (forwardAll cfg rs) <> []).
Proof.
  intros Hat.
  assert (Hrec : forall r, recorded cfg r = true).
  { intros r. unfold recorded. rewrite forwardOne_firstRule.
    destruct (firstRule_catch_all (forwardMapping cfg) (origEmailKey cfg r) dests Hat)
      as (d & k & -> & _). done. }
  split; [exact Hrec |]. split.
  - unfold forwardAll. rewrite chosen_foldl.
    assert (Hall : List.filter (recorded cfg) rs = rs).
    { induction rs as [|r rs IH]; [done |]. cbn [List.filter].
      by rewrite Hrec, IH. }
    rewrite Hall. by destruct (last rs).
  - intros Hne Hrs. unfold forwardAll. rewrite newRecipients_foldl.
    destruct rs as [|r rs]; [done |]. cbn [map concat newRecipients app].
    unfold destinations at 1.
    destruct (firstRule_catch_all (forwardMapping cfg) (origEmailKey cfg r) dests Hat)
      as (d & k & -> & Hk). cbn [default].
    specialize (Hne k d Hk). destruct d; [done |]. done.
Qed.

Lemma catch_all_takes_every_recipient_witness :
  chosen (forwardAll defaultConfig ["a@b.c"; "d@e.f"]) = last ["a@b.c"; "d@e.f"].
Proof.
  apply (catch_all_takes_every_recipient defaultConfig
           ["chad.kouse@gmail.com"; "bryanshutts@icloud.com"; "haley.voelkl@gmail.com"]
           ["a@b.c"; "d@e.f"]).
  reflexivity.
Defined.

(** * More on the header rewrite *)

(** ** The split of header and body *)

Lemma charEq_CR (fl : flags) (a : ascii) : charEq fl a CR = Ascii.eqb a CR.
Proof.
  unfold charEq. destruct (ignoreCase fl); [|done].
  by destruct a as [[] [] [] [] [] [] [] []].
Qed.

Lemma charEq_LF (fl : flags) (a : ascii) : charEq fl a LF = Ascii.eqb a LF.
Proof.
  unfold charEq. destruct (ignoreCase fl); [|done].
  by destruct a as [[] [] [] [] [] [] [] []].
Qed.

(** A line end, with or without the ignoreCase flag. *)
Lemma eol_yields (fl : flags) (e s r1 : string) (q : option ascii)
    (cs cs1 : gmap nat string) (k : cont) :
  isEol e = true ->
  (forall q', yields (k (State q' s cs)) r1 cs1) ->
  yields (matcher fl optCR (State q (e +:+ s) cs)
            (fun y => matcher fl (Chr LF) y k)) r1 cs1.
Proof.
  intros He Hk. unfold optCR. rewrite matcher_Opt, clear_nil, matcher_Chr.
  destruct (Hk (Some LF)) as [q' Hq'].
  destruct (isEol_cases e He) as [-> | ->].
  - change (str LF +:+ s) with (String LF s).
    rewrite single_cons. cbn beta. rewrite charEq_CR.
    change (Ascii.eqb LF CR) with false. cbn iota.
    rewrite matcher_Chr, single_cons. cbn beta. rewrite charEq_LF.
    change (Ascii.eqb LF LF) with true. cbn iota. by exists q'.
  - change (CRLF +:+ s) with (String CR (String LF s)).
    rewrite single_cons. cbn beta. rewrite charEq_CR.
    change (Ascii.eqb CR CR) with true. cbn iota.
    rewrite advanced_cons, matcher_Chr, single_cons. cbn beta.
    rewrite charEq_LF.
    change (Ascii.eqb LF LF) with true. cbn iota. rewrite Hq'. by exists q'.
Qed.

Lemma plus_dot_yields (fl : flags) (a : ascii) (c r r1 : string)
    (q : option ascii) (cs cs1 : gmap nat string) (k : cont) :
  allChars plain (String a c) = true ->
  atLineEnd r = true ->
  (forall q', yields (k (State q' r cs)) r1 cs1) ->
  yields (matcher fl (Plus true Dot) (State q (String a c +:+ r) cs) k) r1 cs1.
Proof.
  intros Hc Hr Hk. cbn [allChars] in Hc. apply andb_prop in Hc as [Ha Hc].
  rewrite matcher_Plus, clear_nil, matcher_Dot.
  change (String a c +:+ r) with (String a (c +:+ r)).
  rewrite single_cons, Ha. cbn [rest groupsOf].
  destruct (Hk (prevAfter (Some a) c)) as [q' Hq'].
  exists q'. 
  assert (Hm : forall n x kk, repeat true [] (matcher fl Dot) n x kk =
                              repeat true [] (single plain) n x kk) by done.
  rewrite Hm. apply (greedy_run plain); try done.
  - by apply atLineEnd_stops_plain.
  - rewrite length_app. lia.
Qed.

Lemma plus_dot_fails (fl : flags) (r : string) (q : option ascii)
    (cs : gmap nat string) (k : cont) :
  atLineEnd r = true ->
  matcher fl (Plus true Dot) (State q r cs) k = None.
Proof.
  intros Hr. rewrite matcher_Plus, clear_nil, matcher_Dot.
  destruct r as [|t r]; [done |]. rewrite single_cons.
  cbn [atLineEnd] in Hr. unfold plain. by rewrite Hr.
Qed.

Lemma block_length_pos (c e : string) :
  isEol e = true -> 0 < String.length (c +:+ e).
Proof.
  intros He. rewrite length_app.
  destruct (isEol_cases e He) as [-> | ->]; cbn; lia.
Qed.

(** One header line. *)
Lemma headerLine_yields (fl : flags) (ln : string * string) (s r1 : string)
    (q : option ascii) (cs cs1 : gmap nat string) (k : cont) :
  headerLineOk ln = true ->
  (forall q', yields (k (State q' s cs)) r1 cs1) ->
  yields (matcher fl headerLineRe (State q (ln.1 +:+ ln.2 +:+ s) cs) k) r1 cs1.
Proof.
  destruct ln as [c e]. unfold headerLineOk, textLineOk. cbn [fst snd].
  intros [Hne [Hc He]%andb_prop]%andb_prop Hk.
  destruct c as [|a c]; [done |].
  unfold headerLineRe. rewrite matcher_Cat.
  apply plus_dot_yields; [done | by apply atLineEnd_eol |].
  intros q'. rewrite matcher_Cat. by apply eol_yields.
Qed.

(** The header lines, up to the blank line. *)
Lemma headerLines_yield (fl : flags) (lines : list (string * string))
    (s r1 : string) (fuel : nat) (q : option ascii) (cs cs1 : gmap nat string)
    (k : cont) :
  forallb headerLineOk lines = true ->
  atLineEnd s = true ->
  String.length (block lines +:+ s) <= fuel ->
  (forall q', yields (k (State q' s cs)) r1 cs1) ->
  yields (repeat true [] (matcher fl headerLineRe) fuel
            (State q (block lines +:+ s) cs) k) r1 cs1.
Proof.
  intros Hl Hs Hfuel Hk. revert fuel q Hfuel.
  induction lines as [|[c e] lines IH]; intros fuel q Hfuel.
  - change (block [] +:+ s) with s in *.
    destruct fuel as [|n]; [apply Hk |].
    rewrite repeat_greedy, clear_nil. unfold headerLineRe at 1.
    rewrite matcher_Cat, plus_dot_fails by done. apply Hk.
  - cbn [forallb] in Hl. apply andb_prop in Hl as [Hln Hl].
    cbn [block] in *.
    replace ((c +:+ e +:+ block lines) +:+ s)
      with (c +:+ e +:+ (block lines +:+ s)) in * by (by rewrite !app_assoc).
    assert (Hlen : 0 < String.length (c +:+ e)).
    { unfold headerLineOk, textLineOk in Hln. cbn [fst snd] in Hln.
      apply andb_prop in Hln as [_ [_ He]%andb_prop]. by apply block_length_pos. }
    rewrite <- app_assoc, length_app in Hfuel.
    destruct fuel as [|n]; [lia |].
    rewrite repeat_greedy, clear_nil.
    set (t := block lines +:+ s) in *.
    assert (Hiter : yields (matcher fl headerLineRe (State q (c +:+ e +:+ t) cs)
      (fun y => if advanced (State q (c +:+ e +:+ t) cs) y
                then repeat true [] (matcher fl headerLineRe) n y k else None)) r1 cs1).
    { apply (headerLine_yields fl (c, e)); [done |].
      intros q'. unfold advanced. cbn [rest]. rewrite <- app_assoc, length_app.
      destruct (Nat.ltb_spec (String.length t)
                  (String.length (c +:+ e) + String.length t)); [|lia].
      apply (IH Hl). lia. }
    destruct Hiter as [q' ->]. by exists q'.
Qed.

(** *** Texts and their white space *)

Lemma span_plain (s : string) :
  exists v r, s = v +:+ r /\ allChars plain v = true /\ atLineEnd r = true.
Proof.
  induction s as [|a s (v & r & -> & Hv & Hr)].
  - by exists EmptyString, EmptyString.
  - destruct (plain a) eqn:Ha.
    + exists (String a v), r. cbn [allChars]. by rewrite Ha, Hv.
    + exists EmptyString, (String a (v +:+ r)). cbn [atLineEnd allChars].
      unfold plain in Ha. apply negb_false_iff in Ha. by rewrite Ha.
Qed.

Lemma span_space (s : string) :
  exists w r, s = w +:+ r /\ allChars isSpace w = true /\ endsFolding r = true.
Proof.
  induction s as [|a s (w & r & -> & Hw & Hr)].
  - by exists EmptyString, EmptyString.
  - destruct (isSpace a) eqn:Ha.
    + exists (String a w), r. cbn [allChars]. by rewrite Ha, Hw.
    + exists EmptyString, (String a (w +:+ r)). cbn [endsFolding allChars].
      by rewrite Ha.
Qed.

Lemma hasSpace_app (a b : string) : hasSpace (a +:+ b) = hasSpace a || hasSpace b.
Proof. induction a as [|c a IH]; [done |]. cbn. by rewrite IH, orb_assoc. Qed.

Lemma last_space (v : string) :
  hasSpace v = true ->
  exists a s b, v = a +:+ String s b /\ isSpace s = true /\ hasSpace b = false.
Proof.
  induction v as [|c v IH]; [done |]. cbn [hasSpace].
  destruct (hasSpace v) eqn:Hv.
  - intros _. destruct (IH eq_refl) as (a & s & b & -> & Hs & Hb).
    by exists (String c a), s, b.
  - rewrite orb_false_r. intros Hc. by exists EmptyString, c, v.
Qed.

Lemma afterLastSpace_space (a : string) (s : ascii) (b : string) :
  isSpace s = true -> afterLastSpace (a +:+ String s b) = afterLastSpace b.
Proof.
  intros Hs. induction a as [|c a IH].
  - cbn. by rewrite Hs.
  - change (String c a +:+ ?x) with (String c (a +:+ x)). cbn [afterLastSpace].
    rewrite hasSpace_app. cbn [hasSpace]. by rewrite Hs, !orb_true_r.
Qed.

Lemma afterLastSpace_none (b : string) : hasSpace b = false -> afterLastSpace b = b.
Proof. destruct b as [|c b]; [done |]. cbn. by intros ->. Qed.

Lemma afterLastSpace_spaces (w r : string) :
  allChars isSpace w = true -> afterLastSpace (w +:+ r) = afterLastSpace r.
Proof.
  induction w as [|c w IH]; [done |]. cbn [allChars].
  intros [Hc Hw]%andb_prop.
  change (String c w +:+ r) with (String c (w +:+ r)). cbn [afterLastSpace].
  by rewrite Hc, IH.
Qed.

Lemma upto_after (s : string) : uptoLastSpace s +:+ afterLastSpace s = s.
Proof.
  induction s as [|c s IH]; [done |]. cbn.
  destruct (isSpace c || hasSpace s); [|done]. cbn. by rewrite IH.
Qed.

Lemma hasSpace_drop (i : nat) (b : string) :
  hasSpace b = false -> endsFolding (drop i b) = true.
Proof.
  revert b. induction i as [|i IH]; intros b Hb.
  - destruct b as [|c b]; [done |]. cbn in *.
    apply orb_false_elim in Hb as [-> _]. done.
  - destruct b as [|c b]; [done |]. cbn in *.
    apply orb_false_elim in Hb as [_ Hb]. by apply IH.
Qed.

Lemma allChars_plain_app (a : string) (s : ascii) (b : string) :
  allChars plain (a +:+ String s b) = true -> allChars plain a = true.
Proof. rewrite allChars_app. by intros [? _]%andb_prop. Qed.

(** *** A greedy run that has to give characters back *)

Lemma greedy_all_fail (p : ascii -> bool) (fuel : nat) (b : string)
    (q : option ascii) (cs : gmap nat string) (C : cont) :
  (forall q' i, C (State q' (drop i b) cs) = None) ->
  repeat true [] (single p) fuel (State q b cs) C = None.
Proof.
  revert b q. induction fuel as [|n IH]; intros b q HC.
  - apply (HC q 0).
  - rewrite repeat_greedy, clear_nil.
    assert (Hx : C (State q b cs) = None) by apply (HC q 0).
    destruct b as [|c b]; [by rewrite single_empty |].
    rewrite single_cons. destruct (p c); [|done].
    rewrite advanced_cons, IH; [done |].
    intros q' i. apply (HC q' (S i)).
Qed.

Lemma greedy_backtrack (p : ascii -> bool) (a b : string) (fuel : nat)
    (q : option ascii) (cs : gmap nat string) (C : cont) (z : state) :
  allChars p a = true ->
  String.length a <= fuel ->
  (forall q' i, C (State q' (drop (S i) b) cs) = None) ->
  C (State (prevAfter q a) b cs) = Some z ->
  repeat true [] (single p) fuel (State q (a +:+ b) cs) C = Some z.
Proof.
  revert fuel q. induction a as [|c a IH]; intros fuel q Ha Hfuel Hfail HC.
  - change (EmptyString +:+ b) with b. change (prevAfter q EmptyString) with q in HC.
    destruct fuel as [|n]; [exact HC |].
    rewrite repeat_greedy, clear_nil.
    destruct b as [|c b]; [by rewrite single_empty |].
    rewrite single_cons. destruct (p c); [|done].
    rewrite advanced_cons, greedy_all_fail; [done |].
    intros q' i. apply (Hfail q' i).
  - cbn [allChars] in Ha. apply andb_prop in Ha as [Hc Ha].
    cbn [String.length] in Hfuel. destruct fuel as [|n]; [lia |].
    change (String c a +:+ b) with (String c (a +:+ b)).
    rewrite repeat_greedy, clear_nil, single_cons, Hc, advanced_cons.
    rewrite (IH n (Some c)); try done.
    + lia.
    + by rewrite <- (prevAfter_cons q).
Qed.

(** *** The body *)

Lemma bodyChunks_yield (fl : flags) (n : nat) :
  forall (body r1 : string) (fuel : nat) (q : option ascii)
         (cs cs1 : gmap nat string) (k : cont),
  String.length body <= n ->
  String.length body <= fuel ->
  (forall q', yields (k (State q' (afterLastSpace body) cs)) r1 cs1) ->
  yields (repeat true [] (matcher fl bodyChunk) fuel (State q body cs) k) r1 cs1.
Proof.
  induction n as [|n IH]; intros body r1 fuel q cs cs1 k Hn Hfuel Hk.
  { destruct body; [|cbn in Hn; lia].
    destruct fuel as [|f]; [apply Hk |].
    rewrite repeat_greedy, clear_nil. unfold bodyChunk.
    rewrite matcher_Cat, matcher_Star. cbn [rest String.length].
    cbn [repeat]. rewrite indent_fails by done. apply Hk. }
  destruct fuel as [|f].
  { destruct body; [apply Hk | cbn in Hfuel; lia]. }
  rewrite repeat_greedy, clear_nil.
  set (x := State q body cs).
  set (K := fun y : state =>
              if advanced x y then repeat true [] (matcher fl bodyChunk) f y k
              else None).
  assert (Hsmall : forall q' s,
            String.length s < String.length body ->
            afterLastSpace s = afterLastSpace body ->
            yields (K (State q' s cs)) r1 cs1).
  { intros q' s Hlen Hafter. unfold K, advanced, x. cbn [rest].
    destruct (Nat.ltb_spec (String.length s) (String.length body)); [|lia].
    apply IH; [lia | lia |]. by rewrite Hafter. }
  assert (Hdot : forall m y kk, repeat true [] (matcher fl Dot) m y kk =
                                repeat true [] (single plain) m y kk) by done.
  assert (Hsp : forall m y kk, repeat true [] (matcher fl Space) m y kk =
                               repeat true [] (single isSpace) m y kk) by done.
  unfold bodyChunk. rewrite matcher_Cat.
  destruct (span_plain body) as (v & r & Hbody & Hv & Hr).
  destruct r as [|t r].
  - (* one line, without a line end *)
    rewrite app_empty_r in Hbody. subst v.
    destruct (hasSpace body) eqn:Hhas.
    + destruct (last_space body Hhas) as (a & s & b & Hb & Hs & Hnone).
      assert (Hlen : String.length b < String.length body).
      { rewrite Hb, length_app. cbn. lia. }
      destruct (Hsmall (Some s) b Hlen) as [q2 Hq2].
      { by rewrite Hb, afterLastSpace_space. }
      rewrite matcher_Star, Hdot. unfold x at 1 2. cbn [rest].
      rewrite Hb at 2.
      rewrite (greedy_backtrack plain a (String s b) (String.length body) q cs _
                 (State q2 r1 cs1)).
      * by exists q2.
      * rewrite Hb in Hv. by apply allChars_plain_app in Hv.
      * rewrite Hb, length_app. lia.
      * intros q' i. cbn [drop]. apply indent_fails. by apply hasSpace_drop.
      * rewrite matcher_Plus, clear_nil, matcher_Space, single_cons, Hs.
        cbn [rest groupsOf]. rewrite Hsp.
        apply (greedy_run isSpace EmptyString b); try done.
        -- pose proof (hasSpace_drop 0 b Hnone) as H0. by destruct b.
        -- cbn. lia.
    + rewrite matcher_Star, Hdot. unfold x at 1 2. cbn [rest].
      rewrite greedy_all_fail.
      * unfold x. specialize (Hk q). by rewrite afterLastSpace_none in Hk.
      * intros q' i. apply indent_fails. by apply hasSpace_drop.
  - (* a line and its line end *)
    cbn [atLineEnd] in Hr.
    assert (Ht : isSpace t = true).
    { by destruct (isLineTerminator_cases t Hr) as [-> | ->]. }
    destruct (span_space r) as (w & r' & -> & Hw & Hr').
    assert (Hlen : String.length r' < String.length body).
    { rewrite Hbody, !length_app. cbn. rewrite length_app. lia. }
    assert (Hiter : yields
      (matcher fl (Star true Dot) x (fun y => matcher fl (Plus true Space) y K))
      r1 cs1).
    { unfold x. rewrite Hbody. apply star_dot_yields; [done | done |].
      intros q'. rewrite matcher_Plus, clear_nil, matcher_Space, single_cons, Ht.
      cbn [rest groupsOf]. rewrite Hsp.
      destruct (Hsmall (prevAfter (Some t) w) r' Hlen) as [q2 Hq2].
      { by rewrite Hbody, afterLastSpace_space, afterLastSpace_spaces. }
      exists q2. apply (greedy_run isSpace); [done | | | done].
      - destruct r' as [|c r']; [done |]. cbn in Hr'. done.
      - rewrite length_app. lia. }
    destruct Hiter as [q' ->]. by exists q'.
Qed.

(** *** The whole pattern *)

Lemma splitRe_parts :
  splitRe =
  Cat Bol (Cat (Group 1 (Star true headerLineRe))
               (Group 2 (Cat optCR (Cat (Chr LF) (Star true bodyChunk))))).
Proof. reflexivity. Qed.

Lemma matchAt_split (p : option ascii) (lines : list (string * string))
    (e body : string) :
  startsLine p = true ->
  forallb headerLineOk lines = true ->
  isEol e = true ->
  matchAt mFlags splitRe p
    ((block lines +:+ e +:+ uptoLastSpace body) +:+ afterLastSpace body) =
  Some (Hit (block lines +:+ e +:+ uptoLastSpace body) (afterLastSpace body)
          (<[2 := e +:+ uptoLastSpace body]> (<[1 := block lines]> ∅))).
Proof.
  intros Hp Hl He. apply matchAt_yields. rewrite splitRe_parts.
  rewrite !app_assoc, upto_after.
  rewrite matcher_Cat, matcher_Bol.
  assert (atLineStart mFlags (State p (block lines +:+ e +:+ body) ∅) = true) as ->.
  { unfold atLineStart. cbn [prev]. by destruct p. }
  rewrite matcher_Cat, matcher_Group, matcher_Star. cbn [rest].
  apply headerLines_yield; [done | by apply atLineEnd_eol | done |].
  intros q1. unfold consumed. cbn [prev rest caps].
  rewrite take_consumed.
  rewrite matcher_Group, matcher_Cat.
  change (fun y => matcher mFlags (Cat (Chr LF) ?t) y ?kk)
    with (fun y => matcher mFlags (Chr LF) y (fun y' => matcher mFlags t y' kk)).
  apply eol_yields; [done |]. intros q2.
  rewrite matcher_Star. cbn [rest].
  apply (bodyChunks_yield mFlags (String.length body)); [done | done |].
  intros q3. exists q3. unfold consumed. cbn [prev rest caps].
  do 3 f_equal.
  replace (e +:+ body) with ((e +:+ uptoLastSpace body) +:+ afterLastSpace body)
    by (by rewrite app_assoc, upto_after).
  apply take_consumed.
Qed.

Lemma exec_split (lines : list (string * string)) (e body : string) :
  forallb headerLineOk lines = true ->
  isEol e = true ->
  exec mFlags splitRe (block lines +:+ e +:+ body) =
  Some (EmptyString,
        Hit (block lines +:+ e +:+ uptoLastSpace body) (afterLastSpace body)
          (<[2 := e +:+ uptoLastSpace body]> (<[1 := block lines]> ∅))).
Proof.
  intros Hl He. pose proof (matchAt_split None lines e body eq_refl Hl He) as Hm.
  rewrite !app_assoc, upto_after in Hm. unfold exec.
  destruct (block lines +:+ e +:+ body); cbn [search]; by rewrite Hm.
Qed.

Lemma block_nonempty (ln : string * string) (lines : list (string * string)) :
  headerLineOk ln = true -> exists a s, block (ln :: lines) = String a s.
Proof.
  destruct ln as [c e]. unfold headerLineOk. cbn [fst snd block].
  destruct c as [|a c]; [done |]. intros _. by eexists _, _.
Qed.

Lemma endsInSpace_upto (body : string) :
  endsInSpace body = true -> uptoLastSpace body = body.
Proof.
  unfold endsInSpace. induction body as [|c body IH]; [done |].
  cbn [uptoLastSpace]. destruct body as [|d body].
  - cbn. by intros ->.
  - intros Hlast. change (lastChar (String c (String d body)))
      with (lastChar (String d body)) in Hlast.
    rewrite IH by done.
    assert (Hhas : hasSpace (String d body) = true).
    { clear IH. revert d Hlast. induction body as [|x body IHb]; intros d Hlast.
      - cbn in *. by rewrite Hlast.
      - change (lastChar (String d (String x body)))
          with (lastChar (String x body)) in Hlast.
        change (hasSpace (String d (String x body)))
          with (isSpace d || hasSpace (String x body)).
        rewrite (IHb x Hlast). apply orb_true_r. }
    by rewrite Hhas, orb_true_r.
Qed.

Lemma split_block (lines : list (string * string)) (e body : string) :
  forallb headerLineOk lines = true ->
  isEol e = true ->
  let text := block lines +:+ e +:+ body in
  splitHeader text = (if lines is [] then text else block lines) /\
  splitBody text = e +:+ uptoLastSpace body.
Proof.
  intros Hl He text. split.
  - unfold splitHeader, text. rewrite (exec_split lines e body Hl He).
    cbn [group mbind option_bind snd captures].
    rewrite lookup_insert_ne, lookup_insert_eq by done.
    destruct lines as [|ln lines]; [done |].
    cbn [forallb] in Hl. apply andb_prop in Hl as [Hln _].
    destruct (block_nonempty ln lines Hln) as (a & s & ->). done.
  - unfold splitBody, text. rewrite (exec_split lines e body Hl He).
    cbn [group mbind option_bind snd captures]. rewrite lookup_insert_eq.
    by destruct (isEol_cases e He) as [-> | ->].
Qed.

Lemma rewriteMessage_block (cfg : Config) (orig : option string)
    (lines : list (string * string)) (e body : string) :
  forallb headerLineOk lines = true ->
  isEol e = true ->
  endsInSpace body = true ->
  lines <> [] ->
  (rewriteMessage cfg orig (block lines +:+ e +:+ body)).2 =
  (rewriteHeader cfg orig (block lines)).2 +:+ e +:+ body.
Proof.
  intros Hl He Hend Hne. destruct (split_block lines e body Hl He) as [Hh Hb].
  unfold rewriteMessage. rewrite Hh, Hb, (endsInSpace_upto body Hend).
  destruct lines as [|ln lines]; [done |].
  by destruct (rewriteHeader cfg orig (block (ln :: lines))).
Qed.

(** X13.  A message made of header lines (each a non-empty text without a line
    break, and a line end), a blank line and a body is split at the blank
    line: the header block is the header lines, and the body is the blank line
    and the body text up to and with its last white-space character.  So a
    body that is empty or ends with white space (a final line end) comes
    through whole, and then the message that leaves is the rewritten header
    block followed by the blank line and that body.  A message that begins
    with the blank line has no header block of its own: the whole message is
    taken for it. *)
Theorem split_at_blank_line (lines : list (string * string)) (e body : string) :
  forallb headerLineOk lines = true ->
  isEol e = true ->
  let text := block lines +:+ e +:+ body in
  splitHeader text = (if lines is [] then text else block lines) /\
  splitBody text = e +:+ uptoLastSpace body /\
  (endsInSpace body = true ->
   splitBody text = e +:+ body /\
   forall cfg orig,
     lines <> [] ->
     (rewriteMessage cfg orig text).2 =
     (rewriteHeader cfg orig (block lines)).2 +:+ e +:+ body).
Proof.
  intros Hl He text. destruct (split_block lines e body Hl He) as [Hh Hb].
  split; [exact Hh |]. split; [exact Hb |].
  intros Hend. split.
  - fold text in Hb. by rewrite Hb, (endsInSpace_upto body Hend).
  - intros cfg orig Hne. by apply rewriteMessage_block.
Qed.

Lemma split_at_blank_line_witness :
  splitHeader (block [("Subject: Hi", CRLF)] +:+ CRLF +:+ "Body text") =
    block [("Subject: Hi", CRLF)] /\
  splitBody (block [("Subject: Hi", CRLF)] +:+ CRLF +:+ "Body text") =
    CRLF +:+ uptoLastSpace "Body text".
Proof.
  destruct (split_at_blank_line [("Subject: Hi", CRLF)] CRLF "Body text")
    as (H1 & H2 & _); [reflexivity | reflexivity |].
  exact (conj H1 H2).
Defined.

(** ** Messages without a blank line *)

Section NoBlankLine.
Context (fl : flags).

Lemma eol_fails_start (v : string) (q : option ascii) (cs : gmap nat string)
    (k : cont) :
  startsPlain v = true ->
  matcher fl optCR (State q v cs) (fun y => matcher fl (Chr LF) y k) = None.
Proof.
  intros Hv. unfold optCR. rewrite matcher_Opt, clear_nil, !matcher_Chr.
  destruct v as [|a v]; [by rewrite !single_empty |].
  cbn [startsPlain] in Hv. rewrite !single_cons. cbn beta.
  rewrite charEq_CR, charEq_LF.
  unfold plain, isLineTerminator in Hv. apply negb_true_iff in Hv.
  apply orb_false_elim in Hv as [-> ->]. done.
Qed.

Lemma eol_then_fails (e s : string) (q : option ascii) (cs : gmap nat string)
    (k : cont) :
  isEol e = true ->
  (forall q', k (State q' s cs) = None) ->
  matcher fl optCR (State q (e +:+ s) cs) (fun y => matcher fl (Chr LF) y k) = None.
Proof.
  intros He Hk. unfold optCR. rewrite matcher_Opt, clear_nil, matcher_Chr.
  destruct (isEol_cases e He) as [-> | ->].
  - change (str LF +:+ s) with (String LF s).
    rewrite single_cons. cbn beta. rewrite charEq_CR.
    change (Ascii.eqb LF CR) with false. cbn iota.
    rewrite matcher_Chr, single_cons. cbn beta. rewrite charEq_LF.
    change (Ascii.eqb LF LF) with true. cbn iota. apply Hk.
  - change (CRLF +:+ s) with (String CR (String LF s)).
    rewrite single_cons. cbn beta. rewrite charEq_CR.
    change (Ascii.eqb CR CR) with true. cbn iota.
    rewrite advanced_cons, matcher_Chr, single_cons. cbn beta.
    rewrite charEq_LF.
    change (Ascii.eqb LF LF) with true. cbn iota. rewrite Hk.
    rewrite matcher_Chr, single_cons. cbn beta. rewrite charEq_LF.
    by change (Ascii.eqb CR LF) with false.
Qed.

(** A greedy run that ends where its class ends, and after which the match
    cannot go on wherever the run is cut. *)
Lemma greedy_stops_fail (p : ascii -> bool) (v r : string) (fuel : nat)
    (q : option ascii) (cs : gmap nat string) (C : cont) :
  allChars p v = true ->
  match r with EmptyString => true | String a _ => negb (p a) end = true ->
  (forall q' i, C (State q' (drop i v +:+ r) cs) = None) ->
  repeat true [] (single p) fuel (State q (v +:+ r) cs) C = None.
Proof.
  revert fuel q. induction v as [|c v IH]; intros fuel q Hv Hr HC.
  - change (EmptyString +:+ r) with r.
    assert (Hx : C (State q r cs) = None) by apply (HC q 0).
    destruct fuel as [|n]; [exact Hx |].
    rewrite repeat_greedy, clear_nil. destruct r as [|a r].
    + by rewrite single_empty.
    + rewrite single_cons. apply negb_true_iff in Hr. by rewrite Hr.
  - cbn [allChars] in Hv. apply andb_prop in Hv as [Hc Hv].
    assert (Hx : C (State q (String c v +:+ r) cs) = None) by apply (HC q 0).
    destruct fuel as [|n]; [exact Hx |].
    change (String c v +:+ r) with (String c (v +:+ r)) in *.
    rewrite repeat_greedy, clear_nil, single_cons, Hc, advanced_cons.
    rewrite IH; [done | done | done |].
    intros q' i. apply (HC q' (S i)).
Qed.

Lemma startsPlain_drop (i : nat) (v r : string) :
  allChars plain v = true ->
  drop i v <> EmptyString ->
  startsPlain (drop i v +:+ r) = true.
Proof.
  intros Hv Hne. pose proof (allChars_drop plain i v Hv) as Hd.
  destruct (drop i v) as [|b w]; [done |]. cbn [allChars] in Hd.
  by apply andb_prop in Hd as [Hb _].
Qed.

(** A header line after which the match cannot go on. *)
Lemma headerLine_fails_through (ln : string * string) (t : string)
    (q : option ascii) (cs : gmap nat string) (K : cont) :
  headerLineOk ln = true ->
  (forall q', K (State q' t cs) = None) ->
  matcher fl headerLineRe (State q (ln.1 +:+ ln.2 +:+ t) cs) K = None.
Proof.
  destruct ln as [c e]. unfold headerLineOk, textLineOk. cbn [fst snd].
  intros [Hne [Hc He]%andb_prop]%andb_prop HK.
  unfold headerLineRe. rewrite matcher_Cat, matcher_Plus, clear_nil, matcher_Dot.
  destruct c as [|a c]; [done |].
  cbn [allChars] in Hc. apply andb_prop in Hc as [Ha Hc].
  change (String a c +:+ ?x) with (String a (c +:+ x)).
  rewrite single_cons, Ha. cbn [rest groupsOf].
  assert (Hdot : forall m y kk, repeat true [] (matcher fl Dot) m y kk =
                                repeat true [] (single plain) m y kk) by done.
  rewrite Hdot. apply greedy_stops_fail; [done | |].
  - by destruct (isEol_cases e He) as [-> | ->].
  - intros q' i. rewrite matcher_Cat.
    destruct (drop i c) as [|b w] eqn:Hd.
    + change (EmptyString +:+ ?x) with x. by apply eol_then_fails.
    + rewrite <- Hd. apply eol_fails_start. apply startsPlain_drop; [done |].
      by rewrite Hd.
Qed.

(** No header line can be read from a text without a line end. *)
Lemma headerLine_fails_plain (v : string) (q : option ascii)
    (cs : gmap nat string) (K : cont) :
  allChars plain v = true ->
  matcher fl headerLineRe (State q v cs) K = None.
Proof.
  intros Hv. unfold headerLineRe.
  rewrite matcher_Cat, matcher_Plus, clear_nil, matcher_Dot.
  destruct v as [|a v]; [by rewrite single_empty |].
  cbn [allChars] in Hv. apply andb_prop in Hv as [Ha Hv].
  rewrite single_cons, Ha. cbn [rest groupsOf].
  assert (Hdot : forall m y kk, repeat true [] (matcher fl Dot) m y kk =
                                repeat true [] (single plain) m y kk) by done.
  rewrite Hdot.
  pose proof (greedy_stops_fail plain v EmptyString (String.length v) (Some a) cs
                (fun y => matcher fl (Cat optCR (Chr LF)) y K) Hv eq_refl) as Hrun.
  rewrite app_empty_r in Hrun. apply Hrun.
  intros q' i. rewrite matcher_Cat, app_empty_r. apply eol_fails_start.
  pose proof (allChars_drop plain i v Hv) as Hd.
  destruct (drop i v) as [|b w]; [done |]. cbn [allChars] in Hd.
  by apply andb_prop in Hd as [Hb _].
Qed.

Lemma block_startsPlain (lines : list (string * string)) (last : string) :
  forallb headerLineOk lines = true ->
  allChars plain last = true ->
  startsPlain (block lines +:+ last) = true.
Proof.
  intros Hl Hlast. destruct lines as [|[c e] lines].
  - change (block [] +:+ last) with last. destruct last as [|b w]; [done |].
    cbn [allChars] in Hlast. by apply andb_prop in Hlast as [Hb _].
  - cbn [forallb] in Hl. apply andb_prop in Hl as [Hln _].
    unfold headerLineOk, textLineOk in Hln. cbn [fst snd] in Hln.
    apply andb_prop in Hln as [Hne [Hc _]%andb_prop].
    destruct c as [|a c]; [done |]. cbn [allChars] in Hc.
    apply andb_prop in Hc as [Ha _]. done.
Qed.

(** The header lines, when what follows none of them lets the match go on. *)
Lemma headerLines_fail (lines : list (string * string)) (last : string)
    (fuel : nat) (q : option ascii) (cs : gmap nat string) (k : cont) :
  forallb headerLineOk lines = true ->
  allChars plain last = true ->
  (forall q' s, startsPlain s = true -> k (State q' s cs) = None) ->
  repeat true [] (matcher fl headerLineRe) fuel
    (State q (block lines +:+ last) cs) k = None.
Proof.
  intros Hl Hlast Hk. revert fuel q.
  induction lines as [|[c e] lines IH]; intros fuel q.
  - change (block [] +:+ last) with last.
    assert (Hx : k (State q last cs) = None).
    { apply Hk. by apply (block_startsPlain []). }
    destruct fuel as [|n]; [exact Hx |].
    by rewrite repeat_greedy, clear_nil, headerLine_fails_plain.
  - assert (Hx : k (State q (block ((c, e) :: lines) +:+ last) cs) = None).
    { apply Hk. by apply block_startsPlain. }
    destruct fuel as [|n]; [exact Hx |].
    cbn [forallb] in Hl. apply andb_prop in Hl as [Hln Hl].
    rewrite repeat_greedy, clear_nil. cbn [block] in *.
    replace ((c +:+ e +:+ block lines) +:+ last)
      with (c +:+ e +:+ (block lines +:+ last)) in * by (by rewrite !app_assoc).
    rewrite (headerLine_fails_through (c, e)); [done | done |].
    intros q'. destruct (advanced _ _); [| done]. by apply IH.
Qed.

End NoBlankLine.

Lemma matchAt_split_fails (p : option ascii) (lines : list (string * string))
    (last : string) :
  forallb headerLineOk lines = true ->
  allChars plain last = true ->
  matchAt mFlags splitRe p (block lines +:+ last) = None.
Proof.
  intros Hl Hlast. unfold matchAt. rewrite splitRe_parts.
  rewrite matcher_Cat, matcher_Bol. destruct (atLineStart mFlags _); [|done].
  rewrite matcher_Cat, matcher_Group, matcher_Star. cbn [rest groupsOf].
  change (groupsOf headerLineRe) with (@nil nat).
  rewrite headerLines_fail; [done | done | done |].
  intros q' s Hs. cbn [prev rest caps].
  rewrite matcher_Group, matcher_Cat.
  change (fun y => matcher mFlags (Cat (Chr LF) ?t) y ?kk)
    with (fun y => matcher mFlags (Chr LF) y (fun y' => matcher mFlags t y' kk)).
  by apply eol_fails_start.
Qed.

Lemma matchAt_split_inside (a : ascii) (s : string) :
  plain a = true -> matchAt mFlags splitRe (Some a) s = None.
Proof.
  intros Ha. unfold matchAt. rewrite splitRe_parts, matcher_Cat, matcher_Bol.
  unfold atLineStart. cbn [prev]. unfold plain in Ha.
  apply negb_true_iff in Ha. by rewrite Ha, andb_false_r.
Qed.

Lemma search_split_inside (a t : ascii) (v s : string) :
  plain a = true ->
  allChars plain v = true ->
  search mFlags splitRe (Some a) (v +:+ String t s) =
  prepend (v +:+ str t) <$> search mFlags splitRe (Some t) s.
Proof.
  revert a. induction v as [|b v IH]; intros a Ha Hv.
  - change (EmptyString +:+ ?x) with x. cbn [search].
    rewrite matchAt_split_inside by done.
    by destruct (search mFlags splitRe (Some t) s) as [[sk h]|].
  - cbn [allChars] in Hv. apply andb_prop in Hv as [Hb Hv].
    change (String b v +:+ ?x) with (String b (v +:+ x)). cbn [search].
    rewrite matchAt_split_inside by done.
    rewrite IH by done. apply prepend_skip.
Qed.

Lemma search_split_inside_last (a : ascii) (v : string) :
  plain a = true ->
  allChars plain v = true ->
  search mFlags splitRe (Some a) v = None.
Proof.
  revert a. induction v as [|b v IH]; intros a Ha Hv.
  - cbn [search]. by rewrite matchAt_split_inside.
  - cbn [allChars] in Hv. apply andb_prop in Hv as [Hb Hv].
    cbn [search]. rewrite matchAt_split_inside by done. by rewrite IH.
Qed.

(** With LF line ends and no blank line the pattern matches nowhere. *)
Lemma search_split_none (lines : list (string * string)) (last : string)
    (p : option ascii) :
  forallb headerLineOk lines = true ->
  forallb endsWithLF lines = true ->
  allChars plain last = true ->
  search mFlags splitRe p (block lines +:+ last) = None.
Proof.
  intros Hl Hlf Hlast. revert p.
  induction lines as [|[c e] lines IH]; intros p.
  - pose proof (matchAt_split_fails p [] last eq_refl Hlast) as Hm.
    change (block [] +:+ last) with last in *.
    destruct last as [|b v]; cbn [search]; rewrite Hm; [done |].
    cbn [allChars] in Hlast. apply andb_prop in Hlast as [Hb Hv].
    by rewrite search_split_inside_last.
  - pose proof (matchAt_split_fails p ((c, e) :: lines) last Hl Hlast) as Hm.
    cbn [forallb] in Hl, Hlf. apply andb_prop in Hl as [Hln Hl].
    apply andb_prop in Hlf as [He Hlf]. unfold endsWithLF in He. cbn [snd] in He.
    apply String.eqb_eq in He. subst e.
    unfold headerLineOk, textLineOk in Hln. cbn [fst snd] in Hln.
    apply andb_prop in Hln as [Hne [Hc _]%andb_prop].
    destruct c as [|a c]; [done |]. cbn [allChars] in Hc.
    apply andb_prop in Hc as [Ha Hc]. cbn [block] in *.
    replace ((String a c +:+ str LF +:+ block lines) +:+ last)
      with (String a (c +:+ String LF (block lines +:+ last))) in *
      by (cbn; by rewrite !app_assoc).
    cbn [search]. rewrite Hm, search_split_inside by done.
    by rewrite (IH Hl Hlf).
Qed.

(** With a first line that ends with CRLF and no blank line the pattern
    matches between the two characters of that line end. *)
Lemma search_split_crlf (c : string) (lines : list (string * string))
    (last : string) :
  forallb headerLineOk ((c, CRLF) :: lines) = true ->
  allChars plain last = true ->
  let rest := block lines +:+ last in
  search mFlags splitRe None (block ((c, CRLF) :: lines) +:+ last) =
  Some (c +:+ str CR,
        Hit (str LF +:+ uptoLastSpace rest) (afterLastSpace rest)
          (<[2 := str LF +:+ uptoLastSpace rest]> (<[1 := EmptyString]> ∅))).
Proof.
  intros Hl Hlast rest.
  pose proof (matchAt_split_fails None ((c, CRLF) :: lines) last Hl Hlast) as Hm.
  cbn [forallb] in Hl. apply andb_prop in Hl as [Hln Hl].
  unfold headerLineOk, textLineOk in Hln. cbn [fst snd] in Hln.
  apply andb_prop in Hln as [Hne [Hc _]%andb_prop].
  destruct c as [|a c]; [done |]. cbn [allChars] in Hc.
  apply andb_prop in Hc as [Ha Hc]. cbn [block] in *.
  replace ((String a c +:+ CRLF +:+ block lines) +:+ last)
    with (String a (c +:+ String CR (String LF rest))) in *
    by (unfold rest; cbn; by rewrite !app_assoc).
  cbn [search]. rewrite Hm, search_split_inside by done.
  pose proof (matchAt_split (Some CR) [] (str LF) rest eq_refl eq_refl eq_refl) as Hs.
  cbn [block] in Hs. change (EmptyString +:+ ?x) with x in Hs.
  rewrite app_assoc, upto_after in Hs. change (str LF +:+ rest) with (String LF rest) in Hs.
  cbn [search]. rewrite Hs. cbn [fmap option_fmap option_map].
  unfold skip, prepend. cbn [fst snd]. by rewrite app_assoc, app_empty_r.
Qed.

(** X14.  A text of header lines without a blank line, followed by an
    unterminated rest.  When every line ends with LF alone the pattern finds
    nothing: the whole text is the header block and the body is empty.  When
    the first line ends with CRLF, the whole text is the header block as well,
    but a body is found: it begins at the LF of that line end and is the text
    after it, up to and with its last white-space character, so that this text
    leaves twice. *)
Theorem no_blank_line (lines : list (string * string)) (last : string) :
  forallb headerLineOk lines = true ->
  allChars plain last = true ->
  let text := block lines +:+ last in
  (forallb endsWithLF lines = true ->
   splitHeader text = text /\ splitBody text = EmptyString) /\
  (forall c lines',
     lines = (c, CRLF) :: lines' ->
     splitHeader text = text /\
     splitBody text = str LF +:+ uptoLastSpace (block lines' +:+ last)).
Proof.
  intros Hl Hlast text. split.
  - intros Hlf. unfold splitHeader, splitBody, exec. fold text.
    unfold text. by rewrite search_split_none.
  - intros c lines' ->. unfold splitHeader, splitBody, exec. fold text.
    unfold text. rewrite search_split_crlf by done.
    cbn [group mbind option_bind snd captures].
    rewrite lookup_insert_ne, !lookup_insert_eq by done. done.
Qed.

Lemma no_blank_line_witness :
  splitHeader (block [("From: x", CRLF); ("To: y", CRLF)] +:+ EmptyString) =
    block [("From: x", CRLF); ("To: y", CRLF)] +:+ EmptyString /\
  splitBody (block [("From: x", CRLF); ("To: y", CRLF)] +:+ EmptyString) =
    str LF +:+ uptoLastSpace (block [("To: y", CRLF)] +:+ EmptyString).
Proof.
  apply (proj2 (no_blank_line [("From: x", CRLF); ("To: y", CRLF)] EmptyString
                  eq_refl eq_refl) "From: x" [("To: y", CRLF)]).
  reflexivity.
Defined.

(** ** Header blocks without the rewritten headers *)

Section Absent.
Context (fl : flags) (Hi : ignoreCase fl = true).
Context (name : string) (tail : regex).

Lemma matchAt_absent (p : option ascii) (s : string) :
  startsLine p && startsWith name s = false ->
  matchAt fl (headerRe name tail) p s = None.
Proof.
  intros [Hp|Hs]%andb_false_iff.
  - destruct p as [a|]; [|done]. cbn [startsLine] in Hp.
    apply matchAt_inside_line. unfold plain. by rewrite Hp.
  - by apply matchAt_other_name.
Qed.

Lemma search_absent (p : option ascii) (s : string) :
  hasHeaderFrom name (startsLine p) s = false ->
  search fl (headerRe name tail) p s = None.
Proof.
  revert p. induction s as [|c t IH]; intros p Hs.
  - cbn [hasHeaderFrom] in Hs. apply orb_false_elim in Hs as [Hs _].
    cbn [search]. by rewrite matchAt_absent.
  - cbn [hasHeaderFrom] in Hs. apply orb_false_elim in Hs as [Hs Ht].
    cbn [search]. rewrite matchAt_absent by done.
    by rewrite (IH (Some c)).
Qed.

Lemma replace_absent (f : replacer) (s : string) :
  hasHeader name s = false ->
  RegExp.replace fl (headerRe name tail) f s = s.
Proof.
  intros Hs. unfold RegExp.replace, exec.
  destruct (global fl).
  - apply replaceLoop_none. by apply search_absent.
  - by rewrite search_absent.
Qed.

End Absent.

Lemma rewriteHeader_absent (cfg : Config) (orig : option string)
    (header : string) :
  forallb (fun name => negb (hasHeader name header)) rewrittenNames = true ->
  (rewriteHeader cfg orig header).2 = header /\
  (hasHeader "reply-to:" header = false ->
   (rewriteHeader cfg orig header).1 =
     [Log "info" ("Reply-To address not added because From address was not " +:+
                  "properly extracted.")]).
Proof.
  intros Hall. cbn [forallb rewrittenNames] in Hall.
  repeat match goal with
         | H : _ && _ = true |- _ => apply andb_prop in H as [?%negb_true_iff H]
         end.
  assert (Hfrom : fromValue header = EmptyString).
  { unfold fromValue, exec.
    change fromLineRe with (headerRe "from:" (Cat tabOrSpace (Group 1 fromBody))).
    by rewrite search_absent. }
  assert (Hadd : (addReplyTo header).2 = header).
  { unfold addReplyTo. rewrite Hfrom. by destruct (negb _). }
  assert (Hrest : stripHeaders (replaceTo cfg (prefixSubject cfg
                    (replaceFrom cfg orig header))) = header).
  { unfold replaceFrom.
    change fromRe with (headerRe "from:" (Cat tabOrSpace
                          (Group 1 (Cat (Star true Dot) (Star true foldBody))))).
    rewrite replace_absent by done.
    assert (Hsub : prefixSubject cfg header = header).
    { unfold prefixSubject. destruct (truthy _); [|done].
      change subjectRe with (headerRe "subject:" valueTail).
      by rewrite replace_absent. }
    assert (Hto : replaceTo cfg header = header).
    { unfold replaceTo. destruct (truthy _); [|done].
      change toRe with (headerRe "to:" valueTail).
      by rewrite replace_absent. }
    rewrite Hsub, Hto. unfold stripHeaders, remove.
    change (lineRe "return-path:") with
      (headerRe "return-path:" (Cat tabOrSpace (Cat (Group 1 (Star true Dot))
                                                  (Cat optCR (Chr LF))))).
    rewrite replace_absent by done.
    change (lineRe "sender:") with
      (headerRe "sender:" (Cat tabOrSpace (Cat (Group 1 (Star true Dot))
                                             (Cat optCR (Chr LF))))).
    rewrite replace_absent by done.
    change (lineRe "message-id:") with
      (headerRe "message-id:" (Cat tabOrSpace (Cat (Group 1 (Star true Dot))
                                                 (Cat optCR (Chr LF))))).
    rewrite replace_absent by done.
    change dkimRe with
      (headerRe "dkim-signature:"
         (Cat tabOrSpace (Cat (Star true Dot) (Cat optCR (Cat (Chr LF)
            (Star true (Group 1 (Cat (Plus true Space) (Cat (Star true Dot)
                                   (Cat optCR (Chr LF))))))))))).
    by rewrite replace_absent. }
  unfold rewriteHeader. split.
  - destruct (addReplyTo header) as [logs header'] eqn:Ha. cbn [snd] in *.
    subst header'. exact Hrest.
  - intros Hno. unfold addReplyTo. rewrite test_replyTo, Hno, Hfrom. done.
Qed.

(** X15.  A header block in which no line begins with [From:], [Subject:],
    [To:], [Return-Path:], [Sender:], [Message-ID:] or [DKIM-Signature:] (in
    any case) leaves the rewrite as it came, whatever the configuration; no
    Reply-To header is added to it, which is logged when it has none. *)
Theorem other_headers_untouched (cfg : Config) (orig : option string)
    (header : string) :
  forallb (fun name => negb (hasHeader name header)) rewrittenNames = true ->
  (rewriteHeader cfg orig header).2 = header /\
  (hasHeader "reply-to:" header = false ->
   (rewriteHeader cfg orig header).1 =
     [Log "info" ("Reply-To address not added because From address was not " +:+
                  "properly extracted.")]).
Proof. apply rewriteHeader_absent. Qed.

Lemma other_headers_untouched_witness :
  (rewriteHeader relayConfig (Some "info@x.com") ("X-Id: 1" +:+ CRLF)).2 =
  "X-Id: 1" +:+ CRLF.
Proof.
  apply (other_headers_untouched relayConfig (Some "info@x.com") ("X-Id: 1" +:+ CRLF)).
  reflexivity.
Defined.

(** X16.  A message with header lines, a blank line and a body that is empty
    or ends with white space, in which no header line begins with one of the
    rewritten names, goes through [processMessage] unchanged, byte for byte,
    whatever the configuration. *)
Theorem plain_message_unchanged (data : Data) (lines : list (string * string))
    (e body : string) :
  forallb headerLineOk lines = true ->
  lines <> [] ->
  isEol e = true ->
  endsInSpace body = true ->
  forallb (fun name => negb (hasHeader name (block lines))) rewrittenNames = true ->
  emailData data = Some (block lines +:+ e +:+ body) ->
  (rewriteMessage (config data) (originalRecipient data)
     (block lines +:+ e +:+ body)).2 = block lines +:+ e +:+ body /\
  exists logs,
    processMessage (Context data) =
    (logs, Resolved (Context (withEmailData data (block lines +:+ e +:+ body)))).
Proof.
  intros Hl Hne He Hend Hnames Hdata.
  assert (Hsame : (rewriteMessage (config data) (originalRecipient data)
                     (block lines +:+ e +:+ body)).2 = block lines +:+ e +:+ body).
  { rewrite rewriteMessage_block by done.
    by rewrite (proj1 (rewriteHeader_absent _ _ _ Hnames)). }
  split; [exact Hsame |].
  unfold processMessage. rewrite Hdata.
  destruct (rewriteMessage _ _ _) as [logs text'] eqn:Hrw. cbn [snd] in Hsame.
  subst text'. by exists logs.
Qed.

Lemma plain_message_unchanged_witness :
  (rewriteMessage relayConfig None
     (block [("X-Id: 1", CRLF)] +:+ CRLF +:+ ("Hi." +:+ CRLF))).2 =
  block [("X-Id: 1", CRLF)] +:+ CRLF +:+ ("Hi." +:+ CRLF).
Proof.
  apply (plain_message_unchanged
           {| event := None; config := relayConfig; email := None;
              recipients := None; originalRecipients := None;
              originalRecipient := None;
              emailData := Some (block [("X-Id: 1", CRLF)] +:+ CRLF +:+ ("Hi." +:+ CRLF)) |}
           [("X-Id: 1", CRLF)] CRLF ("Hi." +:+ CRLF)).
  - reflexivity.
  - discriminate.
  - reflexivity.
  - reflexivity.
  - reflexivity.
  - reflexivity.
Defined.

(** ** Replacements line by line *)

Section ValueLines.
Context (name : string) (Hname : allChars nameChar name = true)
        (Hne : name <> EmptyString).
Context (f : replacer) (g : string -> string).
Context (Hf : forall before c r,
           f before (Hit c r (<[1 := headerValue name c]> ∅)) = g c).

Let re : regex := headerRe name valueTail.

Lemma startsWith_cons (c : string) :
  startsWith name c = true -> exists b c', c = String b c'.
Proof.
  destruct name as [|a name']; [done |]. destruct c as [|b c']; [done | by eauto].
Qed.

Lemma search_after_value (before : string) (a : ascii) (c : string) (t : ascii)
    (s : string) :
  allChars plain (String a c) = true ->
  search gimFlags re (lastChar (before +:+ String a c)) (str t +:+ s) =
  prepend (str t) <$>
    search gimFlags re (lastChar ((before +:+ String a c) +:+ str t)) s.
Proof.
  intros Hc. rewrite lastChar_app_cons, lastChar_snoc.
  destruct (lastChar_plain a c Hc) as (a' & -> & Ha').
  by apply (search_inside_line gimFlags name valueTail a' t EmptyString s).
Qed.

Lemma replaceLoop_value_last (fuel : nat) (before last : string) :
  startsLine (lastChar before) = true ->
  allChars plain last = true ->
  String.length last < fuel ->
  replaceLoop gimFlags re f fuel before last = onLine name g last.
Proof.
  intros Hstart Hlast Hfuel. unfold onLine.
  destruct (startsWith name last) eqn:Hs.
  - destruct fuel as [|n]; [lia |].
    destruct (startsWith_cons last Hs) as (a & c & ->).
    pose proof (matchAt_header_line gimFlags eq_refl eq_refl name
                  Hname Hne (lastChar before) (String a c)
                  EmptyString Hstart Hlast eq_refl Hs) as Hm.
    rewrite app_empty_r in Hm.
    rewrite (replaceLoop_hit _ _ _ n before _ a c EmptyString
               (<[1 := headerValue name (String a c)]> ∅)).
    + rewrite Hf, replaceLoop_none, app_empty_r; [done |].
      rewrite lastChar_app_cons.
      destruct (lastChar_plain a c Hlast) as (a' & -> & Ha').
      by apply (search_inside_last gimFlags name valueTail a' EmptyString).
    + cbn [search]. fold re in Hm. by rewrite Hm.
  - apply replaceLoop_none.
    by apply (search_other_last gimFlags eq_refl name).
Qed.

Lemma replaceLoop_value_lines (l : list (string * ascii)) (last : string)
    (fuel : nat) (before : string) :
  forallb lineOk l = true ->
  allChars plain last = true ->
  startsLine (lastChar before) = true ->
  String.length (unlines l last) < fuel ->
  replaceLoop gimFlags re f fuel before (unlines l last) =
  unlines (map (fun ln => (onLine name g ln.1, ln.2)) l) (onLine name g last).
Proof.
  revert fuel before. induction l as [|[c t] l IH]; intros fuel before Hl Hlast Hb Hfuel.
  - by apply replaceLoop_value_last.
  - cbn [forallb] in Hl. apply andb_prop in Hl as [Hct Hl].
    unfold lineOk in Hct. cbn [fst snd] in Hct. apply andb_prop in Hct as [Hc Ht].
    cbn [unlines map fst snd] in *.
    rewrite length_app in Hfuel. cbn [String.length] in Hfuel.
    destruct fuel as [|n]; [lia |].
    unfold onLine at 1. destruct (startsWith name c) eqn:Hs.
    + destruct (startsWith_cons c Hs) as (a & c' & ->).
      pose proof (matchAt_header_line gimFlags eq_refl eq_refl name
                    Hname Hne (lastChar before) (String a c')
                    (String t (unlines l last)) Hb Hc Ht Hs) as Hm.
      rewrite (replaceLoop_hit _ _ _ n before _ a c' (String t (unlines l last))
                 (<[1 := headerValue name (String a c')]> ∅)).
      2: { destruct (String a c' +:+ String t (unlines l last)) eqn:E;
             cbn [search]; fold re in Hm; by rewrite Hm. }
      rewrite Hf.
      destruct n as [|n]; [cbn [String.length] in Hfuel; lia |].
      change (String t (unlines l last)) with (str t +:+ unlines l last).
      rewrite replaceLoop_skip by (by apply search_after_value).
      rewrite IH.
      * by rewrite ?app_assoc.
      * done.
      * done.
      * by rewrite lastChar_snoc.
      * cbn [String.length] in Hfuel. lia.
    + replace (c +:+ String t (unlines l last))
        with ((c +:+ str t) +:+ unlines l last) by (by rewrite app_assoc).
      rewrite replaceLoop_skip.
      * rewrite IH; [by rewrite app_assoc | done | done | | lia].
        by rewrite <- app_assoc, lastChar_snoc.
      * rewrite <- (app_assoc before), lastChar_snoc, app_assoc.
        by apply (search_other_line gimFlags eq_refl name Hname).
Qed.

Lemma replace_value_lines (header : string) :
  RegExp.replace gimFlags re f header = mapLines (onLine name g) header.
Proof.
  destruct (toLines_spec header) as (Hs & Hl & Hlast).
  unfold RegExp.replace, mapLines. cbn [global gimFlags].
  rewrite <- Hs at 1 2.
  apply replaceLoop_value_lines; [done | done | done |]. rewrite Hs. lia.
Qed.

End ValueLines.

(** ** The To header *)

Lemma getSubstitution_literal (n : nat) (tpl pre : string) (h : hit) :
  allChars (isNot "$") tpl = true -> getSubstitution n tpl pre h = tpl.
Proof.
  induction tpl as [|c tpl IH]; [done |]. cbn [allChars].
  intros [Hc Ht]%andb_prop. specialize (IH Ht).
  destruct c as [[] [] [] [] [] [] [] []]; try discriminate Hc;
    cbn [getSubstitution]; by rewrite IH.
Qed.

(** X17.  Without a To address configured the header block stays as it is.
    With one that has no dollar sign, every line that begins with [To:] (in
    any case) becomes [To: ] and the address, whatever its value was, and no
    other line changes: the continuation lines of a folded To header stay
    where they are. *)
Theorem to_header_replaced (cfg : Config) :
  (truthy (toEmail cfg) = false ->
   forall header, replaceTo cfg header = header) /\
  (forall t header,
     toEmail cfg = Some t ->
     t <> EmptyString ->
     allChars (isNot "$") t = true ->
     replaceTo cfg header = mapLines (toLine t) header).
Proof.
  split.
  - intros Ht header. unfold replaceTo. by rewrite Ht.
  - intros t header Ht Hne Hplain. unfold replaceTo. rewrite Ht.
    destruct t as [|a t]; [done |]. cbn [truthy toString].
    change toRe with (headerRe "to:" valueTail).
    apply (replace_value_lines "to:" eq_refl ltac:(done)).
    intros before c r. by apply getSubstitution_literal.
Qed.

Lemma to_header_replaced_witness :
  replaceTo {| fromEmail := None; subjectPrefix := None; toEmail := Some "list@x.com";
               emailBucket := "b"; emailKeyPrefix := EmptyString;
               allowPlusSign := true; forwardMapping := ∅ |}
    ("TO: a@b.c" +:+ CRLF) =
  mapLines (toLine "list@x.com") ("TO: a@b.c" +:+ CRLF).
Proof.
  apply (proj2 (to_header_replaced
           {| fromEmail := None; subjectPrefix := None; toEmail := Some "list@x.com";
              emailBucket := "b"; emailKeyPrefix := EmptyString;
              allowPlusSign := true; forwardMapping := ∅ |})
           "list@x.com" ("TO: a@b.c" +:+ CRLF)).
  - reflexivity.
  - discriminate.
  - reflexivity.
Defined.

(** ** The removal of one-line headers *)

Lemma lineRe_parts (name : string) : lineRe name = headerRe name lineTail.
Proof. reflexivity. Qed.

Section BlockLines.
Context (fl : flags) (Hi : ignoreCase fl = true) (Hm : multiline fl = true).
Context (name : string) (Hname : allChars nameChar name = true)
        (Hne : name <> EmptyString).

(** The search runs through a whole line, with its line end, that does not
    begin with the name. *)
Lemma search_other_block_line (tail : regex) (p : option ascii) (c e s : string) :
  allChars plain c = true ->
  isEol e = true ->
  startsWith name c = false ->
  search fl (headerRe name tail) p (c +:+ e +:+ s) =
  prepend (c +:+ e) <$> search fl (headerRe name tail) (Some LF) s.
Proof.
  intros Hc He Hs. destruct (isEol_cases e He) as [-> | ->].
  - change (str LF +:+ s) with (String LF s). by apply search_other_line.
  - change (CRLF +:+ s) with (String CR (String LF s)).
    rewrite (search_other_line fl Hi name Hname tail p CR c) by done.
    change (String LF s) with (EmptyString +:+ String LF s).
    rewrite (search_other_line fl Hi name Hname tail (Some CR) LF EmptyString s);
      [| done | done | by destruct name].
    rewrite prepend_prepend. f_equal. by rewrite app_assoc.
Qed.

Lemma atLineStart_startsLine (p : option ascii) (s : string) (cs : gmap nat string) :
  startsLine p = true -> atLineStart fl (State p s cs) = true.
Proof. unfold atLineStart. cbn [prev]. destruct p; [by rewrite Hm | done]. Qed.

(** A line that begins with the name, with its line end: matched whole. *)
Lemma matchAt_block_line (p : option ascii) (c e s : string) :
  startsLine p = true ->
  allChars plain c = true ->
  isEol e = true ->
  startsWith name c = true ->
  matchAt fl (headerRe name lineTail) p ((c +:+ e) +:+ s) =
  Some (Hit (c +:+ e) s (<[1 := headerValue name c]> ∅)).
Proof.
  intros Hp Hc He Hstart. apply matchAt_yields. unfold headerRe.
  rewrite matcher_Cat, matcher_Bol, atLineStart_startsLine by done.
  rewrite matcher_Cat, app_assoc.
  pose proof (atLineEnd_eol e s He) as Hend.
  destruct (matcher_lit_reads fl Hi name (c +:+ e +:+ s) p ∅ Hne) as [q' ->].
  { by rewrite startsWith_app_line. }
  rewrite startsWith_drop_app by done. unfold lineTail. rewrite matcher_Cat.
  apply (matcher_tabOrSpace fl Hi); [done |]. intros q''.
  rewrite matcher_Cat, matcher_Group.
  apply star_dot_yields; [by apply allChars_dropBlank, allChars_drop | done |].
  intros q3. unfold consumed. cbn [prev rest caps]. rewrite take_consumed.
  apply eol_yields; [done |]. intros q4. by exists q4.
Qed.

(** A line end cannot be read from a text without one. *)
Lemma eol_fails_plain (v : string) (q : option ascii) (cs : gmap nat string)
    (k : cont) :
  allChars plain v = true ->
  matcher fl optCR (State q v cs) (fun y => matcher fl (Chr LF) y k) = None.
Proof.
  intros Hv. unfold optCR. rewrite matcher_Opt, clear_nil, !matcher_Chr.
  destruct v as [|a v]; [by rewrite !single_empty |].
  cbn [allChars] in Hv. apply andb_prop in Hv as [Ha _].
  rewrite !single_cons. cbn beta. rewrite charEq_CR, charEq_LF.
  unfold plain, isLineTerminator in Ha. apply negb_true_iff in Ha.
  apply orb_false_elim in Ha as [-> ->]. done.
Qed.

Lemma rest_of_line_fails (v : string) (q : option ascii) (cs : gmap nat string)
    (k : cont) :
  allChars plain v = true ->
  matcher fl (Cat (Group 1 (Star true Dot)) (Cat optCR (Chr LF)))
    (State q v cs) k = None.
Proof.
  intros Hv. rewrite matcher_Cat, matcher_Group, matcher_Star.
  assert (Hdot : forall m y kk, repeat true [] (matcher fl Dot) m y kk =
                                repeat true [] (single plain) m y kk) by done.
  cbn [groupsOf]. rewrite Hdot. apply greedy_all_fail.
  intros q' i. cbn [prev rest caps]. rewrite matcher_Cat.
  apply eol_fails_plain. by apply allChars_drop.
Qed.

(** So the last line, without a line end, is not matched. *)
Lemma matchAt_unterminated (p : option ascii) (last : string) :
  allChars plain last = true ->
  matchAt fl (headerRe name lineTail) p last = None.
Proof.
  intros Hlast. unfold matchAt, headerRe. rewrite matcher_Cat, matcher_Bol.
  destruct (atLineStart fl _); [|done]. rewrite matcher_Cat.
  destruct (startsWith name last) eqn:Hs; [| by rewrite matcher_lit_fails].
  destruct (matcher_lit_reads fl Hi name last p ∅ Hne Hs) as [q' ->].
  unfold lineTail. rewrite matcher_Cat. unfold tabOrSpace.
  rewrite matcher_Opt, clear_nil, matcher_OneOf.
  set (v := drop (String.length name) last).
  assert (Hv : allChars plain v = true) by (by apply allChars_drop).
  rewrite (rest_of_line_fails v) by done.
  destruct v as [|a v]; [by rewrite single_empty |].
  rewrite single_cons. destruct (existsb _ _); [|done].
  rewrite advanced_cons, rest_of_line_fails; [done |].
  cbn [allChars] in Hv. by apply andb_prop in Hv as [_ Hv].
Qed.

Lemma search_unterminated (p : option ascii) (last : string) :
  allChars plain last = true ->
  search fl (headerRe name lineTail) p last = None.
Proof.
  intros Hlast. destruct last as [|b c]; cbn [search];
    rewrite matchAt_unterminated by done; [done |].
  cbn [allChars] in Hlast. apply andb_prop in Hlast as [Hb Hc].
  by rewrite (search_inside_last fl name lineTail b c).
Qed.

End BlockLines.

Lemma lastChar_eol (before c e : string) :
  isEol e = true -> lastChar ((before +:+ c) +:+ e) = Some LF.
Proof.
  intros [-> | ->]%isEol_cases.
  - apply lastChar_snoc.
  - change CRLF with (String CR (str LF)). by rewrite lastChar_app_cons.
Qed.

Section RemoveLines.
Context (name : string) (Hname : allChars nameChar name = true)
        (Hne : name <> EmptyString).

Let re : regex := headerRe name lineTail.
Let f : replacer := fun _ _ => EmptyString.

Lemma replaceLoop_remove_lines (lines : list (string * string)) (last : string)
    (fuel : nat) (before : string) :
  forallb textLineOk lines = true ->
  allChars plain last = true ->
  startsLine (lastChar before) = true ->
  String.length (block lines +:+ last) < fuel ->
  replaceLoop gimFlags re f fuel before (block lines +:+ last) =
  block (List.filter (keeps name) lines) +:+ last.
Proof.
  revert fuel before.
  induction lines as [|[c e] lines IH]; intros fuel before Hl Hlast Hb Hfuel.
  - change (block [] +:+ last) with last. cbn [List.filter block].
    apply replaceLoop_none. by apply (search_unterminated gimFlags eq_refl name).
  - cbn [forallb] in Hl. apply andb_prop in Hl as [Hce Hl].
    unfold textLineOk in Hce. cbn [fst snd] in Hce.
    apply andb_prop in Hce as [Hc He].
    cbn [block] in Hfuel. cbn [block List.filter]. unfold keeps at 1. cbn [fst].
    replace ((c +:+ e +:+ block lines) +:+ last)
      with ((c +:+ e) +:+ (block lines +:+ last)) in * by (by rewrite !app_assoc).
    pose proof (block_length_pos c e He) as Hpos.
    rewrite length_app in Hfuel.
    destruct fuel as [|n]; [lia |].
    destruct (startsWith name c) eqn:Hs; cbn [negb].
    + pose proof (matchAt_block_line gimFlags eq_refl eq_refl name Hname Hne
                    (lastChar before) c e (block lines +:+ last) Hb Hc He Hs) as Hmatch.
      destruct (c +:+ e) as [|a m] eqn:Hce; [cbn in Hpos; lia |].
      rewrite (replaceLoop_hit _ _ _ n before _ a m (block lines +:+ last)
                 (<[1 := headerValue name c]> ∅)).
      2: { change (String a m +:+ ?x) with (String a (m +:+ x)) in *.
           cbn [search]. fold re in Hmatch. by rewrite Hmatch. }
      unfold f at 1. change (EmptyString +:+ ?x) with x.
      rewrite IH; [done | done | done | | cbn [String.length] in Hfuel; lia].
      rewrite <- Hce, <- app_assoc. by rewrite lastChar_eol.
    + destruct n as [|n]; [lia |].
      rewrite replaceLoop_skip.
      * rewrite IH; [| done | done | | lia].
        -- cbn [block]. by rewrite !app_assoc.
        -- rewrite <- app_assoc. by rewrite lastChar_eol.
      * rewrite <- (app_assoc before), lastChar_eol by done. rewrite app_assoc.
        by apply (search_other_block_line gimFlags eq_refl name Hname).
Qed.

Lemma remove_lines (lines : list (string * string)) (last : string) :
  forallb textLineOk lines = true ->
  allChars plain last = true ->
  remove (lineRe name) (block lines +:+ last) =
  block (List.filter (keeps name) lines) +:+ last.
Proof.
  intros Hl Hlast. unfold remove, RegExp.replace. cbn [global gimFlags].
  rewrite lineRe_parts. by apply replaceLoop_remove_lines; [..| lia].
Qed.

End RemoveLines.

Lemma filter_textLineOk (p : string * string -> bool) (lines : list (string * string)) :
  forallb textLineOk lines = true ->
  forallb textLineOk (List.filter p lines) = true.
Proof.
  induction lines as [|ln lines IH]; [done |]. cbn [forallb List.filter].
  intros [Hln Hl]%andb_prop. destruct (p ln); cbn [forallb]; rewrite ?Hln; by apply IH.
Qed.

Lemma filter_filter (p1 p2 : string * string -> bool) (lines : list (string * string)) :
  List.filter p2 (List.filter p1 lines) = List.filter (fun ln => p1 ln && p2 ln) lines.
Proof.
  induction lines as [|ln lines IH]; [done |]. cbn [List.filter].
  destruct (p1 ln); cbn [List.filter andb]; [| done].
  destruct (p2 ln); by rewrite IH.
Qed.

(** X18.  In a header block of lines that end with a line end, followed by an
    unterminated rest, the removal of Return-Path, Sender and Message-ID takes
    out exactly the lines that begin with the name (in any case), each with
    its line end, and nothing else: a line that continues a removed header
    stays, and so does the unterminated rest, whatever it begins with. *)
Theorem one_line_headers_removed (lines : list (string * string)) (last : string) :
  forallb textLineOk lines = true ->
  allChars plain last = true ->
  (forall name,
     name ∈ ["return-path:"; "sender:"; "message-id:"] ->
     remove (lineRe name) (block lines +:+ last) =
     block (List.filter (keeps name) lines) +:+ last) /\
  remove (lineRe "message-id:")
    (remove (lineRe "sender:")
       (remove (lineRe "return-path:") (block lines +:+ last))) =
  block (List.filter
           (fun ln => keeps "return-path:" ln && keeps "sender:" ln &&
                      keeps "message-id:" ln) lines) +:+ last.
Proof.
  intros Hl Hlast. split.
  - intros name Hin.
    apply remove_lines; [| | done | done];
      repeat (apply elem_of_cons in Hin as [-> | Hin]; [done |]);
      by apply elem_of_nil in Hin.
  - rewrite (remove_lines "return-path:") by done.
    rewrite (remove_lines "sender:"); [| done | done | by apply filter_textLineOk | done].
    rewrite (remove_lines "message-id:");
      [| done | done | by do 2 apply filter_textLineOk | done].
    rewrite (filter_filter (keeps "return-path:") (keeps "sender:")).
    by rewrite filter_filter.
Qed.

Lemma one_line_headers_removed_witness :
  remove (lineRe "message-id:")
    (remove (lineRe "sender:")
       (remove (lineRe "return-path:")
          (block [("Sender: a@b.c", CRLF); ("Message-ID:", CRLF); (" <id@x>", CRLF)]
             +:+ "Subject: s"))) =
  block (List.filter
           (fun ln => keeps "return-path:" ln && keeps "sender:" ln &&
                      keeps "message-id:" ln)
           [("Sender: a@b.c", CRLF); ("Message-ID:", CRLF); (" <id@x>", CRLF)])
    +:+ "Subject: s".
Proof.
  apply (one_line_headers_removed
           [("Sender: a@b.c", CRLF); ("Message-ID:", CRLF); (" <id@x>", CRLF)]
           "Subject: s").
  - reflexivity.
  - reflexivity.
Defined.

(** ** Headers with continuation lines *)

Lemma dkimRe_parts : dkimRe = headerRe "dkim-signature:" dkimTail.
Proof. reflexivity. Qed.

Lemma folds_lines (folds : list Fold) (e : string) :
  foldsString folds +:+ e = firstEol folds e +:+ block (foldLines folds e).
Proof.
  induction folds as [|f fs IH]; [by rewrite app_empty_r |].
  cbn [foldsString foldLines firstEol block]. unfold foldString.
  by rewrite !app_assoc, IH.
Qed.

Lemma entryString_lines (en : Entry) : entryString en = block (entryLines en).
Proof.
  unfold entryString, entryLines. cbn [block]. by rewrite folds_lines.
Qed.

Lemma firstEol_ok (folds : list Fold) (e : string) :
  forallb foldOk folds = true -> isEol e = true -> isEol (firstEol folds e) = true.
Proof.
  destruct folds as [|f fs]; [done |]. cbn [forallb firstEol].
  intros [Hf _]%andb_prop _. unfold foldOk in Hf.
  by apply andb_prop in Hf as [[He _]%andb_prop _].
Qed.

Lemma indent_plain (w : string) :
  allChars indentChar w = true -> allChars plain w = true.
Proof.
  induction w as [|a w IH]; [done |]. cbn [allChars].
  intros [Ha Hw]%andb_prop. unfold indentChar in Ha.
  apply andb_prop in Ha as [_ ->]. by apply IH.
Qed.

Lemma foldOk_parts (f : Fold) :
  foldOk f = true ->
  isEol (foldEol f) = true /\
  (exists b w, foldIndent f = String b w /\ allChars indentChar (String b w) = true) /\
  (exists a v, foldText f = String a v /\ isSpace a = false /\
               allChars plain (String a v) = true).
Proof.
  unfold foldOk. intros [[He Hw]%andb_prop Hv]%andb_prop.
  split; [done |]. split.
  - destruct (foldIndent f) as [|b w]; [done |]. by exists b, w.
  - destruct (foldText f) as [|a v]; [done |].
    apply andb_prop in Hv as [Ha Hv]. apply negb_true_iff in Ha. by exists a, v.
Qed.

Lemma foldLines_ok (folds : list Fold) (e : string) :
  forallb foldOk folds = true -> isEol e = true ->
  forallb textLineOk (foldLines folds e) = true.
Proof.
  induction folds as [|f fs IH]; [done |]. cbn [forallb foldLines].
  intros [Hf Hfs]%andb_prop He. rewrite IH by done. rewrite andb_true_r.
  unfold textLineOk. cbn [fst snd]. rewrite firstEol_ok by done.
  rewrite andb_true_r.
  destruct (foldOk_parts f Hf) as (_ & (b & w & -> & Hw) & (a & v & -> & _ & Hv)).
  rewrite allChars_app, Hv, andb_true_r. by apply indent_plain.
Qed.

(** A continuation line does not begin with a header name. *)
Lemma foldLines_keep (name : string) (n0 : ascii) (name' : string)
    (folds : list Fold) (e : string) :
  name = String n0 name' ->
  (forall a, isSpace a = true -> sameLetter a n0 = false) ->
  forallb foldOk folds = true ->
  forallb (keeps name) (foldLines folds e) = true.
Proof.
  intros -> Hn0. induction folds as [|f fs IH]; [done |]. cbn [forallb foldLines].
  intros [Hf Hfs]%andb_prop. rewrite IH by done. rewrite andb_true_r.
  unfold keeps. cbn [fst].
  destruct (foldOk_parts f Hf) as (_ & (b & w & -> & Hw) & _).
  cbn [allChars] in Hw. apply andb_prop in Hw as [Hb _].
  unfold indentChar in Hb. apply andb_prop in Hb as [Hb _].
  change (String b w +:+ ?x) with (String b (w +:+ x)). cbn [startsWith].
  by rewrite (Hn0 b Hb).
Qed.

Section SkipLines.
Context (fl : flags) (Hi : ignoreCase fl = true).
Context (name : string) (Hname : allChars nameChar name = true)
        (Hne : name <> EmptyString) (tail : regex).

(** The search runs through lines none of which begins with the name. *)
Lemma search_skip_block (lines : list (string * string)) (p : option ascii)
    (s : string) :
  forallb textLineOk lines = true ->
  forallb (keeps name) lines = true ->
  lines <> [] ->
  search fl (headerRe name tail) p (block lines +:+ s) =
  prepend (block lines) <$> search fl (headerRe name tail) (Some LF) s.
Proof.
  revert p. induction lines as [|[c e] lines IH]; intros p Hl Hk Hnil; [done |].
  cbn [forallb] in Hl, Hk. apply andb_prop in Hl as [Hce Hl].
  apply andb_prop in Hk as [Hc' Hk]. unfold textLineOk in Hce. unfold keeps in Hc'.
  cbn [fst snd] in *. apply andb_prop in Hce as [Hc He].
  apply negb_true_iff in Hc'. cbn [block].
  replace ((c +:+ e +:+ block lines) +:+ s)
    with (c +:+ e +:+ (block lines +:+ s)) by (by rewrite !app_assoc).
  rewrite (search_other_block_line fl Hi name Hname Hne tail) by done.
  destruct lines as [|ln lines].
  - cbn [block]. change (EmptyString +:+ s) with s. by rewrite !app_empty_r.
  - rewrite IH by done. rewrite prepend_prepend. by rewrite !app_assoc.
Qed.

End SkipLines.

(** *** The DKIM-Signature pattern on a header *)

Section Continuations.
Context (fl : flags).

(** The continuation lines of a header, each with the line end after it;
    what is left in the captures does not depend on where the match came
    from. *)
Lemma conts_read (folds : list Fold) (e post : string) :
  forallb foldOk folds = true ->
  isEol e = true ->
  endsFolding post = true ->
  forall cs, delete 1 cs = ∅ ->
  exists csF, forall fuel q k r1 cs1,
    String.length (block (foldLines folds e) +:+ post) <= fuel ->
    (forall q', yields (k (State q' post csF)) r1 cs1) ->
    yields (repeat true [1] (matcher fl (Group 1 contRe)) fuel
              (State q (block (foldLines folds e) +:+ post) cs) k) r1 cs1.
Proof.
  intros Hf He Hpost. induction folds as [|f fs IH]; intros cs Hcs.
  - exists cs. intros fuel q k r1 cs1 _ Hk.
    change (block (foldLines [] e) +:+ post) with post.
    destruct fuel as [|n]; [apply Hk |].
    rewrite repeat_greedy. unfold clear. cbn [prev rest caps foldr].
    rewrite matcher_Group. unfold contRe at 1.
    rewrite matcher_Cat, indent_fails by done. apply Hk.
  - cbn [forallb] in Hf. apply andb_prop in Hf as [Hfold Hfs].
    destruct (foldOk_parts f Hfold) as (_ & (b & w & Hw & Hwok) & (a & v & Hv & Ha & Hvok)).
    pose proof (firstEol_ok fs e Hfs He) as Hnext.
    set (line := foldIndent f +:+ foldText f +:+ firstEol fs e).
    destruct (IH Hfs (<[1 := line]> ∅)) as [csF HcsF].
    { by rewrite delete_insert_eq, delete_empty. }
    exists csF. intros fuel q k r1 cs1 Hfuel Hk.
    cbn [foldLines block] in *.
    set (t := block (foldLines fs e) +:+ post) in *.
    replace (((foldIndent f +:+ foldText f) +:+ firstEol fs e +:+
              block (foldLines fs e)) +:+ post)
      with (line +:+ t) in * by (unfold line, t; by rewrite !app_assoc).
    assert (Hlen : 0 < String.length line).
    { unfold line. rewrite Hw. cbn. lia. }
    rewrite length_app in Hfuel.
    destruct fuel as [|n]; [lia |].
    rewrite repeat_greedy.
    assert (Hiter : yields
      (matcher fl (Group 1 contRe) (clear [1] (State q (line +:+ t) cs))
         (fun y => if advanced (State q (line +:+ t) cs) y
                   then repeat true [1] (matcher fl (Group 1 contRe)) n y k
                   else None)) r1 cs1).
    { unfold clear. cbn [prev rest caps foldr]. rewrite Hcs.
      rewrite matcher_Group. unfold contRe at 1. rewrite matcher_Cat.
      unfold line at 1. rewrite Hw, Hv, !app_assoc.
      apply indent_reads; [done | done | done |].
      intros q1. rewrite matcher_Cat.
      apply star_dot_yields; [done | by apply atLineEnd_eol |].
      intros q2. rewrite matcher_Cat. apply eol_yields; [done |].
      intros q3. unfold consumed. cbn [prev rest caps].
      rewrite take_consumed. unfold advanced. cbn [rest]. rewrite length_app.
      destruct (Nat.ltb_spec (String.length t)
                  (String.length line + String.length t)); [|lia].
      apply HcsF; [lia | done]. }
    destruct Hiter as [q' ->]. by exists q'.
Qed.

End Continuations.

Lemma entryOk_parts (en : Entry) :
  entryOk en = true ->
  (exists a c, entryFirst en = String a c /\ isSpace a = false) /\
  allChars plain (entryFirst en) = true /\
  forallb foldOk (entryFolds en) = true /\
  isEol (entryEol en) = true.
Proof.
  unfold entryOk. intros [[[Hs Hc]%andb_prop Hf]%andb_prop He]%andb_prop.
  split; [| done]. destruct (entryFirst en) as [|a c]; [done |].
  exists a, c. split; [done |]. by apply negb_true_iff.
Qed.

Lemma entries_endsFolding (es : list Entry) :
  forallb entryOk es = true -> endsFolding (entries es) = true.
Proof.
  destruct es as [|en es]; [done |]. cbn [forallb entries].
  intros [Hen _]%andb_prop.
  destruct (entryOk_parts en Hen) as ((a & c & Hc & Ha) & _).
  unfold entryString. rewrite Hc. cbn. by rewrite Ha.
Qed.

Lemma entryLines_ok (en : Entry) :
  entryOk en = true -> forallb textLineOk (entryLines en) = true.
Proof.
  intros Hen. destruct (entryOk_parts en Hen) as (_ & Hc & Hf & He).
  unfold entryLines. cbn [forallb]. rewrite foldLines_ok by done.
  unfold textLineOk. cbn [fst snd]. by rewrite Hc, firstEol_ok.
Qed.

Lemma matchAt_dkim_entry (p : option ascii) (en : Entry) (post : string) :
  startsLine p = true ->
  entryOk en = true ->
  startsWith "dkim-signature:" (entryFirst en) = true ->
  endsFolding post = true ->
  exists cs,
    matchAt gimFlags (headerRe "dkim-signature:" dkimTail) p
      (entryString en +:+ post) =
    Some (Hit (entryString en) post cs).
Proof.
  intros Hp Hen Hstart Hpost.
  destruct (entryOk_parts en Hen) as (_ & Hc & Hf & He).
  destruct (conts_read gimFlags (entryFolds en) (entryEol en) post Hf He Hpost ∅)
    as [csF HcsF]; [apply delete_empty |].
  exists csF. apply matchAt_yields.
  unfold entryString. rewrite folds_lines, !app_assoc.
  set (c0 := entryFirst en) in *.
  set (e1 := firstEol (entryFolds en) (entryEol en)).
  set (t := block (foldLines (entryFolds en) (entryEol en)) +:+ post) in *.
  assert (He1 : isEol e1 = true) by (by apply firstEol_ok).
  pose proof (atLineEnd_eol e1 t He1) as Hend.
  unfold headerRe. rewrite matcher_Cat, matcher_Bol.
  rewrite (atLineStart_startsLine gimFlags eq_refl) by done.
  rewrite matcher_Cat.
  destruct (matcher_lit_reads gimFlags eq_refl "dkim-signature:"
              (c0 +:+ e1 +:+ t) p ∅) as [q' ->]; [done | |].
  { by rewrite startsWith_app_line. }
  rewrite startsWith_drop_app by done. unfold dkimTail. rewrite matcher_Cat.
  apply (matcher_tabOrSpace gimFlags eq_refl); [done |]. intros q1.
  rewrite matcher_Cat.
  apply star_dot_yields; [by apply allChars_dropBlank, allChars_drop | done |].
  intros q2. rewrite matcher_Cat.
  change (fun y => matcher gimFlags (Cat (Chr LF) ?r) y ?kk)
    with (fun y => matcher gimFlags (Chr LF) y (fun y' => matcher gimFlags r y' kk)).
  apply eol_yields; [done |]. intros q3.
  rewrite matcher_Star. cbn [rest groupsOf app].
  apply HcsF; [done |]. intros q4. by exists q4.
Qed.

Lemma space_not_d (a : ascii) : isSpace a = true -> sameLetter a "d" = false.
Proof. by destruct a as [[] [] [] [] [] [] [] []]. Qed.

Lemma replaceLoop_remove_dkim (es : list Entry) (fuel : nat) (before : string) :
  forallb entryOk es = true ->
  startsLine (lastChar before) = true ->
  String.length (entries es) < fuel ->
  replaceLoop gimFlags (headerRe "dkim-signature:" dkimTail)
    (fun _ _ => EmptyString) fuel before (entries es) =
  entries (List.filter (keepsEntry "dkim-signature:") es).
Proof.
  revert fuel before. induction es as [|en es IH]; intros fuel before Hes Hb Hfuel.
  - apply replaceLoop_none. cbn [entries List.filter search].
    by rewrite (matchAt_other_name gimFlags eq_refl).
  - cbn [forallb] in Hes. apply andb_prop in Hes as [Hen Hes].
    destruct (entryOk_parts en Hen) as ((a & c & Hc & Ha) & Hplain & Hf & He).
    cbn [entries List.filter] in *. unfold keepsEntry at 1.
    assert (Hlast : lastChar (before +:+ entryString en) = Some LF).
    { unfold entryString. rewrite <- !app_assoc. by apply lastChar_eol. }
    assert (Hpos : 0 < String.length (entryString en)).
    { unfold entryString. rewrite Hc. cbn. lia. }
    rewrite length_app in Hfuel.
    destruct fuel as [|n]; [lia |].
    destruct (startsWith "dkim-signature:" (entryFirst en)) eqn:Hs; cbn [negb].
    + destruct (matchAt_dkim_entry (lastChar before) en (entries es) Hb Hen Hs)
        as [cs Hm]; [by apply entries_endsFolding |].
      destruct (entryString en) as [|x m] eqn:Hstr; [cbn in Hpos; lia |].
      rewrite (replaceLoop_hit _ _ _ n before _ x m (entries es) cs).
      2: { change (String x m +:+ ?y) with (String x (m +:+ y)) in *.
           cbn [search]. by rewrite Hm. }
      change (EmptyString +:+ ?y) with y.
      apply IH; [done | by rewrite Hlast | cbn [String.length] in Hfuel; lia].
    + destruct n as [|n]; [lia |].
      rewrite replaceLoop_skip.
      * rewrite IH; [done | done | by rewrite Hlast | lia].
      * rewrite Hlast, entryString_lines.
        apply (search_skip_block gimFlags eq_refl "dkim-signature:" eq_refl);
          [done | by apply entryLines_ok | | done].
        unfold entryLines. cbn [forallb]. unfold keeps at 1. cbn [fst].
        rewrite Hs. cbn [negb andb].
        by apply (foldLines_keep "dkim-signature:" "d" "kim-signature:" _ _ eq_refl
                    space_not_d).
Qed.

(** X19.  In a header block made of headers with their continuation lines (a
    first line that begins with a character that is not white space,
    continuation lines that are indented and have text, a line end), the
    removal of DKIM-Signature takes out every header whose first line begins
    with that name (in any case), with all its continuation lines, and leaves
    every other header as it is. *)
Theorem dkim_headers_removed (es : list Entry) :
  forallb entryOk es = true ->
  remove dkimRe (entries es) =
  entries (List.filter (keepsEntry "dkim-signature:") es).
Proof.
  intros Hes. unfold remove, RegExp.replace. cbn [global gimFlags].
  rewrite dkimRe_parts. by apply replaceLoop_remove_dkim; [..| lia].
Qed.

Lemma dkim_headers_removed_witness :
  remove dkimRe
    (entries [ {| entryFirst := "DKIM-Signature: v=1;";
                  entryFolds := [ {| foldEol := CRLF; foldIndent := " ";
                                     foldText := "b=abc" |} ];
                  entryEol := CRLF |};
               {| entryFirst := "Subject: s"; entryFolds := []; entryEol := CRLF |} ]) =
  entries (List.filter (keepsEntry "dkim-signature:")
    [ {| entryFirst := "DKIM-Signature: v=1;";
         entryFolds := [ {| foldEol := CRLF; foldIndent := " ";
                            foldText := "b=abc" |} ];
         entryEol := CRLF |};
      {| entryFirst := "Subject: s"; entryFolds := []; entryEol := CRLF |} ]).
Proof.
  apply dkim_headers_removed. reflexivity.
Defined.

(** ** The four removals together *)

(** The continuation lines at the head of a list, and the lines after them. *)
Lemma conts_split (ls : list (string * string)) :
  exists conts rest,
    ls = conts ++ rest /\ forallb isCont conts = true /\
    match rest with [] => True | ln :: _ => isCont ln = false end /\
    dropDkimFrom true ls = dropDkimFrom true rest.
Proof.
  induction ls as [|ln ls (conts & rest & -> & Hc & Hr & Hd)].
  - by exists [], [].
  - destruct (isCont ln) eqn:Hln.
    + exists (ln :: conts), rest. cbn [forallb]. rewrite Hln, Hc.
      repeat split; try done. cbn [app dropDkimFrom].
      destruct (startsWith _ _); [done |]. by rewrite Hln.
    + by exists [], (ln :: conts ++ rest).
Qed.

Lemma dropDkimFrom_first (inside : bool) (ls : list (string * string)) :
  match ls with [] => True | ln :: _ => isCont ln = false end ->
  dropDkimFrom inside ls = dropDkimFrom false ls.
Proof.
  destruct ls as [|ln ls]; [done |]. intros Hln. cbn [dropDkimFrom].
  by rewrite Hln, andb_false_r.
Qed.

Lemma block_app (a b : list (string * string)) :
  block (a ++ b) = block a +:+ block b.
Proof.
  induction a as [|[c e] a IH]; [done |]. cbn [app block].
  by rewrite IH, !app_assoc.
Qed.

(** The indentation and the text of a continuation line. *)
Lemma cont_parts (c : string) :
  allChars plain c = true ->
  match c with String a _ => isSpace a | EmptyString => false end = true ->
  allChars isSpace c = false ->
  exists w a v,
    c = w +:+ String a v /\ w <> EmptyString /\ allChars indentChar w = true /\
    isSpace a = false /\ allChars plain (String a v) = true.
Proof.
  induction c as [|b c IH]; [done |]. cbn [allChars].
  intros [Hb Hc]%andb_prop Hsp Hall. rewrite Hsp in Hall. cbn [andb] in Hall.
  destruct c as [|a v]; [done |].
  destruct (isSpace a) eqn:Ha.
  - destruct (IH Hc eq_refl Hall) as (w & a' & v' & Hw & Hne & Hind & Ha' & Hv').
    exists (String b w), a', v'. rewrite Hw. repeat split; try done.
    cbn [allChars]. unfold indentChar at 1. by rewrite Hsp, Hb, Hind.
  - exists (String b EmptyString), a, v. repeat split; try done.
    cbn [allChars]. unfold indentChar. by rewrite Hsp, Hb.
Qed.

(** Continuation lines after a line end are the continuation lines of a
    header. *)
Lemma conts_folds (conts : list (string * string)) (e0 : string) :
  forallb textLineOk conts = true ->
  forallb isCont conts = true ->
  isEol e0 = true ->
  exists folds e,
    forallb foldOk folds = true /\ isEol e = true /\
    firstEol folds e = e0 /\ foldLines folds e = conts.
Proof.
  revert e0. induction conts as [|[c e1] conts IH]; intros e0 Hok Hc He0.
  - by exists [], e0.
  - cbn [forallb] in Hok, Hc. apply andb_prop in Hok as [Hln Hok].
    apply andb_prop in Hc as [Hcont Hc].
    unfold textLineOk in Hln. cbn [fst snd] in Hln.
    apply andb_prop in Hln as [Hplain He1].
    unfold isCont in Hcont. cbn [fst] in Hcont.
    destruct (IH e1 Hok Hc He1) as (folds & e & Hf & He & Hfirst & Hlines).
    destruct (cont_parts c Hplain) as (w & a & v & -> & Hne & Hind & Ha & Hv).
    { destruct c as [|b c]; [done |]. by apply andb_prop in Hcont as [? _]. }
    { destruct c as [|b c]; [done |].
      apply andb_prop in Hcont as [_ H]. by apply negb_true_iff in H. }
    exists ({| foldEol := e0; foldIndent := w; foldText := String a v |} :: folds), e.
    cbn [forallb foldLines firstEol foldEol foldIndent foldText].
    rewrite Hf, Hfirst, Hlines. repeat split; try done.
    unfold foldOk. cbn [foldEol foldIndent foldText]. rewrite He0, Ha, Hv.
    destruct w; [done |]. by rewrite Hind.
Qed.

Lemma startsWith_startsText (name : string) (n0 : ascii) (name' c : string) :
  name = String n0 name' ->
  (forall a, isSpace a = true -> sameLetter a n0 = false) ->
  startsWith name c = true -> startsText c = true.
Proof.
  intros -> Hn0. destruct c as [|a c]; [done |]. cbn [startsWith startsText].
  intros [Ha _]%andb_prop. destruct (isSpace a) eqn:Hsp; [|done].
  by rewrite (Hn0 a Hsp) in Ha.
Qed.

Lemma lineShape_endsFolding (rest : list (string * string)) :
  forallb lineShapeOk rest = true ->
  match rest with [] => True | ln :: _ => isCont ln = false end ->
  endsFolding (block rest) = true.
Proof.
  destruct rest as [|[c e] rest]; [done |]. cbn [forallb].
  intros [Hln _]%andb_prop Hcont. unfold lineShapeOk in Hln.
  apply andb_prop in Hln as [_ Hshape]. rewrite Hcont, orb_false_r in Hshape.
  cbn [fst block] in *. by destruct c.
Qed.

Lemma lastChar_block_line (before c e : string) :
  isEol e = true -> lastChar (before +:+ c +:+ e) = Some LF.
Proof. intros He. rewrite <- !app_assoc. by apply lastChar_eol. Qed.

Lemma replaceLoop_dkim_lines (n : nat) :
  forall (lines : list (string * string)) (fuel : nat) (before : string),
  length lines <= n ->
  forallb lineShapeOk lines = true ->
  startsLine (lastChar before) = true ->
  String.length (block lines) < fuel ->
  replaceLoop gimFlags (headerRe "dkim-signature:" dkimTail)
    (fun _ _ => EmptyString) fuel before (block lines) =
  block (dropDkimFrom false lines).
Proof.
  induction n as [|n IH]; intros lines fuel before Hn Hl Hb Hfuel.
  { destruct lines; [|cbn in Hn; lia]. apply replaceLoop_none. cbn [block dropDkimFrom search].
    by rewrite (matchAt_other_name gimFlags eq_refl). }
  destruct lines as [|[c e] ls].
  { apply replaceLoop_none. cbn [block dropDkimFrom search].
    by rewrite (matchAt_other_name gimFlags eq_refl). }
  cbn [forallb] in Hl. apply andb_prop in Hl as [Hln Hl].
  unfold lineShapeOk in Hln. apply andb_prop in Hln as [Hok Hshape].
  pose proof Hok as Hok'. unfold textLineOk in Hok'. cbn [fst snd] in *.
  apply andb_prop in Hok' as [Hc He].
  cbn [length] in Hn. cbn [block dropDkimFrom fst] in *.
  pose proof (block_length_pos c e He) as Hpos.
  rewrite <- app_assoc, length_app in Hfuel.
  destruct fuel as [|m]; [lia |].
  destruct (startsWith "dkim-signature:" c) eqn:Hs.
  - destruct (conts_split ls) as (conts & rest & -> & Hconts & Hrest & Hdrop).
    rewrite forallb_app in Hl. apply andb_prop in Hl as [Hlc Hlr].
    assert (Hcok : forallb textLineOk conts = true).
    { clear -Hlc. induction conts as [|ln conts IHc]; [done |].
      cbn [forallb] in *. apply andb_prop in Hlc as [Hln Hlc].
      unfold lineShapeOk in Hln. apply andb_prop in Hln as [-> _]. by apply IHc. }
    destruct (conts_folds conts e Hcok Hconts He)
      as (folds & e' & Hf & He' & Hfirst & Hlines).
    set (en := {| entryFirst := c; entryFolds := folds; entryEol := e' |}).
    assert (Hen : entryOk en = true).
    { unfold entryOk, en. cbn [entryFirst entryFolds entryEol].
      rewrite Hc, Hf, He'.
      by rewrite (startsWith_startsText "dkim-signature:" "d" "kim-signature:" c
                    eq_refl space_not_d Hs). }
    assert (Hstr : entryString en = c +:+ e +:+ block conts).
    { rewrite entryString_lines. unfold entryLines, en.
      cbn [entryFirst entryFolds entryEol block]. by rewrite Hfirst, Hlines. }
    destruct (matchAt_dkim_entry (lastChar before) en (block rest) Hb Hen Hs)
      as [cs Hm]; [by apply lineShape_endsFolding |].
    rewrite Hdrop, (dropDkimFrom_first true rest Hrest).
    rewrite block_app.
    replace (c +:+ e +:+ block conts +:+ block rest)
      with (entryString en +:+ block rest) by (by rewrite Hstr, !app_assoc).
    assert (Hpos' : 0 < String.length (entryString en)).
    { rewrite Hstr, <- app_assoc, length_app. lia. }
    destruct (entryString en) as [|x s] eqn:Hes; [cbn in Hpos'; lia |].
    rewrite (replaceLoop_hit _ _ _ m before _ x s (block rest) cs).
    2: { change (String x s +:+ ?y) with (String x (s +:+ y)) in *.
         cbn [search]. by rewrite Hm. }
    change (EmptyString +:+ ?y) with y.
    apply IH; [| done | |].
    + rewrite List.length_app in Hn. lia.
    + rewrite <- Hes. unfold entryString, en. cbn [entryFirst entryFolds entryEol].
      rewrite <- !app_assoc. by rewrite lastChar_eol.
    + rewrite block_app, !length_app in Hfuel. rewrite length_app in Hpos. lia.
  - cbn [andb]. cbn [block].
    destruct m as [|m]; [lia |].
    rewrite <- app_assoc.
    rewrite replaceLoop_skip.
    + rewrite IH; [by rewrite app_assoc | lia | done | | lia].
      by rewrite <- app_assoc, lastChar_eol.
    + rewrite <- (app_assoc before), lastChar_eol by done. rewrite app_assoc.
      by apply (search_other_block_line gimFlags eq_refl "dkim-signature:" eq_refl).
Qed.

Lemma remove_dkim_lines (lines : list (string * string)) :
  forallb lineShapeOk lines = true ->
  remove dkimRe (block lines) = block (dropDkim lines).
Proof.
  intros Hl. unfold remove, RegExp.replace, dropDkim. cbn [global gimFlags].
  rewrite dkimRe_parts.
  by apply (replaceLoop_dkim_lines (length lines)); [lia | done | done | lia].
Qed.

Lemma filter_lineShapeOk (p : string * string -> bool) (lines : list (string * string)) :
  forallb lineShapeOk lines = true ->
  forallb lineShapeOk (List.filter p lines) = true.
Proof.
  induction lines as [|ln lines IH]; [done |]. cbn [forallb List.filter].
  intros [Hln Hl]%andb_prop. destruct (p ln); cbn [forallb]; rewrite ?Hln; by apply IH.
Qed.

Lemma lineShapeOk_text (lines : list (string * string)) :
  forallb lineShapeOk lines = true -> forallb textLineOk lines = true.
Proof.
  induction lines as [|ln lines IH]; [done |]. cbn [forallb].
  intros [Hln Hl]%andb_prop. unfold lineShapeOk in Hln.
  apply andb_prop in Hln as [-> _]. by apply IH.
Qed.

Lemma stripHeaders_lines (lines : list (string * string)) :
  forallb lineShapeOk lines = true ->
  stripHeaders (block lines) = block (dropDkim (List.filter keepsLine lines)).
Proof.
  intros Hl. pose proof (lineShapeOk_text lines Hl) as Htext.
  unfold stripHeaders.
  rewrite <- (app_empty_r (block lines)).
  rewrite (remove_lines "return-path:") by done.
  rewrite (remove_lines "sender:"); [| done | done | by apply filter_textLineOk | done].
  rewrite (remove_lines "message-id:");
    [| done | done | by do 2 apply filter_textLineOk | done].
  rewrite (filter_filter (keeps "return-path:") (keeps "sender:")).
  rewrite filter_filter, app_empty_r.
  apply remove_dkim_lines. by apply filter_lineShapeOk.
Qed.

(** X22.  In a header block whose lines are first lines of headers (they begin
    with a character that is not white space) and continuation lines (they
    begin with white space and have text), the four removals leave this: first
    the lines that begin with [Return-Path:], [Sender:] or [Message-ID:] go,
    without their continuation lines; then every line that begins with
    [DKIM-Signature:] goes with the continuation lines that follow it, those
    left behind by a removed one-line header after it among them. *)
Theorem strip_headers_on_lines (lines : list (string * string)) :
  forallb lineShapeOk lines = true ->
  remove dkimRe (block lines) = block (dropDkim lines) /\
  stripHeaders (block lines) = block (dropDkim (List.filter keepsLine lines)).
Proof.
  intros Hl. split.
  - by apply remove_dkim_lines.
  - by apply stripHeaders_lines.
Qed.

Lemma strip_headers_on_lines_witness :
  stripHeaders
    (block [("DKIM-Signature: v=1;", CRLF); ("Message-ID:", CRLF);
            (" <id@x>", CRLF); ("Subject: s", CRLF)]) =
  block [("Subject: s", CRLF)].
Proof.
  apply (strip_headers_on_lines
           [("DKIM-Signature: v=1;", CRLF); ("Message-ID:", CRLF);
            (" <id@x>", CRLF); ("Subject: s", CRLF)]).
  reflexivity.
Defined.

(** ** The From text *)

Lemma greedy_dots_close (fuel : nat) (t : string) (q : option ascii)
    (cs : gmap nat string) (C : cont) :
  String.length t <= fuel ->
  (forall q' s, rest <$> C (State q' s cs) =
                match s with
                | String c s' => if Ascii.eqb c ">" then Some s' else None
                | EmptyString => None
                end) ->
  rest <$> repeat true [] (single plain) fuel (State q t cs) C = afterLastClose t.
Proof.
  intros Hfuel HC. revert t q Hfuel.
  induction fuel as [|n IH]; intros t q Hfuel.
  - destruct t; [|cbn in Hfuel; lia]. cbn [repeat]. by rewrite HC.
  - rewrite repeat_greedy, clear_nil. destruct t as [|c t].
    + rewrite single_empty. cbn iota. by rewrite HC.
    + rewrite single_cons. cbn [afterLastClose].
      change (plain c) with (negb (isLineTerminator c)).
      destruct (isLineTerminator c) eqn:Hc; cbn [negb]; cbn iota.
      * rewrite HC. destruct (Ascii.eqb c ">") eqn:Hgt; [|done].
        apply Ascii.eqb_eq in Hgt. by subst c.
      * rewrite advanced_cons. cbn [String.length] in Hfuel.
        specialize (IH t (Some c) ltac:(lia)).
        destruct (repeat true [] (single plain) n (State (Some c) t cs) C) as [z|].
        -- cbn [fmap option_fmap option_map] in IH |- *. by rewrite <- IH.
        -- cbn [fmap option_fmap option_map] in IH. rewrite <- IH. by rewrite HC.
Qed.

Lemma matchAt_angle (p : option ascii) (c : ascii) (t : string) :
  after <$> matchAt noFlags angleRe p (String c t) =
  if Ascii.eqb c "<" then afterLastClose t else None.
Proof.
  unfold matchAt.
  change angleRe with (Cat (Chr "<") (Cat (Group 1 (Star true Dot)) (Chr ">"))).
  rewrite matcher_Cat, matcher_Chr, single_cons. cbn beta.
  unfold charEq. cbn [ignoreCase noFlags].
  destruct (Ascii.eqb c "<") eqn:Hc; [|done].
  apply Ascii.eqb_eq in Hc. subst c.
  rewrite matcher_Cat, matcher_Group, matcher_Star. cbn [rest groupsOf].
  assert (Hdot : forall m y kk, repeat true [] (matcher noFlags Dot) m y kk =
                                repeat true [] (single plain) m y kk) by done.
  rewrite Hdot.
  rewrite <- (greedy_dots_close (String.length t) t (Some "<"%char) ∅
                (fun y => matcher noFlags (Chr ">")
                   (State (prev y) (rest y)
                      (<[1 := consumed (State (Some "<"%char) t ∅) y]> (caps y)))
                   Some)); [| done |].
  - by destruct (repeat _ _ _ _ _ _).
  - intros q' s. cbn [prev rest caps]. rewrite matcher_Chr.
    destruct s as [|x s]; [by rewrite single_empty |].
    rewrite single_cons. cbn beta. unfold charEq. cbn [ignoreCase noFlags].
    by destruct (Ascii.eqb x ">").
Qed.

Lemma replace_angle (s : string) :
  RegExp.replace noFlags angleRe (fun _ _ => EmptyString) s = stripAngle s.
Proof.
  unfold RegExp.replace, exec. cbn [global noFlags].
  generalize (@None ascii). induction s as [|c t IH]; intros p; [done |].
  cbn [search stripAngle].
  pose proof (matchAt_angle p c t) as Hm.
  destruct (matchAt noFlags angleRe p (String c t)) as [h|].
  - cbn [fmap option_fmap option_map] in Hm.
    destruct (Ascii.eqb c "<"); [|done]. by rewrite <- Hm.
  - cbn [fmap option_fmap option_map] in Hm.
    assert (Hgo : (if Ascii.eqb c "<"
                   then match afterLastClose t with
                        | Some r => r
                        | None => String c (stripAngle t)
                        end
                   else String c (stripAngle t)) = String c (stripAngle t)).
    { destruct (Ascii.eqb c "<"); [by rewrite <- Hm | done]. }
    rewrite Hgo, <- (IH (Some c)).
    by destruct (search noFlags angleRe (Some c) t) as [[sk h]|].
Qed.

Lemma afterLastClose_here (addr r : string) :
  allChars plain addr = true ->
  allChars (isNot ">") r = true ->
  afterLastClose (addr +:+ String ">" r) = Some r.
Proof.
  intros Haddr Hr.
  assert (Hnone : afterLastClose r = None).
  { clear -Hr. induction r as [|c r IH]; [done |]. cbn [allChars] in Hr.
    apply andb_prop in Hr as [Hc Hr]. cbn [afterLastClose].
    rewrite (IH Hr). unfold isNot in Hc. apply negb_true_iff in Hc. rewrite Hc.
    by destruct (isLineTerminator c). }
  induction addr as [|c addr IH].
  - cbn. by rewrite Hnone.
  - cbn [allChars] in Haddr. apply andb_prop in Haddr as [Hc Haddr].
    change (String c addr +:+ ?x) with (String c (addr +:+ x)).
    cbn [afterLastClose]. unfold plain in Hc. apply negb_true_iff in Hc.
    by rewrite Hc, (IH Haddr).
Qed.

Lemma stripAngle_address (name addr r : string) :
  allChars (isNot "<") name = true ->
  allChars plain addr = true ->
  allChars (isNot ">") r = true ->
  stripAngle (name +:+ String "<" (addr +:+ String ">" r)) = name +:+ r.
Proof.
  intros Hname Haddr Hr. induction name as [|c name IH].
  - cbn [stripAngle String.append]. change (EmptyString +:+ ?x) with x.
    cbn [stripAngle]. change (Ascii.eqb "<" "<") with true. cbn iota.
    by rewrite afterLastClose_here.
  - cbn [allChars] in Hname. apply andb_prop in Hname as [Hc Hname].
    change (String c name +:+ ?x) with (String c (name +:+ x)).
    cbn [stripAngle]. unfold isNot in Hc. apply negb_true_iff in Hc.
    by rewrite Hc, (IH Hname).
Qed.

Lemma stripAngle_none (s : string) :
  allChars (isNot "<") s = true -> stripAngle s = s.
Proof.
  induction s as [|c s IH]; [done |]. cbn [allChars stripAngle].
  intros [Hc Hs]%andb_prop. unfold isNot in Hc. apply negb_true_iff in Hc.
  by rewrite Hc, IH.
Qed.

Lemma replaceString_char (c : ascii) (tpl before pre post : string) :
  allChars (isNot "$") tpl = true ->
  allChars (isNot c) pre = true ->
  replaceString (str c) tpl before (pre +:+ String c post) = pre +:+ tpl +:+ post.
Proof.
  intros Htpl. revert before. induction pre as [|a pre IH]; intros before Hpre.
  - change (EmptyString +:+ ?x) with x. cbn [replaceString isPrefix str].
    rewrite Ascii.eqb_refl. cbn [andb String.length drop].
    by rewrite getSubstitution_literal.
  - cbn [allChars] in Hpre. apply andb_prop in Hpre as [Ha Hpre].
    change (String a pre +:+ ?x) with (String a (pre +:+ x)).
    cbn [replaceString isPrefix str]. unfold isNot in Ha.
    apply negb_true_iff in Ha. rewrite Ascii.eqb_sym, Ha. cbn [andb].
    by rewrite IH.
Qed.

(** X20.  With a verified sender configured, the replacement of a From header
    keeps the value without its bracketed address (the text from the first
    opening angle bracket to the last closing one of the same line), trimmed,
    and puts the verified address in brackets after it: of a display name
    followed by an address in brackets, the display name stays.  Without a
    verified sender, the first opening bracket of the value becomes [at ], the
    first closing one goes, and the original recipient is put in brackets
    after it. *)
Theorem from_text_keeps_display_name (cfg : Config) (orig : option string) :
  (forall f from,
     fromEmail cfg = Some f -> f <> EmptyString ->
     fromText cfg orig from =
     "From: " +:+ trim (stripAngle from) +:+ " <" +:+ f +:+ ">") /\
  (forall f name addr r,
     fromEmail cfg = Some f -> f <> EmptyString ->
     allChars (isNot "<") name = true ->
     allChars plain addr = true ->
     allChars (isNot ">") r = true ->
     fromText cfg orig (name +:+ "<" +:+ addr +:+ ">" +:+ r) =
     "From: " +:+ trim (name +:+ r) +:+ " <" +:+ f +:+ ">") /\
  (forall name addr r,
     truthy (fromEmail cfg) = false ->
     allChars (isNot "<") name = true ->
     allChars (isNot ">") (name +:+ addr) = true ->
     fromText cfg orig (name +:+ "<" +:+ addr +:+ ">" +:+ r) =
     "From: " +:+ name +:+ "at " +:+ addr +:+ r +:+
     " <" +:+ toString orig +:+ ">").
Proof.
  assert (Hgen : forall f from,
            fromEmail cfg = Some f -> f <> EmptyString ->
            fromText cfg orig from =
            "From: " +:+ trim (stripAngle from) +:+ " <" +:+ f +:+ ">").
  { intros f from Hf Hne. unfold fromText. rewrite Hf.
    destruct f as [|a f]; [done |]. cbn [truthy toString].
    by rewrite replace_angle. }
  split; [exact Hgen |]. split.
  - intros f name addr r Hf Hne Hname Haddr Hr. rewrite (Hgen f) by done.
    change ("<" +:+ addr +:+ ">" +:+ r) with (String "<" (addr +:+ String ">" r)).
    by rewrite stripAngle_address.
  - intros name addr r Hf Hname Hclose. unfold fromText. rewrite Hf.
    change ("<" +:+ addr +:+ ">" +:+ r) with (String "<" (addr +:+ String ">" r)).
    rewrite (replaceString_char "<" "at " EmptyString name) by done.
    replace (name +:+ "at " +:+ addr +:+ String ">" r)
      with ((name +:+ "at " +:+ addr) +:+ String ">" r)
      by (by rewrite !app_assoc).
    rewrite (replaceString_char ">" EmptyString EmptyString).
    + change (EmptyString +:+ r) with r. by rewrite !app_assoc.
    + done.
    + rewrite allChars_app in Hclose. apply andb_prop in Hclose as [H1 H2].
      by rewrite !allChars_app, H1, H2.
Qed.

Lemma from_text_keeps_display_name_witness :
  fromText relayConfig None ("Jane " +:+ "<" +:+ "jane@x.com" +:+ ">" +:+ EmptyString) =
  "From: " +:+ trim ("Jane " +:+ EmptyString) +:+ " <" +:+ "relay@verified.com" +:+ ">".
Proof.
  apply (proj1 (proj2 (from_text_keeps_display_name relayConfig None))
           "relay@verified.com" "Jane " "jane@x.com" EmptyString).
  - reflexivity.
  - discriminate.
  - reflexivity.
  - reflexivity.
  - reflexivity.
Defined.

(** ** The replacement of From headers *)

Lemma fromRe_parts : fromRe = headerRe "from:" fromTail.
Proof. reflexivity. Qed.

Lemma foldsString_app (a b : list Fold) :
  foldsString (a ++ b) = foldsString a +:+ foldsString b.
Proof.
  induction a as [|f a IH]; [done |]. cbn [app foldsString].
  by rewrite IH, app_assoc.
Qed.

(** The value of a header ends with a character of its last line. *)
Lemma lastChar_value (before : string) (en : Entry) :
  entryOk en = true ->
  exists a, lastChar (before +:+ entryFirst en +:+ foldsString (entryFolds en)) = Some a /\
            plain a = true.
Proof.
  intros Hen. destruct (entryOk_parts en Hen) as ((a & c & Hc & _) & Hplain & Hf & _).
  destruct (entryFolds en) as [|f0 fs0] eqn:Hfolds.
  - cbn [foldsString]. rewrite app_empty_r, Hc, lastChar_app_cons.
    rewrite Hc in Hplain. by apply lastChar_plain.
  - rewrite <- Hfolds in *. clear Hfolds.
    destruct (entryFolds en) as [|f fs _] using rev_ind.
    + cbn [foldsString]. rewrite app_empty_r, Hc, lastChar_app_cons.
      rewrite Hc in Hplain. by apply lastChar_plain.
    + rewrite forallb_app in Hf. apply andb_prop in Hf as [_ Hf].
      cbn [forallb] in Hf. rewrite andb_true_r in Hf.
      destruct (foldOk_parts f Hf) as (_ & _ & (x & v & Hv & _ & Hvok)).
      rewrite foldsString_app. cbn [foldsString]. unfold foldString.
      rewrite app_empty_r, Hv.
      replace (before +:+ entryFirst en +:+ foldsString fs +:+
               foldEol f +:+ foldIndent f +:+ String x v)
        with ((before +:+ entryFirst en +:+ foldsString fs +:+
               foldEol f +:+ foldIndent f) +:+ String x v)
        by (by rewrite !app_assoc).
      rewrite lastChar_app_cons. by apply lastChar_plain.
Qed.

Section FromEntries.
Context (cfg : Config) (orig : option string).

Let re : regex := headerRe "from:" fromTail.
Let f : replacer := fun _ h => fromText cfg orig (arg 1 h).

Lemma matchAt_from_entry (p : option ascii) (en : Entry) (post : string) :
  startsLine p = true ->
  entryOk en = true ->
  startsWith "from:" (entryFirst en) = true ->
  endsFolding post = true ->
  matchAt gimFlags re p
    ((entryFirst en +:+ foldsString (entryFolds en)) +:+ entryEol en +:+ post) =
  Some (Hit (entryFirst en +:+ foldsString (entryFolds en)) (entryEol en +:+ post)
          (<[1 := headerValue "from:" (entryFirst en) +:+
                  foldsString (entryFolds en)]> ∅)).
Proof.
  intros Hp Hen Hstart Hpost.
  destruct (entryOk_parts en Hen) as (_ & Hc & Hf & He).
  apply matchAt_yields. rewrite !app_assoc.
  set (c0 := entryFirst en) in *. set (folds := entryFolds en) in *.
  set (e := entryEol en) in *.
  pose proof (atLineEnd_folds folds e post Hf He) as Hend.
  unfold re, headerRe. rewrite matcher_Cat, matcher_Bol.
  rewrite (atLineStart_startsLine gimFlags eq_refl) by done.
  rewrite matcher_Cat.
  destruct (matcher_lit_reads gimFlags eq_refl "from:"
              (c0 +:+ foldsString folds +:+ e +:+ post) p ∅) as [q' ->]; [done | |].
  { by rewrite startsWith_app_line. }
  rewrite startsWith_drop_app by done. unfold fromTail. rewrite matcher_Cat.
  apply (matcher_tabOrSpace gimFlags eq_refl); [done |]. intros q1.
  rewrite matcher_Group, matcher_Cat.
  apply star_dot_yields; [by apply allChars_dropBlank, allChars_drop | done |].
  intros q2. rewrite matcher_Star. cbn [rest groupsOf].
  change (groupsOf foldBody) with (@nil nat).
  apply (folds_read gimFlags eq_refl); [done | done | done | done |].
  intros q3. exists q3. unfold consumed. cbn [prev rest caps].
  do 3 f_equal.
  replace (dropBlank (drop (String.length "from:") c0) +:+
           foldsString folds +:+ e +:+ post)
    with ((headerValue "from:" c0 +:+ foldsString folds) +:+ e +:+ post)
    by (unfold headerValue; by rewrite !app_assoc).
  apply take_consumed.
Qed.

(** After the value of a header the scan is inside a line, and goes over
    the line end without a match. *)
Lemma search_after_entry_value (a : ascii) (e s : string) :
  plain a = true ->
  isEol e = true ->
  search gimFlags re (Some a) (e +:+ s) =
  prepend e <$> search gimFlags re (Some LF) s.
Proof.
  unfold re. intros Ha [-> | ->]%isEol_cases.
  - change (str LF +:+ s) with (EmptyString +:+ String LF s).
    by rewrite (search_inside_line gimFlags "from:" fromTail a LF EmptyString s).
  - change (CRLF +:+ s) with (EmptyString +:+ String CR (String LF s)).
    rewrite (search_inside_line gimFlags "from:" fromTail a CR EmptyString) by done.
    change (String LF s) with (EmptyString +:+ String LF s).
    rewrite (search_other_line gimFlags eq_refl "from:" eq_refl fromTail
               (Some CR) LF EmptyString s) by done.
    by rewrite prepend_prepend.
Qed.

Lemma space_not_f (a : ascii) : isSpace a = true -> sameLetter a "f" = false.
Proof. by destruct a as [[] [] [] [] [] [] [] []]. Qed.

Lemma replaceLoop_from_entries (es : list Entry) (fuel : nat) (before : string) :
  forallb entryOk es = true ->
  startsLine (lastChar before) = true ->
  String.length (entries es) < fuel ->
  replaceLoop gimFlags re f fuel before (entries es) =
  mapEntries (fromEntry cfg orig) es.
Proof.
  unfold re.
  revert fuel before. induction es as [|en es IH]; intros fuel before Hes Hb Hfuel.
  - apply replaceLoop_none. cbn [entries mapEntries search].
    by rewrite (matchAt_other_name gimFlags eq_refl).
  - cbn [forallb] in Hes. apply andb_prop in Hes as [Hen Hes].
    destruct (entryOk_parts en Hen) as ((a & c & Hc & Ha) & Hplain & Hf & He).
    cbn [entries mapEntries] in *. unfold fromEntry at 1.
    assert (Hlast : lastChar (before +:+ entryString en) = Some LF).
    { unfold entryString. rewrite <- !app_assoc. by apply lastChar_eol. }
    assert (Hpos : 0 < String.length (entryFirst en +:+ foldsString (entryFolds en))).
    { rewrite Hc. cbn. lia. }
    pose proof (block_length_pos EmptyString (entryEol en) He) as Hepos.
    change (EmptyString +:+ entryEol en) with (entryEol en) in Hepos.
    unfold entryString in Hfuel. rewrite <- !app_assoc, !length_app in Hfuel.
    destruct fuel as [|n]; [lia |].
    destruct (startsWith "from:" (entryFirst en)) eqn:Hs.
    + pose proof (matchAt_from_entry (lastChar before) en (entries es) Hb Hen Hs
                    (entries_endsFolding es Hes)) as Hm.
      unfold re in Hm.
      destruct (lastChar_value before en Hen) as (a' & Hlast' & Ha').
      unfold entryString.
      replace ((entryFirst en +:+ foldsString (entryFolds en) +:+ entryEol en)
               +:+ entries es)
        with ((entryFirst en +:+ foldsString (entryFolds en)) +:+
              (entryEol en +:+ entries es)) by (by rewrite !app_assoc).
      destruct (entryFirst en +:+ foldsString (entryFolds en)) as [|x m] eqn:Hval;
        [cbn in Hpos; lia |].
      rewrite (replaceLoop_hit _ _ _ n before _ x m (entryEol en +:+ entries es)
                 (<[1 := headerValue "from:" (entryFirst en) +:+
                         foldsString (entryFolds en)]> ∅)).
      2: { change (String x m +:+ ?y) with (String x (m +:+ y)) in *.
           cbn [search]. by rewrite Hm. }
      unfold f at 1, arg. cbn [captures]. rewrite lookup_insert_eq. cbn [default].
      rewrite !app_assoc. f_equal.
      destruct n as [|n]; [cbn [String.length] in Hfuel; lia |].
      rewrite replaceLoop_skip.
      * f_equal. apply IH; [done | | cbn [String.length] in Hfuel; lia].
        by rewrite lastChar_eol.
      * rewrite Hlast', lastChar_eol by done.
        by apply search_after_entry_value.
    + destruct n as [|n]; [lia |].
      change (entryFirst en +:+ foldsString (entryFolds en) +:+ entryEol en)
        with (entryString en).
      rewrite replaceLoop_skip.
      * rewrite IH; [done | done | by rewrite Hlast | lia].
      * rewrite Hlast, entryString_lines.
        apply (search_skip_block gimFlags eq_refl "from:" eq_refl);
          [done | by apply entryLines_ok | | done].
        unfold entryLines. cbn [forallb]. unfold keeps at 1. cbn [fst].
        rewrite Hs. cbn [negb andb].
        by apply (foldLines_keep "from:" "f" "rom:" _ _ eq_refl space_not_f).
Qed.

End FromEntries.

(** X21.  In a header block made of headers with their continuation lines, the
    replacement of From puts, for every header whose first line begins with
    [From:] (in any case), the new From text in the place of the first line
    and all its continuation lines, made from the value with the continuation
    lines; the line end that closes the header stays, and every other header
    is left as it is. *)
Theorem from_headers_replaced (cfg : Config) (orig : option string)
    (es : list Entry) :
  forallb entryOk es = true ->
  replaceFrom cfg orig (entries es) = mapEntries (fromEntry cfg orig) es.
Proof.
  intros Hes. unfold replaceFrom, RegExp.replace. cbn [global gimFlags].
  rewrite fromRe_parts. by apply replaceLoop_from_entries; [..| lia].
Qed.

Lemma from_headers_replaced_witness :
  replaceFrom relayConfig None
    (entries [ {| entryFirst := "From: Jane";
                  entryFolds := [ {| foldEol := CRLF; foldIndent := " ";
                                     foldText := "<jane@x.com>" |} ];
                  entryEol := CRLF |};
               {| entryFirst := "Subject: s"; entryFolds := []; entryEol := CRLF |} ]) =
  mapEntries (fromEntry relayConfig None)
    [ {| entryFirst := "From: Jane";
         entryFolds := [ {| foldEol := CRLF; foldIndent := " ";
                            foldText := "<jane@x.com>" |} ];
         entryEol := CRLF |};
      {| entryFirst := "Subject: s"; entryFolds := []; entryEol := CRLF |} ].
Proof.
  apply from_headers_replaced. reflexivity.
Defined.

(** ** Headers on one line: the whole rewrite *)

Lemma oneLineOk_parts (ln : string * string) :
  oneLineOk ln = true ->
  startsText ln.1 = true /\ allChars plain ln.1 = true /\ isEol ln.2 = true.
Proof.
  unfold oneLineOk, textLineOk. intros [H1 [H2 H3]%andb_prop]%andb_prop. done.
Qed.

Lemma oneLineOk_text (lines : list (string * string)) :
  forallb oneLineOk lines = true -> forallb textLineOk lines = true.
Proof.
  induction lines as [|ln lines IH]; [done |]. cbn [forallb].
  intros [Hln Hl]%andb_prop. unfold oneLineOk in Hln.
  apply andb_prop in Hln as [_ ->]. by apply IH.
Qed.

Lemma oneLineOk_header (lines : list (string * string)) :
  forallb oneLineOk lines = true -> forallb headerLineOk lines = true.
Proof.
  induction lines as [|[c e] lines IH]; [done |]. cbn [forallb].
  intros [Hln Hl]%andb_prop. rewrite (IH Hl), andb_true_r.
  unfold oneLineOk in Hln. apply andb_prop in Hln as [Hs Ht].
  unfold headerLineOk. rewrite Ht. cbn [fst] in *. by destruct c.
Qed.

Lemma oneLineOk_shape (lines : list (string * string)) :
  forallb oneLineOk lines = true -> forallb lineShapeOk lines = true.
Proof.
  induction lines as [|ln lines IH]; [done |]. cbn [forallb].
  intros [Hln Hl]%andb_prop. rewrite (IH Hl), andb_true_r.
  unfold oneLineOk in Hln. apply andb_prop in Hln as [Hs Ht].
  unfold lineShapeOk. by rewrite Ht, Hs.
Qed.

Lemma oneLineOk_entries (lines : list (string * string)) :
  forallb oneLineOk lines = true ->
  forallb entryOk (map lineEntry lines) = true /\
  entries (map lineEntry lines) = block lines.
Proof.
  induction lines as [|[c e] lines IH]; [done |]. cbn [forallb map entries block].
  intros [Hln Hl]%andb_prop. destruct (IH Hl) as [-> ->].
  destruct (oneLineOk_parts _ Hln) as (Hs & Hc & He). cbn [fst snd] in *.
  unfold entryOk, entryString, lineEntry.
  cbn [entryFirst entryFolds entryEol fst snd forallb foldsString].
  rewrite Hs, Hc, He. change (EmptyString +:+ e) with e.
  by rewrite <- app_assoc.
Qed.

(** *** The appended line *)

Lemma hasHeaderFrom_line (name : string) (b : bool) (c e s : string) :
  allChars nameChar name = true ->
  name <> EmptyString ->
  allChars plain c = true ->
  isEol e = true ->
  hasHeaderFrom name b (c +:+ e +:+ s) =
  (b && startsWith name c) || hasHeaderFrom name true s.
Proof.
  intros Hname Hne Hc He.
  assert (Hlf : forall r, startsWith name (String LF r) = false).
  { intros r. destruct name as [|n name]; [done |]. cbn [allChars] in Hname.
    apply andb_prop in Hname as [Hn _]. unfold nameChar in Hn.
    apply andb_prop in Hn as [Hn _]. apply negb_true_iff in Hn.
    cbn [startsWith]. by rewrite Hn. }
  assert (Hcr : forall r, startsWith name (String CR r) = false).
  { intros r. destruct name as [|n name]; [done |]. cbn [allChars] in Hname.
    apply andb_prop in Hname as [Hn _]. unfold nameChar in Hn.
    apply andb_prop in Hn as [_ Hn]. apply negb_true_iff in Hn.
    cbn [startsWith]. by rewrite Hn. }
  assert (Hend : atLineEnd (e +:+ s) = true).
  { by destruct (isEol_cases e He) as [-> | ->]. }
  rewrite <- (startsWith_app_line name c (e +:+ s) Hname Hend).
  revert b. induction c as [|a c IH]; intros b.
  - change (EmptyString +:+ ?x) with x.
    destruct (isEol_cases e He) as [-> | ->].
    + change (str LF +:+ s) with (String LF s). by cbn [hasHeaderFrom].
    + change (CRLF +:+ s) with (String CR (String LF s)).
      cbn [hasHeaderFrom]. rewrite Hcr, Hlf.
      change (isLineTerminator CR) with true. change (isLineTerminator LF) with true.
      by rewrite andb_false_r.
  - cbn [allChars] in Hc. apply andb_prop in Hc as [Ha Hc].
    change (String a c +:+ ?x) with (String a (c +:+ x)).
    cbn [hasHeaderFrom]. rewrite (IH Hc).
    unfold plain in Ha. apply negb_true_iff in Ha. rewrite Ha.
    by cbn [andb orb].
Qed.

Lemma hasHeader_block (name : string) (lines : list (string * string)) :
  allChars nameChar name = true ->
  name <> EmptyString ->
  forallb textLineOk lines = true ->
  hasHeader name (block lines) = existsb (fun ln => startsWith name ln.1) lines.
Proof.
  intros Hname Hne. unfold hasHeader.
  induction lines as [|[c e] lines IH]; intros Hl.
  - cbn [block existsb hasHeaderFrom]. destruct name; [done |]. done.
  - cbn [forallb] in Hl. apply andb_prop in Hl as [Hln Hl].
    unfold textLineOk in Hln. cbn [fst snd] in Hln.
    apply andb_prop in Hln as [Hc He].
    cbn [block existsb fst]. rewrite hasHeaderFrom_line by done.
    by rewrite IH.
Qed.

Lemma find_split (p : string * string -> bool) (lines : list (string * string)) :
  match List.find p lines with
  | Some ln =>
      exists pre post, lines = pre ++ ln :: post /\ p ln = true /\
                       forallb (fun l => negb (p l)) pre = true
  | None => forallb (fun l => negb (p l)) lines = true
  end.
Proof.
  induction lines as [|l lines IH]; [done |]. cbn [List.find].
  destruct (p l) eqn:Hl.
  - by exists [], lines.
  - destruct (List.find p lines) as [ln|].
    + destruct IH as (pre & post & -> & Hln & Hpre).
      exists (l :: pre), post. cbn [forallb]. by rewrite Hl, Hpre.
    + cbn [forallb]. by rewrite Hl, IH.
Qed.

Lemma block_endsFolding (lines : list (string * string)) :
  forallb oneLineOk lines = true -> endsFolding (block lines) = true.
Proof.
  intros Hl. apply lineShape_endsFolding; [by apply oneLineOk_shape |].
  destruct lines as [|ln lines]; [done |]. cbn [forallb] in Hl.
  apply andb_prop in Hl as [Hln _]. apply oneLineOk_parts in Hln as (Hs & _ & _).
  unfold isCont. destruct ln.1 as [|a c]; [done |]. cbn [startsText] in Hs.
  apply negb_true_iff in Hs. by rewrite Hs.
Qed.

Lemma search_from_none (p : option ascii) (lines : list (string * string)) :
  forallb textLineOk lines = true ->
  forallb (keeps "from:") lines = true ->
  search imFlags fromLineRe p (block lines) = None.
Proof.
  intros Hl Hk.
  change fromLineRe with (headerRe "from:" (Cat tabOrSpace (Group 1 fromBody))).
  destruct lines as [|ln lines].
  - cbn [block search]. by rewrite (matchAt_other_name imFlags eq_refl).
  - rewrite <- (app_empty_r (block (ln :: lines))).
    rewrite (search_skip_block imFlags eq_refl "from:" eq_refl) by done.
    cbn [search]. by rewrite (matchAt_other_name imFlags eq_refl).
Qed.

Lemma fromValue_block (lines : list (string * string)) :
  forallb oneLineOk lines = true ->
  fromValue (block lines) =
  match List.find (fun ln => startsWith "from:" ln.1) lines with
  | Some ln => headerValue "from:" ln.1 +:+ ln.2
  | None => EmptyString
  end.
Proof.
  intros Hl. pose proof (find_split (fun ln => startsWith "from:" ln.1) lines) as Hf.
  destruct (List.find _ lines) as [[c e]|].
  - destruct Hf as (pre & post & -> & Hc & Hpre). cbn [fst snd] in *.
    rewrite forallb_app in Hl. apply andb_prop in Hl as [Hlpre Hl].
    cbn [forallb] in Hl. apply andb_prop in Hl as [Hln Hlpost].
    destruct (oneLineOk_parts _ Hln) as (_ & Hplain & He). cbn [fst snd] in *.
    unfold fromValue, exec. rewrite block_app. cbn [block].
    assert (Hm : forall p, startsLine p = true ->
              search imFlags fromLineRe p (c +:+ e +:+ block post) =
              Some (EmptyString,
                    Hit (c +:+ e) (block post)
                      (<[1 := headerValue "from:" c +:+ e]> ∅))).
    { intros p Hp.
      pose proof (matchAt_from_line p c [] e (block post) Hp Hplain Hc eq_refl He
                    (block_endsFolding post Hlpost)) as Hm.
      cbn [foldsString] in Hm. change (EmptyString +:+ ?x) with x in Hm.
      destruct (c +:+ e +:+ block post); cbn [search]; by rewrite Hm. }
    assert (Hs : exists pfx,
              search imFlags fromLineRe None (block pre +:+ c +:+ e +:+ block post) =
              Some (pfx, Hit (c +:+ e) (block post)
                           (<[1 := headerValue "from:" c +:+ e]> ∅))).
    { destruct pre as [|ln pre].
      - exists EmptyString. change (block [] +:+ ?x) with x. by apply Hm.
      - eexists.
        change fromLineRe
          with (headerRe "from:" (Cat tabOrSpace (Group 1 fromBody))) in *.
        rewrite (search_skip_block imFlags eq_refl "from:" eq_refl);
          [| done | by apply oneLineOk_text | done | done].
        rewrite (Hm (Some LF) eq_refl). reflexivity. }
    destruct Hs as [pfx ->].
    cbn [group mbind option_bind captures snd]. rewrite lookup_insert_eq.
    cbn [toString].
    assert (Hlen : 0 < String.length (headerValue "from:" c +:+ e)).
    { rewrite length_app. destruct (isEol_cases e He) as [-> | ->]; simpl; lia. }
    by destruct (headerValue "from:" c +:+ e); [simpl in Hlen; lia |].
  - unfold fromValue, exec.
    by rewrite search_from_none; [| by apply oneLineOk_text |].
Qed.

Lemma addReplyTo_block (lines : list (string * string)) :
  forallb oneLineOk lines = true ->
  (addReplyTo (block lines)).2 = block (lines ++ replyToLines lines).
Proof.
  intros Hl. unfold addReplyTo, replyToLines.
  rewrite test_replyTo, (hasHeader_block "reply-to:") by
    (done || by apply oneLineOk_text).
  destruct (existsb _ lines); cbn [negb].
  { by rewrite List.app_nil_r. }
  rewrite fromValue_block by done.
  pose proof (find_split (fun ln => startsWith "from:" ln.1) lines) as Hf.
  destruct (List.find _ lines) as [[c e]|].
  - destruct Hf as (pre & post & -> & _ & _).
    rewrite forallb_app in Hl. apply andb_prop in Hl as [_ Hl].
    cbn [forallb] in Hl. apply andb_prop in Hl as [Hln _].
    destruct (oneLineOk_parts _ Hln) as (_ & _ & He). cbn [fst snd] in *.
    assert (Hlen : 0 < String.length (headerValue "from:" c +:+ e)).
    { rewrite length_app. destruct (isEol_cases e He) as [-> | ->]; simpl; lia. }
    destruct (headerValue "from:" c +:+ e) as [|x v] eqn:Hv; [simpl in Hlen; lia |].
    cbn [truthy snd]. rewrite <- Hv.
    rewrite (block_app _ [_]). cbn [block]. by rewrite app_empty_r, !app_assoc.
  - cbn [truthy snd]. by rewrite List.app_nil_r.
Qed.

(** *** The replacements *)

Lemma replaceFrom_block (cfg : Config) (orig : option string)
    (lines : list (string * string)) :
  forallb oneLineOk lines = true ->
  replaceFrom cfg orig (block lines) =
  block (map (fun ln => (fromLine cfg orig ln.1, ln.2)) lines).
Proof.
  intros Hl. destruct (oneLineOk_entries lines Hl) as [Hes Hb].
  rewrite <- Hb at 1. unfold replaceFrom, RegExp.replace. cbn [global gimFlags].
  rewrite fromRe_parts, replaceLoop_from_entries; [| done | done | lia].
  clear. induction lines as [|[c e] lines IH]; [done |].
  cbn [map mapEntries block fst snd]. rewrite IH.
  unfold fromEntry, fromLine, onLine, lineEntry, entryString.
  cbn [entryFirst entryFolds entryEol fst snd foldsString].
  rewrite app_empty_r. change (EmptyString +:+ e) with e.
  destruct (startsWith "from:" c); by rewrite <- app_assoc.
Qed.

Lemma toLines_line (c : string) (t : ascii) (s : string) :
  allChars plain c = true ->
  isLineTerminator t = true ->
  toLines (c +:+ String t s) = ((c, t) :: (toLines s).1, (toLines s).2).
Proof.
  intros Hc Ht. induction c as [|a c IH].
  - change (EmptyString +:+ ?x) with x. cbn [toLines]. rewrite Ht.
    by destruct (toLines s).
  - cbn [allChars] in Hc. apply andb_prop in Hc as [Ha Hc].
    change (String a c +:+ ?x) with (String a (c +:+ x)).
    cbn [toLines]. rewrite (IH Hc).
    unfold plain in Ha. apply negb_true_iff in Ha. by rewrite Ha.
Qed.

Lemma mapLines_line (f : string -> string) (c e s : string) :
  f EmptyString = EmptyString ->
  allChars plain c = true ->
  isEol e = true ->
  mapLines f (c +:+ e +:+ s) = f c +:+ e +:+ mapLines f s.
Proof.
  intros Hf Hc He. unfold mapLines.
  destruct (isEol_cases e He) as [-> | ->].
  - change (str LF +:+ s) with (String LF s).
    rewrite toLines_line by done. by cbn [fst snd map unlines].
  - change (CRLF +:+ s) with (String CR (String LF s)).
    rewrite toLines_line by done.
    pose proof (toLines_line EmptyString LF s eq_refl eq_refl) as H0.
    change (EmptyString +:+ String LF s) with (String LF s) in H0. rewrite H0.
    cbn [fst snd map unlines]. rewrite Hf.
    change (EmptyString +:+ ?x) with x.
    by change (CRLF +:+ ?x) with (String CR (String LF x)).
Qed.

Lemma mapLines_block (f : string -> string) (lines : list (string * string)) :
  f EmptyString = EmptyString ->
  forallb textLineOk lines = true ->
  mapLines f (block lines) = block (map (fun ln => (f ln.1, ln.2)) lines).
Proof.
  intros Hf. induction lines as [|[c e] lines IH]; intros Hl.
  - unfold mapLines. cbn [block toLines fst snd map unlines]. exact Hf.
  - cbn [forallb] in Hl. apply andb_prop in Hl as [Hln Hl].
    unfold textLineOk in Hln. cbn [fst snd] in Hln.
    apply andb_prop in Hln as [Hc He].
    cbn [block map fst snd]. rewrite mapLines_line by done. by rewrite IH.
Qed.

Lemma block_map_id (lines : list (string * string)) :
  block (map (fun ln => (ln.1, ln.2)) lines) = block lines.
Proof.
  induction lines as [|[c e] lines IH]; [done |]. cbn [map block fst snd].
  by rewrite IH.
Qed.

Lemma prefixSubject_block (cfg : Config) (lines : list (string * string)) :
  forallb textLineOk lines = true ->
  prefixSubject cfg (block lines) =
  block (map (fun ln => (subjectLine cfg ln.1, ln.2)) lines).
Proof.
  intros Hl. unfold subjectLine.
  destruct (truthy (subjectPrefix cfg)) eqn:Ht.
  - destruct (subjectPrefix cfg) as [[|a p]|] eqn:Hp; try done.
    cbn [toString]. rewrite <- (mapLines_block (prefixLine (String a p))) by done.
    destruct (toLines_spec (block lines)) as (Hs & Hok & Hlast).
    rewrite <- Hs at 1. by apply prefixSubject_lines.
  - unfold prefixSubject. rewrite Ht. by rewrite block_map_id.
Qed.

Lemma replaceTo_block (cfg : Config) (lines : list (string * string)) :
  allChars (isNot "$") (toString (toEmail cfg)) = true ->
  forallb textLineOk lines = true ->
  replaceTo cfg (block lines) =
  block (map (fun ln => (configuredToLine cfg ln.1, ln.2)) lines).
Proof.
  intros Hd Hl. unfold configuredToLine, replaceTo.
  destruct (truthy (toEmail cfg)) eqn:Ht.
  - rewrite <- (mapLines_block (toLine (toString (toEmail cfg)))) by done.
    change toRe with (headerRe "to:" valueTail).
    apply (replace_value_lines "to:" eq_refl ltac:(done)).
    intros before c r. by apply getSubstitution_literal; rewrite allChars_app.
  - by rewrite block_map_id.
Qed.

(** *** The new lines are header lines *)

Lemma allChars_trimStart (p : ascii -> bool) (s : string) :
  allChars p s = true -> allChars p (trimStart s) = true.
Proof.
  induction s as [|c s IH]; [done |]. cbn [allChars trimStart].
  intros [Hc Hs]%andb_prop. destruct (isSpace c); [by apply IH |].
  cbn [allChars]. by rewrite Hc, Hs.
Qed.

Lemma allChars_trimEnd (p : ascii -> bool) (s : string) :
  allChars p s = true -> allChars p (trimEnd s) = true.
Proof.
  induction s as [|c s IH]; [done |]. cbn [allChars trimEnd].
  intros [Hc Hs]%andb_prop. specialize (IH Hs).
  destruct (trimEnd s) as [|x t].
  - destruct (isSpace c); [done |]. cbn [str allChars]. by rewrite Hc.
  - cbn [allChars] in *. by rewrite Hc, IH.
Qed.

Lemma allChars_afterLastClose (p : ascii -> bool) (s r : string) :
  allChars p s = true -> afterLastClose s = Some r -> allChars p r = true.
Proof.
  revert r. induction s as [|c s IH]; intros r; [done |].
  cbn [allChars afterLastClose]. intros [Hc Hs]%andb_prop.
  destruct (isLineTerminator c); [done |].
  destruct (afterLastClose s) as [r'|].
  - intros [= <-]. by apply IH.
  - destruct (Ascii.eqb c ">"); [|done]. by intros [= <-].
Qed.

Lemma allChars_stripAngle (p : ascii -> bool) (s : string) :
  allChars p s = true -> allChars p (stripAngle s) = true.
Proof.
  induction s as [|c s IH]; [done |]. cbn [allChars stripAngle].
  intros [Hc Hs]%andb_prop.
  destruct (Ascii.eqb c "<").
  - destruct (afterLastClose s) as [r|] eqn:Hr.
    + by apply (allChars_afterLastClose p s).
    + cbn [allChars]. by rewrite Hc, IH.
  - cbn [allChars]. by rewrite Hc, IH.
Qed.

Lemma allChars_replaceString (p : ascii -> bool) (c : ascii)
    (tpl before s : string) :
  allChars (isNot "$") tpl = true ->
  allChars p tpl = true ->
  allChars p s = true ->
  allChars p (replaceString (str c) tpl before s) = true.
Proof.
  intros Hd Htpl. revert before. induction s as [|a s IH]; intros before Hs.
  - done.
  - cbn [replaceString]. destruct (isPrefix (str c) (String a s)).
    + rewrite getSubstitution_literal by done. rewrite allChars_app, Htpl.
      by apply allChars_drop.
    + cbn [allChars] in *. apply andb_prop in Hs as [Ha Hs].
      by rewrite Ha, IH.
Qed.

Lemma fromText_line (cfg : Config) (orig : option string) (v : string) :
  allChars plain (toString (fromEmail cfg)) = true ->
  allChars plain (toString orig) = true ->
  allChars plain v = true ->
  startsText (fromText cfg orig v) = true /\
  allChars plain (fromText cfg orig v) = true.
Proof.
  intros Hf Ho Hv. unfold fromText. destruct (truthy (fromEmail cfg)).
  - split; [reflexivity |]. rewrite replace_angle, !allChars_app, Hf.
    unfold trim. rewrite allChars_trimEnd; [done |].
    by apply allChars_trimStart, allChars_stripAngle.
  - split; [reflexivity |]. rewrite !allChars_app, Ho.
    rewrite (allChars_replaceString plain ">"); try done.
    by apply (allChars_replaceString plain "<").
Qed.

Lemma fromLine_ok (cfg : Config) (orig : option string) (ln : string * string) :
  allChars plain (toString (fromEmail cfg)) = true ->
  allChars plain (toString orig) = true ->
  oneLineOk ln = true ->
  oneLineOk (fromLine cfg orig ln.1, ln.2) = true.
Proof.
  intros Hf Ho Hln. destruct (oneLineOk_parts ln Hln) as (Hs & Hc & He).
  unfold fromLine, onLine. destruct (startsWith "from:" ln.1).
  - destruct (fromText_line cfg orig (headerValue "from:" ln.1) Hf Ho) as [H1 H2].
    { unfold headerValue. by apply allChars_dropBlank, allChars_drop. }
    unfold oneLineOk, textLineOk. cbn [fst snd]. by rewrite H1, H2, He.
  - unfold oneLineOk, textLineOk. cbn [fst snd]. by rewrite Hs, Hc, He.
Qed.

Lemma subjectLine_ok (cfg : Config) (ln : string * string) :
  allChars plain (toString (subjectPrefix cfg)) = true ->
  oneLineOk ln = true ->
  oneLineOk (subjectLine cfg ln.1, ln.2) = true.
Proof.
  intros Hp Hln. destruct (oneLineOk_parts ln Hln) as (Hs & Hc & He).
  unfold oneLineOk, textLineOk, subjectLine. cbn [fst snd].
  destruct (truthy (subjectPrefix cfg)); [| by rewrite Hs, Hc, He].
  rewrite prefixLine_plain, He by done. unfold prefixLine.
  destruct (startsWith "subject:" ln.1); [reflexivity | by rewrite Hs].
Qed.

Lemma configuredToLine_ok (cfg : Config) (ln : string * string) :
  allChars plain (toString (toEmail cfg)) = true ->
  oneLineOk ln = true ->
  oneLineOk (configuredToLine cfg ln.1, ln.2) = true.
Proof.
  intros Hp Hln. destruct (oneLineOk_parts ln Hln) as (Hs & Hc & He).
  unfold oneLineOk, textLineOk, configuredToLine, toLine, onLine. cbn [fst snd].
  destruct (truthy (toEmail cfg)); [| by rewrite Hs, Hc, He].
  destruct (startsWith "to:" ln.1); [| by rewrite Hs, Hc, He].
  by rewrite allChars_app, Hp, He.
Qed.

Lemma forallb_map_ok (g : string * string -> string * string)
    (lines : list (string * string)) :
  (forall ln, oneLineOk ln = true -> oneLineOk (g ln) = true) ->
  forallb oneLineOk lines = true ->
  forallb oneLineOk (map g lines) = true.
Proof.
  intros Hg. induction lines as [|ln lines IH]; [done |]. cbn [forallb map].
  intros [Hln Hl]%andb_prop. by rewrite (Hg ln Hln), IH.
Qed.

Lemma replyToLines_ok (lines : list (string * string)) :
  forallb oneLineOk lines = true ->
  forallb oneLineOk (lines ++ replyToLines lines) = true.
Proof.
  intros Hl. rewrite forallb_app, Hl. unfold replyToLines.
  destruct (existsb _ lines); [done |].
  pose proof (find_split (fun ln => startsWith "from:" ln.1) lines) as Hf.
  destruct (List.find _ lines) as [ln|]; [|done].
  destruct Hf as (pre & post & -> & _ & _).
  rewrite forallb_app in Hl. apply andb_prop in Hl as [_ Hl].
  cbn [forallb] in Hl. apply andb_prop in Hl as [Hln _].
  destruct (oneLineOk_parts ln Hln) as (Hs & Hc & He).
  cbn [forallb]. unfold oneLineOk, textLineOk. cbn [fst snd].
  rewrite allChars_app, He. unfold headerValue.
  by rewrite allChars_dropBlank by (by apply allChars_drop).
Qed.

(** *** The removals *)

Lemma dropDkim_one_line (inside : bool) (lines : list (string * string)) :
  forallb oneLineOk lines = true ->
  dropDkimFrom inside (List.filter keepsLine lines) = List.filter keepsHeader lines.
Proof.
  revert inside. induction lines as [|ln lines IH]; intros inside; [done |].
  cbn [forallb List.filter]. intros [Hln Hl]%andb_prop.
  apply oneLineOk_parts in Hln as (Hs & _ & _).
  unfold keepsHeader at 1. destruct (keepsLine ln); cbn [andb]; [| by apply IH].
  cbn [dropDkimFrom]. unfold keeps.
  destruct (startsWith "dkim-signature:" ln.1); cbn [negb]; [by apply IH |].
  assert (isCont ln = false) as ->.
  { unfold isCont. destruct ln.1 as [|a c]; [done |]. cbn [startsText] in Hs.
    apply negb_true_iff in Hs. by rewrite Hs. }
  by rewrite andb_false_r, IH.
Qed.

Lemma rewriteHeader_one_line (cfg : Config) (orig : option string)
    (lines : list (string * string)) :
  forallb oneLineOk lines = true ->
  allChars plain (toString (fromEmail cfg)) = true ->
  allChars plain (toString orig) = true ->
  allChars plain (toString (subjectPrefix cfg)) = true ->
  allChars plain (toString (toEmail cfg)) = true ->
  allChars (isNot "$") (toString (toEmail cfg)) = true ->
  (rewriteHeader cfg orig (block lines)).2 =
  block (List.filter keepsHeader
           (map (rewriteLine cfg orig) (lines ++ replyToLines lines))).
Proof.
  intros Hl Hf Ho Hp Ht Hd. unfold rewriteHeader.
  pose proof (addReplyTo_block lines Hl) as Hadd.
  destruct (addReplyTo (block lines)) as [logs header]. cbn [snd] in *. subst header.
  pose proof (replyToLines_ok lines Hl) as Hl0.
  set (l0 := lines ++ replyToLines lines) in *.
  rewrite replaceFrom_block by done.
  set (l1 := map (fun ln => (fromLine cfg orig ln.1, ln.2)) l0).
  assert (Hl1 : forallb oneLineOk l1 = true).
  { apply forallb_map_ok; [| done]. intros ln. by apply fromLine_ok. }
  rewrite prefixSubject_block by (by apply oneLineOk_text).
  set (l2 := map (fun ln => (subjectLine cfg ln.1, ln.2)) l1).
  assert (Hl2 : forallb oneLineOk l2 = true).
  { apply forallb_map_ok; [| done]. intros ln. by apply subjectLine_ok. }
  rewrite replaceTo_block by (done || by apply oneLineOk_text).
  set (l3 := map (fun ln => (configuredToLine cfg ln.1, ln.2)) l2).
  assert (Hl3 : forallb oneLineOk l3 = true).
  { apply forallb_map_ok; [| done]. intros ln. by apply configuredToLine_ok. }
  rewrite stripHeaders_lines by (by apply oneLineOk_shape).
  unfold dropDkim. rewrite dropDkim_one_line by done.
  do 2 f_equal. unfold l3, l2, l1. rewrite !map_map. done.
Qed.

(** X23.  In a message whose headers are each on one line (a line that begins
    with a character that is not white space, ended by LF or CRLF), for a
    configuration whose sender, subject prefix and recipient, like the
    original recipient, have no line break, and whose recipient has no dollar
    sign, the rewrite of the header block works line by line.  A [Reply-To: ]
    line with the value of the first From line is put after the last line
    unless a line begins with [Reply-To:]; every From line is replaced by the
    new From text made of its value, every Subject line gets the prefix, every
    To line becomes the configured one; then the lines that begin with
    [Return-Path:], [Sender:], [Message-ID:] or [DKIM-Signature:] go.  Every
    other line, and the order of the lines, stay.  When the body ends in white
    space, the new message is these lines, the blank line and the body. *)
Theorem one_line_headers_rewritten (cfg : Config) (orig : option string)
    (lines : list (string * string)) :
  forallb oneLineOk lines = true ->
  allChars plain (toString (fromEmail cfg)) = true ->
  allChars plain (toString orig) = true ->
  allChars plain (toString (subjectPrefix cfg)) = true ->
  allChars plain (toString (toEmail cfg)) = true ->
  allChars (isNot "$") (toString (toEmail cfg)) = true ->
  let new := List.filter keepsHeader
               (map (rewriteLine cfg orig) (lines ++ replyToLines lines)) in
  (rewriteHeader cfg orig (block lines)).2 = block new /\
  (forall e body,
     lines <> [] -> isEol e = true -> endsInSpace body = true ->
     (rewriteMessage cfg orig (block lines +:+ e +:+ body)).2 =
     block new +:+ e +:+ body).
Proof.
  intros Hl Hf Ho Hp Ht Hd new. split.
  - by apply rewriteHeader_one_line.
  - intros e body Hne He Hbody.
    rewrite rewriteMessage_block; [| by apply oneLineOk_header | done..].
    by rewrite rewriteHeader_one_line.
Qed.

Lemma one_line_headers_rewritten_witness :
  (rewriteMessage relayConfig (Some "info@x.com")
     (block [("Return-Path: <b@x.com>", CRLF); ("From: Jane <jane@x.com>", CRLF);
             ("Subject: Hi", CRLF); ("To: info@x.com", CRLF)]
      +:+ CRLF +:+ "Body text" +:+ CRLF)).2 =
  block [("From: Jane <relay@verified.com>", CRLF); ("Subject: [FWD] Hi", CRLF);
         ("To: info@x.com", CRLF); ("Reply-To: Jane <jane@x.com>", CRLF)]
  +:+ CRLF +:+ "Body text" +:+ CRLF.
Proof.
  apply (one_line_headers_rewritten relayConfig (Some "info@x.com")
           [("Return-Path: <b@x.com>", CRLF); ("From: Jane <jane@x.com>", CRLF);
            ("Subject: Hi", CRLF); ("To: info@x.com", CRLF)]);
    reflexivity || done.
Defined.
